(** * Smart California Business Finder: validators, contact crawler,
      result collector and lead assembler

    A shallow embedding of [lead_scraper/validators.py],
    [lead_scraper/email_finder.py] and [lead_scraper/maps_scraper.py].

    Python [str] values are modelled as [list ascii]: a character is a code
    point below 256.  The character classes below ([\d], [\w], [\s],
    [str.isdigit], [str.lower]) are the ones Python applies to [str], cut
    down to that range.  The browser page and the HTTP session are
    interfaces ([Browser], [Web]) over a state of the world that every
    call threads through; sets are [gset]s.

    The embedding comes first, then the definitions the statements use
    (the [while] loop as a relation, what a match of a pattern is, two
    small worlds for examples), then the properties, component by
    component.  *)

From Stdlib Require Import ZArith Lia Bool Ascii String.
From stdpp Require Import base list strings gmap.

Local Open Scope nat_scope.

(** A [str] literal. *)
Definition str (s : string) : list ascii := list_ascii_of_string s.

(** A literal between double quotes, as CSS selectors have them. *)
Definition quoted (s : string) : list ascii :=
  ascii_of_nat 34 :: str s ++ [ascii_of_nat 34].

(** ** Characters *)

Module Chr.

Definition code (c : ascii) : nat := nat_of_ascii c.

Definition between (lo hi : nat) (c : ascii) : bool :=
  (lo <=? code c) && (code c <=? hi).

Definition is_upper_az (c : ascii) : bool := between 65 90 c.
Definition is_lower_az (c : ascii) : bool := between 97 122 c.
Definition is_letter (c : ascii) : bool := is_upper_az c || is_lower_az c.

(** [\d] on [str]: the decimal digits (Unicode category Nd). *)
Definition is_decimal (c : ascii) : bool := between 48 57 c.

(** [str.isdigit] for one character: the decimal digits and the
    superscripts 2, 3 and 1. *)
Definition is_digit (c : ascii) : bool :=
  is_decimal c || (code c =? 178) || (code c =? 179) || (code c =? 185).

(** [str.isspace] for one character; also [\s] and what [str.strip]
    removes. *)
Definition is_space (c : ascii) : bool :=
  between 9 13 c || between 28 32 c || (code c =? 133) || (code c =? 160).

(** [\w] on [str]: alphanumeric characters and the underscore. *)
Definition is_word (c : ascii) : bool :=
  is_letter c || is_decimal c || (code c =? 95)
  || (code c =? 170) || (code c =? 178) || (code c =? 179)
  || (code c =? 181) || (code c =? 185) || (code c =? 186)
  || between 188 190 c || between 192 214 c || between 216 246 c
  || between 248 255 c.

(** [str.lower] for one character. *)
Definition lower (c : ascii) : ascii :=
  if is_upper_az c || between 192 214 c || between 216 222 c
  then ascii_of_nat (code c + 32) else c.

Definition eqb (a b : ascii) : bool := Ascii.eqb a b.

End Chr.

(** ** The [str] methods the program calls *)

Module Py.

Definition lower (s : list ascii) : list ascii := map Chr.lower s.

Fixpoint lstrip (s : list ascii) : list ascii :=
  match s with
  | c :: s' => if Chr.is_space c then lstrip s' else s
  | [] => []
  end.

Definition rstrip (s : list ascii) : list ascii :=
  rev (lstrip (rev s)).

(** [s.strip()] *)
Definition strip (s : list ascii) : list ascii := rstrip (lstrip s).

(** [s.startswith(p)] *)
Fixpoint startswith (p s : list ascii) : bool :=
  match p, s with
  | [], _ => true
  | a :: p', b :: s' => Chr.eqb a b && startswith p' s'
  | _ :: _, [] => false
  end.

(** [s.endswith(p)] *)
Definition endswith (p s : list ascii) : bool :=
  startswith (rev p) (rev s).

(** [p in s] *)
Fixpoint contains (p s : list ascii) : bool :=
  startswith p s ||
  match s with
  | [] => false
  | _ :: s' => contains p s'
  end.

(** [s.isdigit()] *)
Definition isdigit (s : list ascii) : bool :=
  match s with
  | [] => false
  | _ => forallb Chr.is_digit s
  end.

(** [s.split(sep)] for a one-character separator: the pieces between the
    occurrences of [sep], empty pieces included. *)
Fixpoint split (sep : ascii) (s : list ascii) : list (list ascii) :=
  match s with
  | [] => [[]]
  | c :: s' =>
      if Chr.eqb c sep then [] :: split sep s'
      else match split sep s' with
           | p :: ps => (c :: p) :: ps
           | [] => [[c]]
           end
  end.

(** [s.split(sep, 1)]: at most one cut, at the first [sep]. *)
Fixpoint split1 (sep : ascii) (s : list ascii) : list (list ascii) :=
  match s with
  | [] => [[]]
  | c :: s' =>
      if Chr.eqb c sep then [[]; s']
      else match split1 sep s' with
           | p :: ps => (c :: p) :: ps
           | [] => [[c]]
           end
  end.

(** [l[0]] and [l[-1]] on a list of pieces ([IndexError] is [None]). *)
Definition first {A} (l : list A) : option A := head l.
Definition final {A} (l : list A) : option A := last l.

(** Truthiness of a [str]. *)
Definition truthy (s : list ascii) : bool :=
  match s with [] => false | _ => true end.

(** [l[:n]] for an [int] n, negative values counting from the end. *)
Definition slice_to {A} (n : Z) (l : list A) : list A :=
  if (0 <=? n)%Z then take (Z.to_nat n) l
  else take (length l - Z.to_nat (- n)) l.

End Py.

(** ** Regular expressions

    The patterns of the program, as syntax trees, and a backtracking matcher
    in the order Python's [re] tries the alternatives: the left branch of
    [|] first, a repetition as long as possible first.  Every repetition in
    the program's patterns is over a single character class, which is what
    [Rep] covers; [(?:r)?] is [Alt r Eps]. *)

Module Re.

Inductive regex : Type :=
| Eps                                         (* the empty pattern *)
| Cls (p : ascii -> bool)                     (* one character of a class *)
| Seq (r1 r2 : regex)                         (* r1 r2 *)
| Alt (r1 r2 : regex)                         (* r1|r2 *)
| Rep (p : ascii -> bool) (lo : nat) (hi : option nat)  (* [p]{lo,hi}, greedy *)
| WordB                                       (* \b *)
| Bol                                         (* ^ *)
| Eol.                                        (* $ *)

(** A literal string. *)
Fixpoint lit (s : list ascii) : regex :=
  match s with
  | [] => Eps
  | c :: s' => Seq (Cls (Chr.eqb c)) (lit s')
  end.

Definition opt (r : regex) : regex := Alt r Eps.
Definition plus (p : ascii -> bool) : regex := Rep p 1 None.
Definition star (p : ascii -> bool) : regex := Rep p 0 None.
Definition exactly (n : nat) (p : ascii -> bool) : regex := Rep p n (Some n).

Definition word_opt (c : option ascii) : bool :=
  match c with Some a => Chr.is_word a | None => false end.

(** [\b] between the character before the position and the one after. *)
Definition at_boundary (prev : option ascii) (s : list ascii) : bool :=
  xorb (word_opt prev) (word_opt (head s)).

(** [$] without MULTILINE: the end, or just before a final newline. *)
Definition at_eol (s : list ascii) : bool :=
  match s with
  | [] => true
  | [c] => Chr.code c =? 10
  | _ => false
  end.

Definition may_repeat (hi : option nat) : bool :=
  match hi with None => true | Some n => 0 <? n end.

Section Matcher.
Context {R : Type}.

(** The continuation receives the character before the position reached
    and the rest of the text. *)
Definition cont : Type := option ascii -> list ascii -> option R.

(** Greedy repetition of a class: one more character first, then stop
    here if the lower bound is met. *)
Fixpoint rep (p : ascii -> bool) (lo : nat) (hi : option nat)
    (prev : option ascii) (s : list ascii) (k : cont) : option R :=
  let stop := if lo =? 0 then k prev s else None in
  match s with
  | c :: s' =>
      if p c && may_repeat hi then
        match rep p (pred lo) (pred <$> hi) (Some c) s' k with
        | Some x => Some x
        | None => stop
        end
      else stop
  | [] => stop
  end.

Fixpoint bt (r : regex) (prev : option ascii) (s : list ascii)
    (k : cont) : option R :=
  match r with
  | Eps => k prev s
  | Cls p =>
      match s with
      | c :: s' => if p c then k (Some c) s' else None
      | [] => None
      end
  | Seq r1 r2 => bt r1 prev s (fun prev' s' => bt r2 prev' s' k)
  | Alt r1 r2 =>
      match bt r1 prev s k with
      | Some x => Some x
      | None => bt r2 prev s k
      end
  | Rep p lo hi => rep p lo hi prev s k
  | WordB => if at_boundary prev s then k prev s else None
  | Bol => match prev with None => k prev s | Some _ => None end
  | Eol => if at_eol s then k prev s else None
  end.
End Matcher.

(** A match of [r] at the head of [s], [prev] being the character before:
    the text left after the match. *)
Definition match_here (r : regex) (prev : option ascii) (s : list ascii)
    : option (list ascii) :=
  bt r prev s (fun _ rest => Some rest).

(** The text of a match that starts at [s] and leaves [rest]. *)
Definition matched (s rest : list ascii) : list ascii :=
  take (length s - length rest) s.

(** [r.match(s)]: the matched text. *)
Definition match_ (r : regex) (s : list ascii) : option (list ascii) :=
  matched s <$> match_here r None s.

(** [r.fullmatch(s)] as a truth value. *)
Definition fullmatch (r : regex) (s : list ascii) : bool :=
  match bt r None s (fun _ rest => match rest with [] => Some () | _ => None end) with
  | Some _ => true
  | None => false
  end.

(** [r.search(s)]: the text of the leftmost match. *)
Fixpoint search_from (r : regex) (prev : option ascii) (s : list ascii)
    : option (list ascii) :=
  match match_here r prev s with
  | Some rest => Some (matched s rest)
  | None =>
      match s with
      | c :: s' => search_from r (Some c) s'
      | [] => None
      end
  end.

Definition search (r : regex) (s : list ascii) : option (list ascii) :=
  search_from r None s.

(** [r.findall(s)] for a pattern without groups: the matches from left to
    right, none overlapping.  [skip] counts the characters still covered
    by the last match. *)
Fixpoint findall_from (r : regex) (prev : option ascii) (skip : nat)
    (s : list ascii) : list (list ascii) :=
  match s with
  | c :: s' =>
      match skip with
      | S n => findall_from r (Some c) n s'
      | 0 =>
          match match_here r prev s with
          | Some rest =>
              matched s rest
                :: findall_from r (Some c) (pred (length s - length rest)) s'
          | None => findall_from r (Some c) 0 s'
          end
      end
  | [] =>
      match skip, match_here r prev [] with
      | 0, Some _ => [[]]
      | _, _ => []
      end
  end.

Definition findall (r : regex) (s : list ascii) : list (list ascii) :=
  findall_from r None 0 s.

(** [r.sub(repl, s)] for a replacement without group references. *)
Fixpoint sub_from (r : regex) (repl : list ascii) (prev : option ascii)
    (skip : nat) (s : list ascii) : list ascii :=
  match s with
  | c :: s' =>
      match skip with
      | S n => sub_from r repl (Some c) n s'
      | 0 =>
          match match_here r prev s with
          | Some rest =>
              match length s - length rest with
              | 0 => repl ++ c :: sub_from r repl (Some c) 0 s'
              | S n => repl ++ sub_from r repl (Some c) n s'
              end
          | None => c :: sub_from r repl (Some c) 0 s'
          end
      end
  | [] =>
      match skip, match_here r prev [] with
      | 0, Some _ => repl
      | _, _ => []
      end
  end.

Definition sub (r : regex) (repl s : list ascii) : list ascii :=
  sub_from r repl None 0 s.

End Re.

(** ** lead_scraper/validators.py *)

Module Validators.
Import Re.

(** [[A-Za-z0-9._%+-]] *)
Definition local_chr (c : ascii) : bool :=
  Chr.is_letter c || Chr.is_decimal c
  || Chr.eqb c "." || Chr.eqb c "_" || Chr.eqb c "%"
  || Chr.eqb c "+" || Chr.eqb c "-".

(** [[A-Za-z0-9.-]] *)
Definition domain_chr (c : ascii) : bool :=
  Chr.is_letter c || Chr.is_decimal c || Chr.eqb c "." || Chr.eqb c "-".

(** [\b[A-Za-z0-9._%+-]+@[A-Za-z0-9.-]+\.[A-Za-z]{2,}\b]; with IGNORECASE
    the classes, which list both cases, match the same characters among
    the code points below 256.  (Above them the flag adds U+0130, U+0131,
    U+017F and U+212A to the letters; the strings here have none.) *)
Definition EMAIL_REGEX : regex :=
  Seq WordB
    (Seq (plus local_chr)
       (Seq (Cls (Chr.eqb "@"))
          (Seq (plus domain_chr)
             (Seq (Cls (Chr.eqb "."))
                (Seq (Rep Chr.is_letter 2 None) WordB))))).

(** [[\s.-]] *)
Definition sep_chr (c : ascii) : bool :=
  Chr.is_space c || Chr.eqb c "." || Chr.eqb c "-".

(** [^(?:\+1[\s.-]?)?(?:\(\d{3}\)|\d{3})[\s.-]?\d{3}[\s.-]?\d{4}$] *)
Definition US_PHONE_REGEX : regex :=
  Seq Bol
    (Seq (opt (Seq (lit (str "+1")) (Rep sep_chr 0 (Some 1))))
       (Seq (Alt (Seq (Cls (Chr.eqb "("))
                    (Seq (exactly 3 Chr.is_decimal) (Cls (Chr.eqb ")"))))
                 (exactly 3 Chr.is_decimal))
          (Seq (Rep sep_chr 0 (Some 1))
             (Seq (exactly 3 Chr.is_decimal)
                (Seq (Rep sep_chr 0 (Some 1))
                   (Seq (exactly 4 Chr.is_decimal) Eol)))))).

(** [\D] *)
Definition NON_DIGIT : regex := Cls (fun c => negb (Chr.is_decimal c)).

Definition is_valid_us_phone (value : list ascii) : bool :=
  if negb (Py.truthy value) then false
  else if Py.startswith (str "+1") value
          && (length value =? 12)
          && Py.isdigit (drop 2 value)
  then true
  else bool_decide (is_Some (match_ US_PHONE_REGEX (Py.strip value))).

Definition normalize_us_phone (value : list ascii) : option (list ascii) :=
  if negb (Py.truthy value) then None
  else
    let digits := sub NON_DIGIT [] value in
    let digits :=
      if (length digits =? 11) && Py.startswith (str "1") digits
      then drop 1 digits else digits in
    if negb (length digits =? 10) then None
    else
      let formatted := str "+1" ++ digits in
      if is_valid_us_phone formatted then Some formatted else None.

(** [email_lower.endswith((".png", ".jpg", ".jpeg", ".svg"))] *)
Definition image_suffix (email_lower : list ascii) : bool :=
  Py.endswith (str ".png") email_lower
  || Py.endswith (str ".jpg") email_lower
  || Py.endswith (str ".jpeg") email_lower
  || Py.endswith (str ".svg") email_lower.

(** The [for email in matches] loop. *)
Fixpoint first_valid (matches : list (list ascii)) : option (list ascii) :=
  match matches with
  | email :: rest =>
      let email_lower := Py.lower email in
      if image_suffix email_lower then first_valid rest
      else Some email_lower
  | [] => None
  end.

Definition extract_first_valid_email (text : list ascii)
    : option (list ascii) :=
  if negb (Py.truthy text) then None
  else first_valid (findall EMAIL_REGEX text).

Definition is_valid_email (email : list ascii) : bool :=
  Py.truthy email && fullmatch EMAIL_REGEX (Py.strip email).

End Validators.


(** ** lead_scraper/email_finder.py *)

Module EmailFinder.
Import Validators.

(** What [session.get(url, timeout=...)] gives: a response with its status
    code and text, or a [requests.RequestException]. *)
Inductive response : Type :=
| RequestException
| Response (status_code : Z) (text : list ascii).

(** An element of [soup.select("a[href]")]: the value of its [href] attribute and
    [link.get_text(" ", strip=True)]. *)
Record anchor : Type := Anchor {
  href : list ascii;
  get_text : list ascii
}.

(** The network and the libraries the crawler calls.  [W] is the state of
    the world the HTTP session acts on. *)
Class Web (W : Type) : Type := {
  session_get : list ascii -> W -> response * W;
  select_a_href : list ascii -> list anchor;
  urljoin : list ascii -> list ascii -> list ascii;
  netloc : list ascii -> list ascii;          (* urlparse(u).netloc *)
  path : list ascii -> list ascii             (* urlparse(u).path *)
}.

Definition CONTACT_KEYWORDS : list (list ascii) :=
  [str "contact"; str "impressum"; str "about"; str "support"].

(** One call of [_fetch_html], as recorded in the log of a crawl. *)
Definition fetch_event : Type := list ascii * response.

(** What a run of the [while] loop leaves: the value returned, the calls
    of [_fetch_html] in order, and the world. *)
Record run (W : Type) : Type := Run {
  returned : option (list ascii);
  fetched : list fetch_event;
  world : W
}.
Arguments Run {W}.
Arguments returned {W}.
Arguments fetched {W}.
Arguments world {W}.

Definition logged {W} (e : fetch_event) (r : run W) : run W :=
  Run (returned r) (e :: fetched r) (world r).

(** The text [_fetch_html] returns for a response. *)
Definition html_of (resp : response) : option (list ascii) :=
  match resp with
  | RequestException => None
  | Response status_code text =>
      if (status_code >=? 400)%Z then None else Some text
  end.

(** The state of the [while] loop. *)
Record crawl_state : Type := CrawlState {
  visited : gset (list ascii);
  queue : list (list ascii);
  pages_visited : Z
}.

(** How one pass through a loop body ends. *)
Inductive outcome : Type :=
| Return (email : option (list ascii))
| Continue (st : crawl_state).

Section Crawler.
Context {W : Type} `{Web W}.

Definition _fetch_html (url : list ascii) (w : W)
    : option (list ascii) * W :=
  let (resp, w') := session_get url w in (html_of resp, w').

Definition _normalize_url (url : list ascii) : option (list ascii) :=
  let candidate := Py.strip url in
  if negb (Py.truthy candidate) then None
  else if negb (Py.startswith (str "http://") candidate
                || Py.startswith (str "https://") candidate)
  then Some (str "https://" ++ candidate)
  else Some candidate.

(** [href.split(":", 1)[-1].split("?")[0].strip().lower()] *)
Definition mailto_address (href : list ascii) : list ascii :=
  let after := default [] (Py.final (Py.split1 ":" href)) in
  let before := default [] (Py.first (Py.split "?" after)) in
  Py.lower (Py.strip before).

(** [any(keyword in target for keyword in CONTACT_KEYWORDS)] *)
Definition has_keyword (target : list ascii) : bool :=
  existsb (fun keyword => Py.contains keyword target) CONTACT_KEYWORDS.

(** The [for link in soup.select("a[href]")] loop on the page at [url]:
    a valid mailto address is returned at once, a same-netloc link with
    a keyword is appended to the queue. *)
Fixpoint scan_links (base_netloc url : list ascii) (links : list anchor)
    (queue : list (list ascii)) : list ascii + list (list ascii) :=
  match links with
  | [] => inr queue
  | link :: links' =>
      let href := Py.strip (href link) in
      if negb (Py.truthy href) then scan_links base_netloc url links' queue
      else
        let mail := mailto_address href in
        if Py.startswith (str "mailto:") (Py.lower href)
           && is_valid_email mail
        then inl mail
        else
          let next_url := urljoin url href in
          if negb (bool_decide (netloc next_url = base_netloc))
          then scan_links base_netloc url links' queue
          else
            let anchor_text := Py.lower (get_text link) in
            let target :=
              Py.lower (path next_url ++ str " " ++ anchor_text) in
            if has_keyword target
            then scan_links base_netloc url links' (queue ++ [next_url])
            else scan_links base_netloc url links' queue
  end.

(** The part of the loop body after a page was fetched and counted. *)
Definition scan_page (base_netloc url html : list ascii)
    (queue : list (list ascii)) : list ascii + list (list ascii) :=
  match extract_first_valid_email html with
  | Some email =>
      if Py.truthy email && is_valid_email email then inl email
      else scan_links base_netloc url (select_a_href html) queue
  | None => scan_links base_netloc url (select_a_href html) queue
  end.

(** One pass through the body of [while queue and pages_visited <
    self.max_pages], with the call of [_fetch_html] it made, if any.
    The loop condition keeps the pass from an empty queue. *)
Definition crawl_step (base_netloc : list ascii) (st : crawl_state)
    (w : W) : outcome * option fetch_event * W :=
  match queue st with
  | [] => (Continue st, None, w)
  | url :: queue' =>
      if bool_decide (url ∈ visited st)
      then (Continue (CrawlState (visited st) queue' (pages_visited st)),
            None, w)
      else
        let visited' := {[url]} ∪ visited st in
        let (resp, w') := session_get url w in
        match html_of resp with
        | None | Some [] =>
            (Continue (CrawlState visited' queue' (pages_visited st)),
             Some (url, resp), w')
        | Some html =>
            let pages_visited' := (pages_visited st + 1)%Z in
            match scan_page base_netloc url html queue' with
            | inl email => (Return (Some email), Some (url, resp), w')
            | inr queue'' =>
                (Continue (CrawlState visited' queue'' pages_visited'),
                 Some (url, resp), w')
            end
        end
  end.

(** The passes of the [while] loop up to the next counted page:
    already visited URLs and failed or empty fetches only shorten the
    queue.  [next] is the rest of the loop after a counted page that
    returned no email. *)
Fixpoint drain (base_netloc : list ascii)
    (next : gset (list ascii) -> list (list ascii) -> W -> run W)
    (queue : list (list ascii)) (visited : gset (list ascii)) (w : W)
    : run W :=
  match queue with
  | [] => Run None [] w
  | url :: queue' =>
      if bool_decide (url ∈ visited)
      then drain base_netloc next queue' visited w
      else
        let visited' := {[url]} ∪ visited in
        let (resp, w') := session_get url w in
        logged (url, resp)
          match html_of resp with
          | None | Some [] => drain base_netloc next queue' visited' w'
          | Some html =>
              match scan_page base_netloc url html queue' with
              | inl email => Run (Some email) [] w'
              | inr queue'' => next visited' queue'' w'
              end
          end
  end.

(** The [while] loop.  The recursion is on the pages still allowed
    ([budget], which [crawl_run] sets to [max_pages - pages_visited])
    and, in [drain], on the queue. *)
Fixpoint crawl_loop (max_pages : Z) (base_netloc : list ascii)
    (budget : nat) (visited : gset (list ascii))
    (queue : list (list ascii)) (pages_visited : Z) (w : W)
    {struct budget} : run W :=
  if negb (pages_visited <? max_pages)%Z then Run None [] w
  else
    match budget with
    | 0 => Run None [] w
    | S budget' =>
        drain base_netloc
          (fun visited' queue' w' =>
             crawl_loop max_pages base_netloc budget' visited' queue'
               (pages_visited + 1)%Z w')
          queue visited w
    end.

Definition crawl_run (max_pages : Z) (base_url : list ascii) (w : W)
    : run W :=
  crawl_loop max_pages (netloc base_url) (Z.to_nat (max_pages - 0))
    ∅ [base_url] 0%Z w.

Definition _crawl_for_email (max_pages : Z) (base_url : list ascii)
    (w : W) : option (list ascii) * W :=
  let r := crawl_run max_pages base_url w in (returned r, world r).

(** [find_email]; [None] for the argument is Python's [None]. *)
Definition find_email (max_pages : Z) (website_url : option (list ascii))
    (w : W) : option (list ascii) * W :=
  match website_url with
  | None | Some [] => (None, w)
  | Some url =>
      match _normalize_url url with
      | None | Some [] => (None, w)
      | Some normalized => _crawl_for_email max_pages normalized w
      end
  end.

(** The calls of [_fetch_html] that [find_email] makes. *)
Definition find_email_log (max_pages : Z)
    (website_url : option (list ascii)) (w : W) : list fetch_event :=
  match website_url with
  | None | Some [] => []
  | Some url =>
      match _normalize_url url with
      | None | Some [] => []
      | Some normalized => fetched (crawl_run max_pages normalized w)
      end
  end.
End Crawler.

(** [WebsiteEmailFinder()]'s default [max_pages]. *)
Definition default_max_pages : Z := 6.

End EmailFinder.

(** ** lead_scraper/models.py *)

Record Lead : Type := mkLead {
  name : list ascii;
  org_type : list ascii;
  phone : list ascii;
  email : list ascii;
  address : list ascii;
  city : list ascii;
  state : list ascii
}.

(** ** lead_scraper/maps_scraper.py *)

Module MapsScraper.
Import Validators EmailFinder.

Record SearchTarget : Type := mkSearchTarget {
  query : list ascii;
  target_org_type : list ascii;
  max_items : Z
}.

(** *** Effects: the browser page

    A computation acts on the world [W] and returns a value or raises;
    [PlaywrightTimeoutError] is the one exception the code catches by
    name. *)

Inductive exn : Type := PlaywrightTimeoutError | OtherException.

Inductive res (A : Type) : Type :=
| Ok (a : A)
| Raise (e : exn).
Arguments Ok {A}.
Arguments Raise {A}.

Definition M (W A : Type) : Type := W -> res A * W.

Definition ret {W A} (a : A) : M W A := fun w => (Ok a, w).

Definition bind {W A B} (c : M W A) (k : A -> M W B) : M W B :=
  fun w =>
    match c w with
    | (Ok a, w') => k a w'
    | (Raise e, w') => (Raise e, w')
    end.

(** [try: c  except PlaywrightTimeoutError: h] *)
Definition try_timeout {W A} (c : M W A) (h : M W A) : M W A :=
  fun w =>
    match c w with
    | (Raise PlaywrightTimeoutError, w') => h w'
    | other => other
    end.

(** [try: c  except Exception: h] *)
Definition try_any {W A} (c : M W A) (h : M W A) : M W A :=
  fun w =>
    match c w with
    | (Raise _, w') => h w'
    | other => other
    end.

(** A computation that does not raise, such as [find_email]. *)
Definition lift {W A} (f : W -> A * W) : M W A :=
  fun w => let (a, w') := f w in (Ok a, w').

#[global] Instance M_ret {W} : MRet (M W) := fun A => @ret W A.
#[global] Instance M_bind {W} : MBind (M W) :=
  fun A B k c => @bind W A B c k.

Inductive locator : Type :=
| Locator (selector : list ascii)             (* page.locator(selector) *)
| First (l : locator)                         (* l.first *)
| Nth (l : locator) (idx : nat).              (* l.nth(idx) *)

(** The calls made for their effect only. *)
Inductive action : Type :=
| Launch                       (* launch, new_page, set_default_timeout *)
| Close                        (* browser.close() *)
| Goto (url : list ascii)
| WaitForTimeout (ms : Z)
| WaitForLoadState
| WaitForVisible (l : locator) (ms : Z)
| Click (l : locator)
| Fill (l : locator) (text : list ascii)
| Press (l : locator) (key : list ascii)
| ScrollFeed (l : locator)     (* l.evaluate("(el) => el.scrollBy(...)") *)
| MouseWheel (dx dy : Z)
| ReadUrlAndTitle              (* page.url, page.title() *)
| Screenshot (filename : list ascii).

Class Browser (W : Type) : Type := {
  act : action -> M W ();
  count : locator -> M W nat;
  inner_text : locator -> M W (list ascii);
  get_attribute : locator -> list ascii -> M W (option (list ascii));
  scheme : list ascii -> list ascii           (* urlparse(u).scheme *)
}.

(** [\b([A-Z]{2})\b]; group 1 is the whole match. *)
Definition STATE_REGEX : Re.regex :=
  Re.Seq Re.WordB (Re.Seq (Re.exactly 2 Chr.is_upper_az) Re.WordB).

(** [\d+] *)
Definition DIGITS_REGEX : Re.regex := Re.plus Chr.is_decimal.

(** [^Address:\s*] *)
Definition ADDRESS_PREFIX : Re.regex :=
  Re.Seq Re.Bol (Re.Seq (Re.lit (str "Address:")) (Re.star Chr.is_space)).

(** [^(Phone:|Call)\s*] *)
Definition PHONE_PREFIX : Re.regex :=
  Re.Seq Re.Bol
    (Re.Seq (Re.Alt (Re.lit (str "Phone:")) (Re.lit (str "Call")))
       (Re.star Chr.is_space)).

(** The region code the acceptance gate compares with. *)
Definition REGION : list ascii := str "CA".

Definition _parse_city_state (address : list ascii)
    : list ascii * list ascii :=
  let parts :=
    flat_map (fun p => if Py.truthy (Py.strip p) then [Py.strip p] else [])
      (Py.split "," address) in
  if length parts <? 2 then ([], [])
  else
    let state_part := default [] (last parts) in
    let state := default [] (Re.search STATE_REGEX state_part) in
    let city :=
      if 3 <=? length parts then default [] (rev parts !! 1)
      else if length parts =? 2 then default [] (last parts)
      else [] in
    let city := Py.strip (Re.sub DIGITS_REGEX [] city) in
    (city, state).

Definition _normalize_maps_url (url : list ascii) : list ascii :=
  default [] (Py.first (Py.split1 "&" url)).

(** The dedup key of [scrape]. *)
Definition dedup_key (lead : Lead) : list ascii :=
  Py.lower (name lead) ++ str "|" ++ phone lead ++ str "|"
    ++ Py.lower (address lead).

(** The state of the loops of [scrape]; [accepted] is not in the source:
    it records every lead [_parse_place] returned, in order. *)
Record scrape_state : Type := ScrapeState {
  all_leads : list Lead;
  seen_keys : gset (list ascii);
  accepted : list Lead
}.

(** The state of the rounds of [_collect_place_urls]. *)
Record collect_state : Type := CollectState {
  urls : gset (list ascii);
  stagnant_rounds : nat;
  previous_count : nat
}.

Section Scraper.
Context {W : Type} `{Browser W} `{Web W}.

Definition _safe_text (selector : list ascii) : M W (list ascii) :=
  try_timeout
    (let loc := First (Locator selector) in
     n ← count loc;
     if n =? 0 then ret []
     else (text ← inner_text loc; ret (Py.strip text)))
    (ret []).

Fixpoint address_by (selectors : list (list ascii)) : M W (list ascii) :=
  match selectors with
  | [] => ret []
  | selector :: rest =>
      text ← _safe_text selector;
      if Py.truthy text
      then ret (Py.strip (Re.sub ADDRESS_PREFIX [] text))
      else address_by rest
  end.

Definition _extract_address : M W (list ascii) :=
  address_by [str "button[data-item-id=" ++ quoted "address" ++ str "]";
              str "button[data-tooltip=" ++ quoted "Copy address" ++ str "]";
              str "div[aria-label^=" ++ quoted "Address:" ++ str "]"].

Fixpoint phone_by (selectors : list (list ascii)) : M W (list ascii) :=
  match selectors with
  | [] => ret []
  | selector :: rest =>
      text ← _safe_text selector;
      if Py.truthy text then
        let cleaned := Py.strip (Re.sub PHONE_PREFIX [] text) in
        if Py.truthy cleaned then ret cleaned else phone_by rest
      else phone_by rest
  end.

Definition _extract_phone : M W (list ascii) :=
  phone_by [str "button[data-item-id^=" ++ quoted "phone:" ++ str "]";
            str "button[data-tooltip=" ++ quoted "Copy phone number" ++ str "]";
            str "div[aria-label^=" ++ quoted "Phone:" ++ str "]"].

Definition http_scheme (href : list ascii) : bool :=
  bool_decide (scheme href = str "http")
  || bool_decide (scheme href = str "https").

Fixpoint website_by (selectors : list (list ascii))
    : M W (option (list ascii)) :=
  match selectors with
  | [] => ret None
  | selector :: rest =>
      found ←
        try_timeout
          (let loc := First (Locator selector) in
           n ← count loc;
           if n =? 0 then ret None
           else
             (href ← get_attribute loc (str "href");
              match href with
              | Some (c :: h) =>
                  if http_scheme (c :: h) then ret (Some (c :: h))
                  else ret None
              | _ => ret None
              end))
          (ret None);
      match found with
      | Some href => ret (Some href)
      | None => website_by rest
      end
  end.

Definition _extract_website : M W (option (list ascii)) :=
  website_by [str "a[data-item-id=" ++ quoted "authority" ++ str "]";
              str "a[data-tooltip=" ++ quoted "Open website" ++ str "]"].

Definition _parse_place (place_url org_type : list ascii)
    : M W (option Lead) :=
  act (Goto place_url);;
  act (WaitForTimeout 2500);;
  name ← _safe_text (str "h1.DUwDvf");
  address ← _extract_address;
  raw_phone ← _extract_phone;
  let phone := normalize_us_phone raw_phone in
  website ← _extract_website;
  email ← lift (find_email default_max_pages website);
  if negb (Py.truthy name) || negb (Py.truthy address)
     || negb (Py.truthy (default [] phone))
     || negb (Py.truthy (default [] email))
  then ret None
  else
    let (city, state) := _parse_city_state address in
    if negb (Py.truthy city) || negb (bool_decide (state = REGION))
    then ret None
    else ret (Some (mkLead name org_type (default [] phone)
                      (default [] email) address city state)).

Fixpoint consent_by (selectors : list (list ascii)) : M W () :=
  match selectors with
  | [] => ret ()
  | selector :: rest =>
      let button := First (Locator selector) in
      clicked ←
        try_timeout
          (n ← count button;
           if n =? 0 then ret false
           else (act (Click button);;
                 act (WaitForTimeout 1000);; ret true))
          (ret false);
      if clicked : bool then ret () else consent_by rest
  end.

Definition _handle_consent_if_present : M W () :=
  consent_by [str "button:has-text('Accept all')";
              str "button:has-text('I agree')";
              str "button:has-text('Reject all')";
              str "form button:has-text('Accept')"].

Definition _prepare_maps_home : M W () :=
  _handle_consent_if_present;; act WaitForLoadState.

Fixpoint search_input_by (selectors : list (list ascii))
    : M W (option locator) :=
  match selectors with
  | [] => ret None
  | selector :: rest =>
      let loc := First (Locator selector) in
      found ←
        try_timeout (act (WaitForVisible loc 15000);; ret true)
          (ret false);
      if found : bool then ret (Some loc) else search_input_by rest
  end.

Definition _get_search_input : M W (option locator) :=
  search_input_by [str "input#searchboxinput";
                   str "input[aria-label*=" ++ quoted "Search" ++ str "]";
                   str "input[aria-label*=" ++ quoted "search" ++ str "]";
                   str "input[name=" ++ quoted "q" ++ str "]"].

Definition _save_debug_screenshot (filename : list ascii) : M W () :=
  try_any (act (Screenshot filename)) (ret ()).

(** [for idx in range(count)]: the cards from [idx] on, [n] of them. *)
Fixpoint read_cards (cards : locator) (idx n : nat)
    (urls : gset (list ascii)) : M W (gset (list ascii)) :=
  match n with
  | 0 => ret urls
  | S n' =>
      href ← get_attribute (Nth cards idx) (str "href");
      match href with
      | Some h =>
          if Py.truthy h && Py.contains (str "/maps/place/") h
          then read_cards cards (S idx) n' ({[_normalize_maps_url h]} ∪ urls)
          else read_cards cards (S idx) n' urls
      | None => read_cards cards (S idx) n' urls
      end
  end.

(** [for _ in range(120)], [rounds] of them left. *)
Fixpoint collect_rounds (max_items : Z) (rounds : nat)
    (st : collect_state) : M W (gset (list ascii)) :=
  match rounds with
  | 0 => ret (urls st)
  | S rounds' =>
      let cards := Locator (str "a.hfpxzc") in
      n ← count cards;
      urls ← read_cards cards 0 n (urls st);
      if (Z.of_nat (size urls) >=? max_items)%Z then ret urls
      else
        let stagnant_rounds :=
          if size urls =? previous_count st
          then stagnant_rounds st + 1 else 0 in
        let previous_count := size urls in
        if 7 <=? stagnant_rounds then ret urls
        else
          let feed := Locator (str "div[role=" ++ quoted "feed" ++ str "]") in
          m ← count feed;
          (if 0 <? m then act (ScrollFeed feed)
           else act (MouseWheel 0 4500));;
          act (WaitForTimeout 1500);;
          collect_rounds max_items rounds'
            (CollectState urls stagnant_rounds previous_count)
  end.

(** [list(urls)] is [elements urls]: the set in some order. *)
Definition _collect_place_urls (query : list ascii) (max_items : Z)
    : M W (list (list ascii)) :=
  act (Goto (str "https://www.google.com/maps"));;
  _prepare_maps_home;;
  search_input ← _get_search_input;
  match search_input with
  | None =>
      act ReadUrlAndTitle;;
      _save_debug_screenshot (str "searchbox_missing.png");;
      ret []
  | Some search_input =>
      act (Click search_input);;
      act (Fill search_input []);;
      act (Fill search_input query);;
      act (Press search_input (str "Enter"));;
      act (WaitForTimeout 3000);;
      urls ← collect_rounds max_items 120 (CollectState ∅ 0 0);
      ret (Py.slice_to max_items (elements urls))
  end.

(** [for place_url in place_urls] in [scrape]. *)
Fixpoint scrape_places (org_type : list ascii)
    (place_urls : list (list ascii)) (st : scrape_state)
    : M W scrape_state :=
  match place_urls with
  | [] => ret st
  | place_url :: rest =>
      lead ← try_any (_parse_place place_url org_type) (ret None);
      match lead with
      | None => scrape_places org_type rest st
      | Some lead =>
          let key := dedup_key lead in
          if bool_decide (key ∈ seen_keys st)
          then scrape_places org_type rest
                 (ScrapeState (all_leads st) (seen_keys st)
                    (accepted st ++ [lead]))
          else scrape_places org_type rest
                 (ScrapeState (all_leads st ++ [lead])
                    ({[key]} ∪ seen_keys st)
                    (accepted st ++ [lead]))
      end
  end.

(** [for target in targets] in [scrape]. *)
Fixpoint scrape_targets (targets : list SearchTarget)
    (st : scrape_state) : M W scrape_state :=
  match targets with
  | [] => ret st
  | target :: rest =>
      place_urls ← _collect_place_urls (query target) (max_items target);
      st' ← scrape_places (target_org_type target) place_urls st;
      scrape_targets rest st'
  end.

Definition scrape_run (targets : list SearchTarget) : M W scrape_state :=
  act Launch;;
  act (Goto (str "https://www.google.com/maps"));;
  st ← scrape_targets targets (ScrapeState [] ∅ []);
  act Close;;
  ret st.

Definition scrape (targets : list SearchTarget) : M W (list Lead) :=
  st ← scrape_run targets; ret (all_leads st).
End Scraper.

End MapsScraper.

(** ** Definitions used to state the properties *)

(** What [normalize_us_phone] keeps of the digits: all of them, or all but
    a leading 1 when there are eleven. *)
Definition subscriber_digits (digits : list ascii) : list ascii :=
  if (length digits =? 11) && Py.startswith (str "1") digits
  then drop 1 digits else digits.


(** The [while] loop of [_crawl_for_email] as a relation: the runs obtained
    by repeating [crawl_step] while the loop condition holds. *)
Module CrawlSemantics.
Import EmailFinder.

Definition loop_condition (max_pages : Z) (st : crawl_state) : bool :=
  match queue st with [] => false | _ => true end
  && (pages_visited st <? max_pages)%Z.

Definition log_of (ev : option fetch_event) : list fetch_event :=
  match ev with Some e => [e] | None => [] end.

Inductive exec {W : Type} `{Web W} (max_pages : Z)
    (base_netloc : list ascii) : crawl_state -> W -> run W -> Prop :=
| exec_exit st w :
    loop_condition max_pages st = false ->
    exec max_pages base_netloc st w (Run None [] w)
| exec_return st w email ev w' :
    loop_condition max_pages st = true ->
    crawl_step base_netloc st w = (Return email, ev, w') ->
    exec max_pages base_netloc st w (Run email (log_of ev) w')
| exec_continue st w st' ev w' r :
    loop_condition max_pages st = true ->
    crawl_step base_netloc st w = (Continue st', ev, w') ->
    exec max_pages base_netloc st' w' r ->
    exec max_pages base_netloc st w
      (Run (returned r) (log_of ev ++ fetched r) (world r)).


(** A fetch the loop counts in [pages_visited]: successful, with a text
    that is not empty. *)
Definition counted (e : fetch_event) : bool :=
  match html_of (snd e) with
  | Some (_ :: _) => true
  | _ => false
  end.

(** One pass never appends a URL that is already in the queue or in the
    visited set: the appended URLs are distinct, and none is in the rest
    of the queue or in the visited set. *)
Definition enqueues_only_fresh {W : Type} `{Web W}
    (base_netloc : list ascii) (st : crawl_state) (w : W) : Prop :=
  forall st' ev w' added,
    crawl_step base_netloc st w = (Continue st', ev, w') ->
    queue st' = tail (queue st) ++ added ->
    NoDup added
    /\ forall u, u ∈ added -> (u ∉ tail (queue st)) /\ (u ∉ visited st').

(** An address in lower case that [is_valid_email] accepts. *)
Definition email_ok (e : list ascii) : Prop :=
  Py.lower e = e /\ Validators.is_valid_email e = true.

End CrawlSemantics.

(** A small site for the examples: a home page with a navigation bar and a
    footer, a contact page that answers 200 with an empty body, and an
    about page with an address.  The world is the list of the URLs
    requested so far. *)
Module ExampleSite.
Import EmailFinder.

Definition home : list ascii := str "https://x.com/".

Definition home_html : list ascii :=
  str "<a href='/contact'>Contact</a> <a href='/about'>About</a> <p>Welcome</p> <a href='/contact'>Contact us</a>".

Definition about_html : list ascii :=
  str "<p>Write to Office@X.com</p>".

Definition respond (url : list ascii) : response :=
  if bool_decide (url = home) then Response 200 home_html
  else if bool_decide (url = str "https://x.com/contact") then Response 200 []
  else if bool_decide (url = str "https://x.com/about") then Response 200 about_html
  else Response 404 (str "Not Found").

Definition anchors (html : list ascii) : list anchor :=
  if bool_decide (html = home_html)
  then [Anchor (str "/contact") (str "Contact");
        Anchor (str "/about") (str "About");
        Anchor (str "/contact") (str "Contact us")]
  else [].

Fixpoint until_slash (s : list ascii) : list ascii :=
  match s with
  | c :: s' => if Chr.eqb c "/" then [] else c :: until_slash s'
  | [] => []
  end.

Fixpoint from_slash (s : list ascii) : list ascii :=
  match s with
  | c :: s' => if Chr.eqb c "/" then s else from_slash s'
  | [] => []
  end.

(** [urlparse] and [urljoin] on https URLs and absolute paths. *)
Definition https_netloc (u : list ascii) : list ascii :=
  if Py.startswith (str "https://") u then until_slash (drop 8 u) else [].

Definition https_path (u : list ascii) : list ascii :=
  if Py.startswith (str "https://") u then from_slash (drop 8 u) else u.

Definition https_join (base href : list ascii) : list ascii :=
  if Py.startswith (str "/") href
  then str "https://" ++ https_netloc base ++ href
  else href.

#[global] Instance site : Web (list (list ascii)) := {|
  session_get url w := (respond url, w ++ [url]);
  select_a_href := anchors;
  urljoin := https_join;
  netloc := https_netloc;
  path := https_path
|}.

Definition start : crawl_state := CrawlState ∅ [home] 0.

End ExampleSite.

(** A small map for the examples: a result list of two cards that lead to
    two detail pages of the same church, written in different letter case,
    whose website is the example site. *)
Module ExampleMaps.
Import EmailFinder MapsScraper.

Record world : Type := World {
  page : list ascii;                     (* the URL the page is on *)
  requests : list (list ascii)           (* the URLs the session fetched *)
}.

Definition place1 : list ascii :=
  str "https://www.google.com/maps/place/Grace+Church/data=1?hl=en".
Definition place2 : list ascii :=
  str "https://www.google.com/maps/place/GRACE+CHURCH/data=2?hl=en".

Definition is_sel (prefix : string) (selector : list ascii) : bool :=
  Py.startswith (str prefix) selector.

(** The text of the first element a selector finds on the page. *)
Definition text_of (w : world) (selector : list ascii)
    : option (list ascii) :=
  if bool_decide (page w = place1) then
    if is_sel "h1.DUwDvf" selector then Some (str "Grace Church")
    else if is_sel "button[data-item-id=" selector
    then Some (str "123 Main St, Los Angeles, CA 90001")
    else if is_sel "button[data-item-id^=" selector
    then Some (str "(213) 555-0100")
    else None
  else if bool_decide (page w = place2) then
    if is_sel "h1.DUwDvf" selector then Some (str "GRACE CHURCH")
    else if is_sel "button[data-item-id=" selector
    then Some (str "123 MAIN ST, LOS ANGELES, CA 90001")
    else if is_sel "button[data-item-id^=" selector
    then Some (str "+1 213-555-0100")
    else None
  else None.

Definition attribute_of (w : world) (l : locator) : option (list ascii) :=
  match l with
  | Nth (Locator _) 0 => Some (place1 ++ str "&rclk=1")
  | Nth (Locator _) 1 => Some (place2 ++ str "&rclk=1")
  | First (Locator selector) =>
      if is_sel "a[data-item-id=" selector then Some ExampleSite.home
      else None
  | _ => None
  end.

Definition count_of (w : world) (l : locator) : nat :=
  match l with
  | Locator selector => if is_sel "a.hfpxzc" selector then 2 else 1
  | First (Locator selector) =>
      if is_sel "button:has-text" selector || is_sel "form button" selector
      then 0
      else match text_of w selector, attribute_of w l with
           | None, None => 0
           | _, _ => 1
           end
  | _ => 0
  end.

Definition do (a : action) (w : world) : res () * world :=
  match a with
  | Goto url => (Ok (), World url (requests w))
  | _ => (Ok (), w)
  end.

#[global] Instance browser : Browser world := {|
  act := do;
  count l w := (Ok (count_of w l), w);
  inner_text l w :=
    match l with
    | First (Locator selector) => (Ok (default [] (text_of w selector)), w)
    | _ => (Raise OtherException, w)
    end;
  get_attribute l _ w := (Ok (attribute_of w l), w);
  scheme u := if Py.startswith (str "https:") u then str "https" else []
|}.

#[global] Instance web : Web world := {|
  session_get url w :=
    (ExampleSite.respond url, World (page w) (requests w ++ [url]));
  select_a_href := ExampleSite.anchors;
  urljoin := ExampleSite.https_join;
  netloc := ExampleSite.https_netloc;
  path := ExampleSite.https_path
|}.

Definition start : world := World [] [].

Definition churches : SearchTarget :=
  mkSearchTarget (str "Churches in California") (str "Church") 2.


Definition lead2 : Lead :=
  mkLead (str "GRACE CHURCH") (str "Church") (str "+12135550100")
    (str "office@x.com") (str "123 MAIN ST, LOS ANGELES, CA 90001")
    (str "LOS ANGELES") (str "CA").

End ExampleMaps.



(** ** What it means for a pattern to match

    [matches r prev m rest]: the text [m], with the character [prev] before
    it and the text [rest] after it, is a match of [r]. *)
Module ReSem.
Import Re.

(** The character before the position reached after [m]. *)
Definition last_chr (prev : option ascii) (m : list ascii) : option ascii :=
  match last m with Some c => Some c | None => prev end.

Definition within (hi : option nat) (n : nat) : Prop :=
  match hi with Some h => n <= h | None => True end.

Inductive matches : regex -> option ascii -> list ascii -> list ascii -> Prop :=
| m_eps prev rest : matches Eps prev [] rest
| m_cls p c prev rest : p c = true -> matches (Cls p) prev [c] rest
| m_seq r1 r2 prev m1 m2 rest :
    matches r1 prev m1 (m2 ++ rest) ->
    matches r2 (last_chr prev m1) m2 rest ->
    matches (Seq r1 r2) prev (m1 ++ m2) rest
| m_alt_l r1 r2 prev m rest :
    matches r1 prev m rest -> matches (Alt r1 r2) prev m rest
| m_alt_r r1 r2 prev m rest :
    matches r2 prev m rest -> matches (Alt r1 r2) prev m rest
| m_rep p lo hi prev m rest :
    Forall (fun c => p c = true) m -> lo <= length m ->
    within hi (length m) ->
    matches (Rep p lo hi) prev m rest
| m_wordb prev rest :
    at_boundary prev rest = true -> matches WordB prev [] rest
| m_bol rest : matches Bol None [] rest
| m_eol prev rest : at_eol rest = true -> matches Eol prev [] rest.

(** No match of [r] starts at a character of [gap], the text going on
    with [after]. *)
Definition no_match_in (r : regex) (prev : option ascii)
    (gap after : list ascii) : Prop :=
  forall g1 g2 m rest,
    gap = g1 ++ g2 -> g2 <> [] -> g2 ++ after = m ++ rest ->
    ~ matches r (last_chr prev g1) m rest.

(** [scanned r prev s ms]: [ms] are matches of [r] in [s], from left to
    right and not overlapping, each starting at the first position after
    the one before where [r] matches at all. *)
Inductive scanned (r : regex)
    : option ascii -> list ascii -> list (list ascii) -> Prop :=
| scanned_nil prev s :
    no_match_in r prev s [] ->
    ~ matches r (last_chr prev s) [] [] ->
    scanned r prev s []
| scanned_cons prev gap m rest ms :
    m <> [] ->
    no_match_in r prev gap (m ++ rest) ->
    matches r (last_chr prev gap) m rest ->
    scanned r (last_chr (last_chr prev gap) m) rest ms ->
    scanned r prev (gap ++ m ++ rest) (m :: ms).

(** A pattern that matches no empty text. *)
Definition never_empty (r : regex) : Prop :=
  forall prev rest, ~ matches r prev [] rest.

(** The shape of a match of [EMAIL_REGEX] in a text of code points below
    256. *)
Definition email_shape (m : list ascii) : Prop :=
  exists local domain tld,
    m = local ++ str "@" ++ domain ++ str "." ++ tld
    /\ local <> [] /\ Forall (fun c => Validators.local_chr c = true) local
    /\ domain <> [] /\ Forall (fun c => Validators.domain_chr c = true) domain
    /\ 2 <= length tld /\ Forall (fun c => Chr.is_letter c = true) tld.

(** [m] stands in [text], between word boundaries. *)
Definition occurs_between_boundaries (text m : list ascii) : Prop :=
  exists before after,
    text = before ++ m ++ after
    /\ at_boundary (last before) m = true
    /\ at_boundary (last m) after = true.

(** No match of [r] at the same place is longer than [m]. *)
Definition longest_at (r : regex) (prev : option ascii)
    (m rest : list ascii) : Prop :=
  forall m' rest',
    m ++ rest = m' ++ rest' -> matches r prev m' rest' ->
    length m' <= length m.

(** [scan r prev s ms]: [ms] is what a scan of [s] for [r] from left to
    right finds.  Each match starts at the first position, from the end
    of the match before, where [r] matches at all, and is the longest
    match of [r] there; the scan goes on after it, so that no two
    matches overlap. *)
Inductive scan (r : regex)
    : option ascii -> list ascii -> list (list ascii) -> Prop :=
| scan_end prev s :
    no_match_in r prev s [] ->
    ~ matches r (last_chr prev s) [] [] ->
    scan r prev s []
| scan_match prev gap m rest ms :
    m <> [] ->
    no_match_in r prev gap (m ++ rest) ->
    matches r (last_chr prev gap) m rest ->
    longest_at r (last_chr prev gap) m rest ->
    scan r (last_chr (last_chr prev gap) m) rest ms ->
    scan r prev (gap ++ m ++ rest) (m :: ms).

(** A pattern of which the matcher finds the longest match. *)
Definition picks_longest (r : regex) : Prop :=
  forall prev m rest,
    match_here r prev (m ++ rest) = Some rest -> longest_at r prev m rest.

(** [\.[A-Za-z]{2,}\b], the end of [EMAIL_REGEX]. *)
Definition EMAIL_TLD : regex :=
  Seq (Cls (Chr.eqb ".")) (Seq (Rep Chr.is_letter 2 None) WordB).

(** The endings of the names of images. *)
Definition IMAGE_EXTENSIONS : list (list ascii) :=
  [str ".png"; str ".jpg"; str ".jpeg"; str ".svg"].

(** A text that ends in ".png", ".jpg", ".jpeg" or ".svg". *)
Definition image_name (e : list ascii) : Prop :=
  exists stem ext, ext ∈ IMAGE_EXTENSIONS /\ e = stem ++ ext.

(** [m] stands in [text] between [before] and [after] and is a match of
    the email pattern there. *)
Definition email_at (text before m after : list ascii) : Prop :=
  text = before ++ m ++ after
  /\ matches Validators.EMAIL_REGEX (last before) m after.

(** The result is the first substring of the text that matches the email
    pattern and whose lower-case form is no image name, in lower case:
    none that is one starts before it; the result is [None] when no
    substring is one. *)
Definition first_kept_substring (text : list ascii)
    (result : option (list ascii)) : Prop :=
  match result with
  | Some e =>
      exists before m after,
        email_at text before m after
        /\ ~ image_name (Py.lower m)
        /\ e = Py.lower m
        /\ forall before' m' after',
             email_at text before' m' after' ->
             ~ image_name (Py.lower m') ->
             length before <= length before'
  | None =>
      forall before m after,
        email_at text before m after -> image_name (Py.lower m)
  end.

End ReSem.

(** * More of the program, and what its properties are stated with *)

(** A text that [strip] leaves as it is: no space at either end. *)
Definition stripped (s : list ascii) : Prop :=
  match s with
  | [] => True
  | c :: _ => Chr.is_space c = false
  end
  /\ match last s with
     | Some c => Chr.is_space c = false
     | None => True
     end.

(** The texts [US_PHONE_REGEX] matches: an optional "+1" with an optional
    separator, three digits in parentheses or bare, and three and four
    digits after optional separators; a newline may end the text. *)
Module PhoneShape.

Definition digits (n : nat) (s : list ascii) : Prop :=
  length s = n /\ Forall (fun c => Chr.is_decimal c = true) s.

Definition optional_sep (s : list ascii) : Prop :=
  s = [] \/ exists c, s = [c] /\ Validators.sep_chr c = true.

Definition country_code (s : list ascii) : Prop :=
  s = [] \/ exists sp, s = str "+1" ++ sp /\ optional_sep sp.

Definition area_code (s : list ascii) : Prop :=
  exists a, digits 3 a /\ (s = a \/ s = str "(" ++ a ++ str ")").

Definition final_newline (s : list ascii) : Prop :=
  s = [] \/ s = [ascii_of_nat 10].

Definition us_phone_shape (s : list ascii) : Prop :=
  exists cc area sep1 mid sep2 line final,
    s = cc ++ area ++ sep1 ++ mid ++ sep2 ++ line ++ final
    /\ country_code cc /\ area_code area
    /\ optional_sep sep1 /\ digits 3 mid
    /\ optional_sep sep2 /\ digits 4 line
    /\ final_newline final.

End PhoneShape.

(** What the properties of the crawler are stated with. *)
Module CrawlProps.
Import EmailFinder.

(** The requests of a log, made one after the other from the world [w],
    give the logged responses and leave the world [w']. *)
Fixpoint replays {W : Type} `{Web W} (w : W) (log : list fetch_event)
    (w' : W) : Prop :=
  match log with
  | [] => w' = w
  | (url, resp) :: rest =>
      exists w1, session_get url w = (resp, w1) /\ replays w1 rest w'
  end.


(** A URL with "http://" or "https://" at its start. *)
Definition has_scheme (candidate : list ascii) : Prop :=
  (exists rest, candidate = str "http://" ++ rest)
  \/ (exists rest, candidate = str "https://" ++ rest).

(** [keyword in target] for one of the contact keywords. *)
Definition names_keyword (target : list ascii) : Prop :=
  exists keyword before after,
    keyword ∈ CONTACT_KEYWORDS /\ target = before ++ keyword ++ after.

(** A URL the loop over the anchors of the page at [page], whose text is
    [html], appends: one of its links, resolved against [page], on the
    netloc of the crawl, with a keyword in its path or its text. *)
Definition keyword_link {W : Type} `{Web W}
    (base_netloc page html u : list ascii) : Prop :=
  exists link,
    link ∈ select_a_href html
    /\ Py.strip (href link) <> []
    /\ u = urljoin page (Py.strip (href link))
    /\ netloc u = base_netloc
    /\ names_keyword
         (Py.lower (path u ++ str " " ++ Py.lower (get_text link))).

(** A keyword link of a page among the requests [earlier] that answered
    with a text. *)
Definition link_of_fetched {W : Type} `{Web W} (base_netloc : list ascii)
    (earlier : list fetch_event) (u : list ascii) : Prop :=
  exists page resp html,
    (page, resp) ∈ earlier
    /\ html_of resp = Some html /\ html <> []
    /\ keyword_link base_netloc page html u.

End CrawlProps.

(** A site whose home page has a mailto link with the "@" written as a
    character reference, which the HTML parser decodes: the text of the
    page holds no address. *)
Module ExampleMailto.
Import EmailFinder.

Definition home : list ascii := str "https://y.org".

Definition home_html : list ascii :=
  str "<a href='/team'>Team</a> <a href=' MAILTO:Info&#64;Y.org?subject=Hi '>Write</a> <a href='/contact'>Contact</a>".

Definition links : list anchor :=
  [Anchor (str "/team") (str "Team");
   Anchor (str " MAILTO:Info@Y.org?subject=Hi ") (str "Write");
   Anchor (str "/contact") (str "Contact")].

Definition site : Web (list (list ascii)) := {|
  session_get url w :=
    (if bool_decide (url = home) then Response 200 home_html
     else RequestException, w ++ [url]);
  select_a_href html := if bool_decide (html = home_html) then links else [];
  urljoin := ExampleSite.https_join;
  netloc := ExampleSite.https_netloc;
  path := ExampleSite.https_path
|}.

End ExampleMailto.

(** What is left of a text after its first run of characters of a class. *)
Fixpoint after_run (p : ascii -> bool) (s : list ascii) : list ascii :=
  match s with
  | c :: s' => if p c then after_run p s' else s
  | [] => []
  end.

(** What the properties of the scraper are stated with. *)
Module ScrapeProps.
Import MapsScraper.

(** An outcome that is a value with the property [P], or an exception
    other than [PlaywrightTimeoutError]. *)
Definition no_timeout {W A : Type} (P : A -> Prop) (out : res A * W)
    : Prop :=
  match fst out with
  | Ok a => P a
  | Raise e => e = OtherException
  end.

(** What every lead of a run is. *)
Definition lead_ok (lead : Lead) : Prop :=
  name lead <> [] /\ stripped (name lead)
  /\ address lead <> [] /\ stripped (address lead)
  /\ (exists d, phone lead = str "+1" ++ d /\ length d = 10
                /\ forallb Chr.is_decimal d = true)
  /\ Validators.is_valid_us_phone (phone lead) = true
  /\ Validators.is_valid_email (email lead) = true
  /\ Py.lower (email lead) = email lead
  /\ _parse_city_state (address lead) = (city lead, state lead)
  /\ city lead <> [] /\ state lead = REGION.


(** The locator of the cards of the result list. *)
Definition cards : locator := Locator (str "a.hfpxzc").

(** A link a card of the result list has in some state of the page. *)
Definition card_href {W : Type} `{Browser W} (h : list ascii) : Prop :=
  exists idx w w',
    get_attribute (Nth cards idx) (str "href") w = (Ok (Some h), w').

(** The place of a card: the link of the card, which has "/maps/place/"
    in it, up to its first "&". *)
Definition place_of_card {W : Type} `{Browser W} (u : list ascii) : Prop :=
  exists h,
    card_href h
    /\ (exists before after, h = before ++ str "/maps/place/" ++ after)
    /\ (u = h \/ exists rest, h = u ++ str "&" ++ rest)
    /\ Forall (fun c => c <> "&"%char) u.

End ScrapeProps.

(** A map page on which no search box ever shows. *)
Module ExampleNoSearch.
Import MapsScraper.

Definition browser : Browser ExampleMaps.world := {|
  act a w :=
    match a with
    | WaitForVisible _ _ => (Raise PlaywrightTimeoutError, w)
    | _ => ExampleMaps.do a w
    end;
  count l w := (Ok (ExampleMaps.count_of w l), w);
  inner_text l w := (Ok [], w);
  get_attribute l _ w := (Ok (ExampleMaps.attribute_of w l), w);
  scheme u := []
|}.

End ExampleNoSearch.


(** ** main.py *)

Module Main.
Import MapsScraper.

(** [total // 2] rounds down, as [Z.div] does for the divisor 2. *)
Definition build_targets (total : Z) : list SearchTarget :=
  let church_count := (total / 2)%Z in
  let hospital_count := (total - church_count)%Z in
  [mkSearchTarget (str "Churches in California") (str "Church")
     church_count;
   mkSearchTarget (str "Hospitals in California") (str "Hospital")
     hospital_count].

End Main.

(** ** lead_scraper/models.py and lead_scraper/exporters.py

    A [dict] with [str] keys is a list of keys and values in the order of
    insertion.  Of the exporters the file is left out: what is modelled is
    the rows they hand to the [csv] writer and to [pandas]. *)

Module Exporters.

Definition dict : Type := list (list ascii * list ascii).

(** [d.get(key)] *)
Fixpoint get (key : list ascii) (d : dict) : option (list ascii) :=
  match d with
  | [] => None
  | (k, v) :: d' => if bool_decide (k = key) then Some v else get key d'
  end.

(** [d.pop(key)]: the value and the rest; [None] is a [KeyError]. *)
Fixpoint pop (key : list ascii) (d : dict) : option (list ascii * dict) :=
  match d with
  | [] => None
  | (k, v) :: d' =>
      if bool_decide (k = key) then Some (v, d')
      else match pop key d' with
           | Some (x, d'') => Some (x, (k, v) :: d'')
           | None => None
           end
  end.

(** [d[key] = value]: in place for a key that is there, at the end for a
    new one. *)
Fixpoint set_item (key value : list ascii) (d : dict) : dict :=
  match d with
  | [] => [(key, value)]
  | (k, v) :: d' =>
      if bool_decide (k = key) then (k, value) :: d'
      else (k, v) :: set_item key value d'
  end.

(** [dataclasses.asdict(lead)] *)
Definition asdict (lead : Lead) : dict :=
  [(str "name", name lead); (str "org_type", org_type lead);
   (str "phone", phone lead); (str "email", email lead);
   (str "address", address lead); (str "city", city lead);
   (str "state", state lead)].

(** [row[new] = row.pop(old)] *)
Definition rename (new old : string) (row : option dict) : option dict :=
  match row with
  | Some d =>
      match pop (str old) d with
      | Some (v, d') => Some (set_item (str new) v d')
      | None => None
      end
  | None => None
  end.

(** [Lead.to_dict] *)
Definition to_dict (lead : Lead) : option dict :=
  rename "State" "state"
    (rename "City" "city"
       (rename "Address" "address"
          (rename "Email" "email"
             (rename "Phone" "phone"
                (rename "Name" "name"
                   (rename "Type" "org_type" (Some (asdict lead)))))))).

Definition OUTPUT_COLUMNS : list (list ascii) :=
  [str "Name"; str "Type"; str "Phone"; str "Email"; str "Address";
   str "City"; str "State"].

(** What [csv.DictWriter.writerow] writes for a row: the values of the
    field names in order, the empty text for a missing one; [None] is the
    [ValueError] for a key that is no field name. *)
Definition dict_to_list (fieldnames : list (list ascii)) (row : dict)
    : option (list (list ascii)) :=
  if forallb (fun kv => bool_decide (fst kv ∈ fieldnames)) row
  then Some (map (fun key => default [] (get key row)) fieldnames)
  else None.

(** The rows of [export_to_csv]: the header, then a row for each lead. *)
Fixpoint csv_body (leads : list Lead) : option (list (list (list ascii))) :=
  match leads with
  | [] => Some []
  | lead :: rest =>
      match to_dict lead with
      | Some row =>
          match dict_to_list OUTPUT_COLUMNS row, csv_body rest with
          | Some fields, Some rows => Some (fields :: rows)
          | _, _ => None
          end
      | None => None
      end
  end.

Definition export_to_csv (leads : list Lead)
    : option (list (list (list ascii))) :=
  match csv_body leads with
  | Some rows => Some (OUTPUT_COLUMNS :: rows)
  | None => None
  end.

(** The frame of [export_to_excel]: for each lead the cells of the
    columns in order, a missing one being [None]. *)
Fixpoint export_to_excel (leads : list Lead)
    : option (list (list (option (list ascii)))) :=
  match leads with
  | [] => Some []
  | lead :: rest =>
      match to_dict lead, export_to_excel rest with
      | Some row, Some rows =>
          Some (map (fun key => get key row) OUTPUT_COLUMNS :: rows)
      | _, _ => None
      end
  end.

(** The fields of a lead in the order of the columns. *)
Definition fields (lead : Lead) : list (list ascii) :=
  [name lead; org_type lead; phone lead; email lead; address lead;
   city lead; state lead].

End Exporters.
(** * Properties *)

Import Validators.

(** ** Characters and strings *)

Lemma decimal_is_digit c : Chr.is_decimal c = true -> Chr.is_digit c = true.
Proof. unfold Chr.is_digit. intros ->. reflexivity. Qed.

Lemma forallb_filter_self {A} (p : A -> bool) l :
  forallb p (List.filter p l) = true.
Proof.
  induction l as [|a l IH]; simpl; [reflexivity|].
  destruct (p a) eqn:E; simpl; [rewrite E|]; exact IH.
Qed.

Lemma forallb_drop {A} (p : A -> bool) n l :
  forallb p l = true -> forallb p (drop n l) = true.
Proof.
  revert n. induction l as [|a l IH]; intros [|n] H; simpl in *; auto.
  apply andb_true_iff in H as [_ H]. auto.
Qed.

Lemma forallb_decimal_digit l :
  forallb Chr.is_decimal l = true -> forallb Chr.is_digit l = true.
Proof.
  induction l as [|a l IH]; simpl; [reflexivity|].
  intros [Ha Hl]%andb_true_iff. rewrite (decimal_is_digit _ Ha). auto.
Qed.

(** ** Removing [\D] keeps exactly the decimal digits *)

Lemma sub_non_digit_from prev s :
  Re.sub_from NON_DIGIT [] prev 0 s = List.filter Chr.is_decimal s.
Proof.
  revert prev. induction s as [|c s IH]; intros prev; [reflexivity|].
  cbn [Re.sub_from List.filter].
  unfold Re.match_here, NON_DIGIT. cbn [Re.bt].
  destruct (Chr.is_decimal c); cbn [negb].
  - f_equal. apply IH.
  - replace (length (c :: s) - length s) with 1 by (simpl; lia).
    simpl. apply IH.
Qed.

Lemma sub_non_digit s :
  Re.sub NON_DIGIT [] s = List.filter Chr.is_decimal s.
Proof. apply sub_non_digit_from. Qed.

Lemma is_valid_us_phone_formatted d :
  length d = 10 -> forallb Chr.is_decimal d = true ->
  is_valid_us_phone (str "+1" ++ d) = true.
Proof.
  intros Hlen Hd. unfold is_valid_us_phone.
  change (str "+1" ++ d) with ("+"%char :: "1"%char :: d).
  cbn [Py.truthy negb length]. change (drop 2 (_ :: _ :: d)) with d.
  rewrite Hlen.
  assert (Py.isdigit d = true) as ->.
  { unfold Py.isdigit. rewrite (forallb_decimal_digit _ Hd).
    destruct d; [discriminate|reflexivity]. }
  reflexivity.
Qed.

Lemma normalize_us_phone_eq value :
  normalize_us_phone value =
  let rest := subscriber_digits (List.filter Chr.is_decimal value) in
  if length rest =? 10 then Some (str "+1" ++ rest) else None.
Proof.
  unfold normalize_us_phone. rewrite sub_non_digit.
  fold (subscriber_digits (List.filter Chr.is_decimal value)).
  destruct value as [|c v].
  - reflexivity.
  - cbn [Py.truthy negb]. cbv zeta.
    set (rest := subscriber_digits _).
    destruct (length rest =? 10) eqn:E; cbn [negb]; [|reflexivity].
    apply Nat.eqb_eq in E.
    rewrite is_valid_us_phone_formatted; [reflexivity|exact E|].
    unfold rest, subscriber_digits.
    destruct (_ && _); [apply forallb_drop|]; apply forallb_filter_self.
Qed.

(** C2.  [normalize_us_phone] keeps the decimal digits of its input, drops a
    leading 1 when eleven digits remain, and returns "+1" followed by the
    remaining digits exactly when ten remain, [None] otherwise (so also for
    eleven digits that do not start with 1); two inputs with the same ten
    subscriber digits, with or without a leading 1 and whatever the
    separators, get the same value. *)
Theorem normalize_us_phone_spec :
  forall value : list ascii,
    let digits := List.filter Chr.is_decimal value in
    let rest := subscriber_digits digits in
    (length rest = 10 -> normalize_us_phone value = Some (str "+1" ++ rest))
    /\ (length rest <> 10 -> normalize_us_phone value = None)
    /\ (length digits = 11 -> head digits <> Some "1"%char ->
        normalize_us_phone value = None)
    /\ (forall value' ten : list ascii,
          length ten = 10 ->
          digits = ten \/ digits = "1"%char :: ten ->
          List.filter Chr.is_decimal value' = ten
            \/ List.filter Chr.is_decimal value' = "1"%char :: ten ->
          normalize_us_phone value = Some (str "+1" ++ ten)
          /\ normalize_us_phone value' = normalize_us_phone value).
Proof.
  intros value digits rest.
  assert (Hten : forall v ten, length ten = 10 ->
            List.filter Chr.is_decimal v = ten
              \/ List.filter Chr.is_decimal v = "1"%char :: ten ->
            normalize_us_phone v = Some (str "+1" ++ ten)).
  { intros v ten Hlen Hv. rewrite normalize_us_phone_eq. cbv zeta.
    assert (subscriber_digits (List.filter Chr.is_decimal v) = ten) as ->.
    { unfold subscriber_digits. destruct Hv as [-> | ->].
      - rewrite Hlen. reflexivity.
      - cbn [length]. rewrite Hlen. reflexivity. }
    rewrite Hlen. reflexivity. }
  repeat split.
  - intros H. rewrite normalize_us_phone_eq. cbv zeta.
    fold digits. fold rest. rewrite H. reflexivity.
  - intros H. rewrite normalize_us_phone_eq. cbv zeta.
    fold digits. fold rest. apply Nat.eqb_neq in H. rewrite H. reflexivity.
  - intros H11 Hhd. rewrite normalize_us_phone_eq. cbv zeta.
    fold digits. unfold subscriber_digits. rewrite H11.
    destruct digits as [|d ds]; [discriminate|].
    cbn [Nat.eqb andb Py.startswith str list_ascii_of_string].
    unfold Chr.eqb. destruct (Ascii.eqb_spec "1"%char d) as [<-|_].
    + exfalso. apply Hhd. reflexivity.
    + cbn [andb]. rewrite H11. reflexivity.
  - apply Hten; assumption.
  - rewrite (Hten value ten), (Hten value' ten); auto.
Qed.

Lemma normalize_us_phone_spec_witness :
  normalize_us_phone (str "+1 (555) 123-4567") = Some (str "+15551234567")
  /\ normalize_us_phone (str "555.123.4567")
     = normalize_us_phone (str "+1 (555) 123-4567").
Proof.
  pose proof (normalize_us_phone_spec (str "+1 (555) 123-4567")) as H.
  cbv zeta in H. destruct H as (_ & _ & _ & H).
  apply (H (str "555.123.4567") (str "5551234567")).
  - reflexivity.
  - right. reflexivity.
  - left. reflexivity.
Defined.

(** ** The matcher and the meaning of the patterns *)

Import Re ReSem.

Lemma last_chr_nil prev : last_chr prev [] = prev.
Proof. reflexivity. Qed.

Lemma last_chr_cons prev c m : last_chr prev (c :: m) = last_chr (Some c) m.
Proof.
  unfold last_chr. destruct m as [|d m]; [reflexivity|].
  change (last (c :: d :: m)) with (last (d :: m)).
  destruct (last (d :: m)) eqn:E; [reflexivity|].
  apply last_None in E. discriminate.
Qed.

Lemma last_chr_app prev m1 m2 :
  last_chr prev (m1 ++ m2) = last_chr (last_chr prev m1) m2.
Proof.
  revert prev. induction m1 as [|c m1 IH]; intros prev; [reflexivity|].
  cbn [app]. rewrite !last_chr_cons. apply IH.
Qed.

Section MatcherProofs.
Context {R : Type}.

Lemma rep_sound p (s : list ascii) :
  forall lo hi prev (k : cont (R:=R)) x,
    rep p lo hi prev s k = Some x ->
    exists m rest,
      s = m ++ rest /\ matches (Rep p lo hi) prev m rest
      /\ k (last_chr prev m) rest = Some x.
Proof.
  induction s as [|c s IH]; intros lo hi prev k x Hrep;
    cbn [rep] in Hrep.
  - destruct (lo =? 0) eqn:Hlo; [|discriminate].
    apply Nat.eqb_eq in Hlo. exists [], []. repeat split; [|exact Hrep].
    constructor; [constructor|simpl; lia|destruct hi; simpl; lia].
  - assert (Hstop : (if lo =? 0 then k prev (c :: s) else None) = Some x ->
              exists m rest, c :: s = m ++ rest
                /\ matches (Rep p lo hi) prev m rest
                /\ k (last_chr prev m) rest = Some x).
    { destruct (lo =? 0) eqn:Hlo; [|discriminate].
      apply Nat.eqb_eq in Hlo. intros Hk.
      exists [], (c :: s). repeat split; [|exact Hk].
      constructor; [constructor|simpl; lia|destruct hi; simpl; lia]. }
    destruct (p c && may_repeat hi) eqn:Hpc; [|auto].
    apply andb_true_iff in Hpc as [Hp Hmay].
    destruct (rep p (pred lo) (pred <$> hi) (Some c) s k) as [y|] eqn:Hmore;
      [|auto].
    injection Hrep as ->.
    apply IH in Hmore as (m & rest & -> & Hm & Hk).
    exists (c :: m), rest. rewrite last_chr_cons.
    repeat split; [|exact Hk].
    inversion Hm; subst.
    constructor; [constructor; assumption|simpl; lia|].
    destruct hi as [h|]; [|exact I].
    unfold may_repeat in Hmay. apply Nat.ltb_lt in Hmay.
    match goal with H : within _ _ |- _ => cbn in H end.
    cbn. lia.
Qed.

Lemma bt_sound r :
  forall prev s (k : cont (R:=R)) x,
    bt r prev s k = Some x ->
    exists m rest,
      s = m ++ rest /\ matches r prev m rest
      /\ k (last_chr prev m) rest = Some x.
Proof.
  induction r as [|p|r1 IH1 r2 IH2|r1 IH1 r2 IH2|p lo hi| | |];
    intros prev s k x Hbt; cbn [bt] in Hbt.
  - exists [], s. repeat split; [constructor|exact Hbt].
  - destruct s as [|c s]; [discriminate|].
    destruct (p c) eqn:Hp; [|discriminate].
    exists [c], s. repeat split; [constructor; exact Hp|exact Hbt].
  - apply IH1 in Hbt as (m1 & s1 & -> & Hm1 & Hbt).
    apply IH2 in Hbt as (m2 & rest & -> & Hm2 & Hk).
    exists (m1 ++ m2), rest. rewrite last_chr_app, <- app_assoc.
    repeat split; [|exact Hk]. constructor; assumption.
  - destruct (bt r1 prev s k) as [y|] eqn:H1.
    + injection Hbt as ->. apply IH1 in H1 as (m & rest & -> & Hm & Hk).
      exists m, rest. repeat split; [apply m_alt_l, Hm|exact Hk].
    + apply IH2 in Hbt as (m & rest & -> & Hm & Hk).
      exists m, rest. repeat split; [apply m_alt_r, Hm|exact Hk].
  - apply rep_sound. exact Hbt.
  - destruct (at_boundary prev s) eqn:Hb; [|discriminate].
    exists [], s. repeat split; [constructor; exact Hb|exact Hbt].
  - destruct prev; [discriminate|].
    exists [], s. repeat split; [constructor|exact Hbt].
  - destruct (at_eol s) eqn:He; [|discriminate].
    exists [], s. repeat split; [constructor; exact He|exact Hbt].
Qed.

Lemma rep_complete p (m : list ascii) :
  forall lo hi prev rest (k : cont (R:=R)),
    Forall (fun c => p c = true) m -> lo <= length m ->
    within hi (length m) ->
    is_Some (k (last_chr prev m) rest) ->
    is_Some (rep p lo hi prev (m ++ rest) k).
Proof.
  induction m as [|c m IH]; intros lo hi prev rest k Hall Hlo Hhi Hk.
  - assert ((lo =? 0) = true) as Hz by (apply Nat.eqb_eq; simpl in Hlo; lia).
    cbn [app]. destruct rest as [|d rest]; cbn [rep]; rewrite Hz.
    + exact Hk.
    + destruct (p d && may_repeat hi); [|exact Hk].
      destruct (rep _ _ _ _ _ _); [eauto|exact Hk].
  - apply Forall_cons in Hall as [Hc Hall].
    cbn [app rep]. rewrite Hc.
    assert (may_repeat hi = true) as ->.
    { destruct hi as [h|]; [|reflexivity]. unfold may_repeat.
      apply Nat.ltb_lt. cbn in Hhi. lia. }
    cbn [andb].
    assert (is_Some (rep p (pred lo) (pred <$> hi) (Some c) (m ++ rest) k))
      as [y ->]; [|eauto].
    apply IH; [exact Hall|simpl in Hlo; lia| |].
    + destruct hi as [h|]; [|exact I]. cbn in *. lia.
    + rewrite last_chr_cons in Hk. exact Hk.
Qed.

Lemma bt_complete r prev m rest :
  matches r prev m rest ->
  forall k : cont (R:=R),
    is_Some (k (last_chr prev m) rest) ->
    is_Some (bt r prev (m ++ rest) k).
Proof.
  induction 1 as [prev rest|p c prev rest Hp
                 |r1 r2 prev m1 m2 rest H1 IH1 H2 IH2
                 |r1 r2 prev m rest H1 IH1|r1 r2 prev m rest H2 IH2
                 |p lo hi prev m rest Hall Hlo Hhi
                 |prev rest Hb|rest|prev rest He];
    intros k Hk; cbn [bt app].
  - exact Hk.
  - rewrite Hp. exact Hk.
  - rewrite <- app_assoc. apply IH1. apply IH2.
    rewrite last_chr_app in Hk. exact Hk.
  - destruct (IH1 k Hk) as [y ->]. eauto.
  - destruct (bt r1 prev (m ++ rest) k); [eauto|]. apply IH2, Hk.
  - apply rep_complete; assumption.
  - rewrite Hb. exact Hk.
  - exact Hk.
  - rewrite He. exact Hk.
Qed.
End MatcherProofs.

(** *** [match_here], [findall] *)

Lemma matched_app m rest : matched (m ++ rest) rest = m.
Proof.
  unfold matched. rewrite length_app.
  replace (length m + length rest - length rest) with (length m) by lia.
  apply take_app_length.
Qed.

Lemma match_here_sound r prev s rest :
  match_here r prev s = Some rest ->
  exists m, s = m ++ rest /\ matches r prev m rest.
Proof.
  unfold match_here. intros H.
  apply bt_sound in H as (m & rest' & -> & Hm & [= <-]). eauto.
Qed.

Lemma match_here_none r prev m rest :
  match_here r prev (m ++ rest) = None -> ~ matches r prev m rest.
Proof.
  unfold match_here. intros Hnone Hm.
  destruct (bt_complete r prev m rest Hm (fun _ rest => Some rest))
    as [y Hy]; [eauto|congruence].
Qed.

Lemma findall_from_skip r s :
  forall prev skip,
    skip <= length s ->
    findall_from r prev skip s
    = findall_from r (last_chr prev (take skip s)) 0 (drop skip s).
Proof.
  induction s as [|c s IH]; intros prev [|n] Hlen; try reflexivity.
  - simpl in Hlen. lia.
  - cbn [findall_from take drop]. rewrite last_chr_cons.
    apply IH. simpl in Hlen. lia.
Qed.

Lemma no_match_in_nil r prev after : no_match_in r prev [] after.
Proof.
  intros g1 g2 m rest Hg Hne. symmetry in Hg.
  apply app_eq_nil in Hg as [_ ->]. contradiction.
Qed.

Lemma no_match_in_cons r prev c gap after :
  (forall m rest, c :: gap ++ after = m ++ rest -> ~ matches r prev m rest) ->
  no_match_in r (Some c) gap after ->
  no_match_in r prev (c :: gap) after.
Proof.
  intros Hhead Hgap g1 g2 m rest Hg Hne Heq.
  destruct g1 as [|d g1]; cbn [app] in Hg.
  - subst g2. apply Hhead. exact Heq.
  - injection Hg as <- ->. rewrite last_chr_cons.
    eapply Hgap; [reflexivity|exact Hne|exact Heq].
Qed.

Lemma scanned_cons_head r prev c s ms :
  (forall m rest, c :: s = m ++ rest -> ~ matches r prev m rest) ->
  scanned r (Some c) s ms ->
  scanned r prev (c :: s) ms.
Proof.
  intros Hhead Hs. inversion Hs as [p s0 Hno Hend|p gap m rest ms' Hm Hno Hmatch Hrest];
    subst.
  - apply scanned_nil.
    + apply no_match_in_cons; [|exact Hno].
      intros m rest. rewrite app_nil_r. apply Hhead.
    + rewrite last_chr_cons. exact Hend.
  - change (c :: gap ++ m ++ rest) with ((c :: gap) ++ m ++ rest).
    apply scanned_cons; rewrite ?last_chr_cons; try assumption.
    apply no_match_in_cons; [|exact Hno]. exact Hhead.
Qed.

Lemma findall_scanned r :
  never_empty r ->
  forall n s prev,
    length s <= n -> scanned r prev s (findall_from r prev 0 s).
Proof.
  intros Hne. induction n as [|n IH]; intros s prev Hlen.
  - destruct s; [|simpl in Hlen; lia]. cbn [findall_from].
    destruct (match_here r prev []) as [rest|] eqn:E.
    + apply match_here_sound in E as (m & Heq & Hm). symmetry in Heq.
      apply app_eq_nil in Heq as [-> ->]. exfalso. eapply Hne, Hm.
    + apply scanned_nil; [apply no_match_in_nil|]. apply Hne.
  - destruct s as [|c s].
    { apply (IH [] prev). simpl. lia. }
    cbn [findall_from].
    destruct (match_here r prev (c :: s)) as [rest|] eqn:E.
    + apply match_here_sound in E as (m & Heq & Hm).
      rewrite Heq, matched_app.
      destruct m as [|c' m]; [exfalso; eapply Hne, Hm|].
      cbn [app] in Heq. injection Heq as <- ->.
      rewrite length_app. cbn [length].
      replace (pred (S (length m) + length rest - length rest))
        with (length m) by lia.
      rewrite findall_from_skip by (rewrite length_app; lia).
      rewrite take_app_length, drop_app_length.
      apply (scanned_cons r prev [] (c :: m) rest);
        [discriminate|apply no_match_in_nil|exact Hm|].
      cbn [last_chr last]. rewrite last_chr_cons.
      apply IH. simpl in Hlen. rewrite length_app in Hlen. lia.
    + apply scanned_cons_head.
      * intros m rest Heq. rewrite Heq in E. eapply match_here_none, E.
      * apply IH. simpl in Hlen. lia.
Qed.

Lemma scanned_occurrences r prev s ms :
  scanned r prev s ms ->
  forall m, m ∈ ms ->
    exists before after,
      s = before ++ m ++ after
      /\ matches r (last_chr prev before) m after.
Proof.
  induction 1 as [prev s Hno Hend|prev gap m rest ms Hm Hno Hmatch Hrest IH];
    intros x Hx.
  - apply elem_of_nil in Hx. contradiction.
  - apply elem_of_cons in Hx as [->|Hx].
    + exists gap, rest. auto.
    + apply IH in Hx as (before & after & -> & Hx).
      exists (gap ++ m ++ before), after. split.
      * rewrite <- !app_assoc. reflexivity.
      * rewrite !last_chr_app. exact Hx.
Qed.

(** *** The email pattern *)

Lemma matches_seq_inv r1 r2 prev m rest :
  matches (Seq r1 r2) prev m rest ->
  exists m1 m2,
    m = m1 ++ m2 /\ matches r1 prev m1 (m2 ++ rest)
    /\ matches r2 (last_chr prev m1) m2 rest.
Proof. inversion 1; subst. eauto. Qed.

Lemma matches_cls_inv p prev m rest :
  matches (Cls p) prev m rest -> exists c, m = [c] /\ p c = true.
Proof. inversion 1; subst. eauto. Qed.

Lemma matches_rep_inv p lo hi prev m rest :
  matches (Rep p lo hi) prev m rest ->
  Forall (fun c => p c = true) m /\ lo <= length m /\ within hi (length m).
Proof. inversion 1; subst. auto. Qed.

Lemma matches_wordb_inv prev m rest :
  matches WordB prev m rest -> m = [] /\ at_boundary prev rest = true.
Proof. inversion 1; subst. auto. Qed.

Lemma last_chr_nonempty prev m : m <> [] -> last_chr prev m = last m.
Proof.
  intros Hm. unfold last_chr. destruct (last m) eqn:E; [reflexivity|].
  apply last_None in E. contradiction.
Qed.

Lemma last_chr_none m : last_chr None m = last m.
Proof. unfold last_chr. destruct (last m); reflexivity. Qed.

Lemma at_boundary_head prev m rest :
  m <> [] -> at_boundary prev (m ++ rest) = at_boundary prev m.
Proof. destruct m; [contradiction|reflexivity]. Qed.

Lemma email_match_inv prev m rest :
  matches EMAIL_REGEX prev m rest ->
  email_shape m
  /\ at_boundary prev m = true /\ at_boundary (last m) rest = true.
Proof.
  unfold EMAIL_REGEX, plus. intros H.
  apply matches_seq_inv in H as (m0 & m' & -> & Hb & H).
  apply matches_wordb_inv in Hb as [-> Hb]. cbn [app] in *.
  rewrite last_chr_nil in H.
  apply matches_seq_inv in H as (loc & m1 & -> & Hloc & H).
  apply matches_rep_inv in Hloc as (Hloc & Hlen & _).
  apply matches_seq_inv in H as (at_ & m2 & -> & Hat & H).
  apply matches_cls_inv in Hat as (c & -> & Hc).
  apply Ascii.eqb_eq in Hc. subst c.
  apply matches_seq_inv in H as (dom & m3 & -> & Hdom & H).
  apply matches_rep_inv in Hdom as (Hdom & Hdlen & _).
  apply matches_seq_inv in H as (dot & m4 & -> & Hdot & H).
  apply matches_cls_inv in Hdot as (c & -> & Hc).
  apply Ascii.eqb_eq in Hc. subst c.
  apply matches_seq_inv in H as (tld & m5 & -> & Htld & He).
  apply matches_rep_inv in Htld as (Htld & Htlen & _).
  apply matches_wordb_inv in He as [-> He].
  rewrite app_nil_r in *.
  assert (Hne : loc <> []) by (destruct loc; [simpl in Hlen; lia|discriminate]).
  split; [|split].
  - exists loc, dom, tld. repeat split; try assumption.
    destruct dom; [simpl in Hdlen; lia|discriminate].
  - rewrite at_boundary_head in Hb; [exact Hb|].
    destruct loc; [contradiction|discriminate].
  - assert (Htne : tld <> []) by (destruct tld; [simpl in Htlen; lia|discriminate]).
    rewrite (last_chr_nonempty _ tld Htne) in He.
    rewrite !app_assoc, last_app.
    destruct (last tld) eqn:E; [exact He|].
    apply last_None in E. contradiction.
Qed.

Lemma email_never_empty : never_empty EMAIL_REGEX.
Proof.
  intros prev rest H. apply email_match_inv in H as [(l & d & t & H & _) _].
  destruct l; discriminate.
Qed.

Lemma first_valid_cases matches :
  match first_valid matches with
  | Some e =>
      exists skipped m later,
        matches = skipped ++ m :: later
        /\ Forall (fun x => image_suffix (Py.lower x) = true) skipped
        /\ image_suffix (Py.lower m) = false
        /\ e = Py.lower m
  | None => Forall (fun x => image_suffix (Py.lower x) = true) matches
  end.
Proof.
  induction matches as [|m ms IH]; cbn [first_valid]; [constructor|].
  destruct (image_suffix (Py.lower m)) eqn:Him.
  - destruct (first_valid ms) as [e|].
    + destruct IH as (skipped & m' & later & -> & Hsk & Hm' & ->).
      exists (m :: skipped), m', later. repeat split; auto.
    + constructor; assumption.
  - exists [], m, ms. repeat split; auto.
Qed.

Lemma chr_letter_word c : Chr.is_letter c = true -> Chr.is_word c = true.
Proof. destruct c as [[] [] [] [] [] [] [] []]; vm_compute; congruence. Qed.

(** *** The scan of [findall] *)

Lemma findall_scan r :
  never_empty r -> picks_longest r ->
  forall n s prev,
    length s <= n -> scan r prev s (findall_from r prev 0 s).
Proof.
  intros Hne Hlong. induction n as [|n IH]; intros s prev Hlen.
  - destruct s; [|simpl in Hlen; lia]. cbn [findall_from].
    destruct (match_here r prev []) as [rest|] eqn:E.
    + apply match_here_sound in E as (m & Heq & Hm). symmetry in Heq.
      apply app_eq_nil in Heq as [-> ->]. exfalso. eapply Hne, Hm.
    + apply scan_end; [apply no_match_in_nil|]. apply Hne.
  - destruct s as [|c s].
    { apply (IH [] prev). simpl. lia. }
    cbn [findall_from].
    destruct (match_here r prev (c :: s)) as [rest|] eqn:E.
    + pose proof E as E'.
      apply match_here_sound in E as (m & Heq & Hm).
      rewrite Heq in E'. apply Hlong in E'.
      rewrite Heq, matched_app.
      destruct m as [|c' m]; [exfalso; eapply Hne, Hm|].
      cbn [app] in Heq. injection Heq as <- ->.
      rewrite length_app. cbn [length].
      replace (pred (S (length m) + length rest - length rest))
        with (length m) by lia.
      rewrite findall_from_skip by (rewrite length_app; lia).
      rewrite take_app_length, drop_app_length.
      apply (scan_match r prev [] (c :: m) rest);
        [discriminate|apply no_match_in_nil|exact Hm|exact E'|].
      cbn [last_chr last]. rewrite last_chr_cons.
      apply IH. simpl in Hlen. rewrite length_app in Hlen. lia.
    + assert (Hhead : forall m rest, c :: s = m ++ rest -> ~ matches r prev m rest).
      { intros m rest Heq. rewrite Heq in E. eapply match_here_none, E. }
      specialize (IH s (Some c) ltac:(simpl in Hlen; lia)).
      inversion IH as [p s0 Hno Hend|p gap m rest ms' Hm Hno Hmatch Hl Hrest]; subst.
      * apply scan_end.
        -- apply no_match_in_cons; [|exact Hno].
           intros m rest. rewrite app_nil_r. apply Hhead.
        -- rewrite last_chr_cons. exact Hend.
      * change (c :: gap ++ m ++ rest) with ((c :: gap) ++ m ++ rest).
        apply scan_match; rewrite ?last_chr_cons; try assumption.
        apply no_match_in_cons; [|exact Hno]. exact Hhead.
Qed.

Lemma scan_unique r prev s ms :
  scan r prev s ms -> forall ms', scan r prev s ms' -> ms = ms'.
Proof.
  induction 1 as [prev s Hno Hend|prev gap m rest ms Hm Hno Hmatch Hl Hrest IH];
    intros ms' H'.
  - inversion H' as [|p gap m rest ms0 Hm Hno' Hmatch Hl Hrest]; subst;
      [reflexivity|].
    exfalso. eapply (Hno gap (m ++ rest) m rest); eauto.
    + destruct m; [contradiction|discriminate].
    + rewrite app_nil_r. reflexivity.
  - remember (gap ++ m ++ rest) as s eqn:Hs.
    destruct H' as [p s Hno' Hend|p gap' m' rest' ms0 Hm' Hno' Hmatch' Hl' Hrest'].
    + exfalso. subst s. eapply (Hno' gap (m ++ rest) m rest); eauto.
      * destruct m; [contradiction|discriminate].
      * rewrite app_nil_r. reflexivity.
    + assert (Hgap : gap' = gap).
      { destruct (app_eq_app _ _ _ _ Hs) as [l [[Hg Hl2]|[Hg Hl2]]].
        - destruct l as [|a l]; [rewrite Hg; apply app_nil_r|]. exfalso.
          apply (Hno' gap (a :: l) m rest);
            [exact Hg|discriminate|symmetry; exact Hl2|exact Hmatch].
        - destruct l as [|a l]; [rewrite Hg; symmetry; apply app_nil_r|].
          exfalso.
          apply (Hno gap' (a :: l) m' rest');
            [exact Hg|discriminate|symmetry; exact Hl2|exact Hmatch']. }
      subst gap'. apply app_inv_head in Hs.
      assert (Hlen : length m' = length m).
      { apply Nat.le_antisymm.
        - apply (Hl m' rest'); [symmetry; exact Hs|exact Hmatch'].
        - apply (Hl' m rest); [exact Hs|exact Hmatch]. }
      apply app_inj_1 in Hs as [-> ->]; [|exact Hlen].
      f_equal. apply IH. exact Hrest'.
Qed.

(** *** The longest match of the email pattern *)

Section Greedy.
Context {R : Type}.

Lemma rep_none p (m : list ascii) lo prev rest (k : cont (R:=R)) :
  rep p lo None prev (m ++ rest) k = None ->
  Forall (fun c => p c = true) m -> lo <= length m ->
  k (last_chr prev m) rest = None.
Proof.
  intros Hnone Hall Hlo.
  destruct (k (last_chr prev m) rest) as [x|] eqn:Hk; [|reflexivity].
  destruct (rep_complete p m lo None prev rest k Hall Hlo I) as [y Hy];
    [rewrite Hk; eauto|congruence].
Qed.

(** An unbounded repetition hands the longest run to the rest of the
    pattern that the rest of the pattern accepts. *)
Lemma rep_greedy p (s : list ascii) :
  forall lo prev (k : cont (R:=R)) x,
    rep p lo None prev s k = Some x ->
    exists m rest,
      s = m ++ rest /\ Forall (fun c => p c = true) m /\ lo <= length m
      /\ k (last_chr prev m) rest = Some x
      /\ forall m' rest',
           s = m' ++ rest' -> Forall (fun c => p c = true) m' ->
           length m < length m' -> k (last_chr prev m') rest' = None.
Proof.
  induction s as [|c s IH]; intros lo prev k x Hrep; cbn [rep] in Hrep.
  - destruct (lo =? 0) eqn:Hlo; [|discriminate].
    apply Nat.eqb_eq in Hlo. exists [], [].
    repeat split; [constructor|simpl; lia|exact Hrep|].
    intros m' rest' Heq _ Hlen. symmetry in Heq.
    apply app_eq_nil in Heq as [-> _]. simpl in Hlen. lia.
  - cbn [may_repeat andb fmap option_fmap option_map] in Hrep.
    rewrite andb_true_r in Hrep.
    destruct (p c) eqn:Hp.
    + destruct (rep p (pred lo) None (Some c) s k) as [y|] eqn:Hmore.
      * injection Hrep as ->.
        apply IH in Hmore as (m & rest & -> & Hall & Hlo & Hk & Hmax).
        exists (c :: m), rest. rewrite last_chr_cons.
        repeat split; [constructor; assumption|simpl; lia|exact Hk|].
        intros m' rest' Heq Hall' Hlen.
        destruct m' as [|c' m']; [simpl in Hlen; lia|].
        cbn [app] in Heq. injection Heq as <- Heq.
        apply Forall_cons in Hall' as [_ Hall'].
        rewrite last_chr_cons. apply Hmax; [exact Heq|exact Hall'|].
        simpl in Hlen. lia.
      * destruct (lo =? 0) eqn:Hlo; [|discriminate].
        apply Nat.eqb_eq in Hlo. subst lo. exists [], (c :: s).
        repeat split; [constructor|simpl; lia|exact Hrep|].
        intros m' rest' Heq Hall' Hlen.
        destruct m' as [|c' m']; [simpl in Hlen; lia|].
        cbn [app] in Heq. injection Heq as <- ->.
        apply Forall_cons in Hall' as [_ Hall'].
        rewrite last_chr_cons.
        apply (rep_none p m' 0); [exact Hmore|exact Hall'|lia].
    + destruct (lo =? 0) eqn:Hlo; [|discriminate].
      exists [], (c :: s).
      apply Nat.eqb_eq in Hlo.
      repeat split; [constructor|simpl; lia|exact Hrep|].
      intros m' rest' Heq Hall' Hlen.
      destruct m' as [|c' m']; [simpl in Hlen; lia|].
      cbn [app] in Heq. injection Heq as <- _.
      apply Forall_cons in Hall' as [Hc _]. congruence.
Qed.
End Greedy.

Lemma run_unique (P : ascii -> bool) c l1 :
  forall l2 r1 r2,
    Forall (fun a => P a = true) l1 -> Forall (fun a => P a = true) l2 ->
    P c = false ->
    l1 ++ c :: r1 = l2 ++ c :: r2 -> l1 = l2 /\ r1 = r2.
Proof.
  induction l1 as [|a l1 IH]; intros [|b l2] r1 r2 H1 H2 Hc Heq;
    cbn [app] in Heq.
  - injection Heq as ->. auto.
  - injection Heq as <- _. apply Forall_cons in H2 as [H2 _]. congruence.
  - injection Heq as -> _. apply Forall_cons in H1 as [H1 _]. congruence.
  - injection Heq as <- Heq.
    apply Forall_cons in H1 as [_ H1]. apply Forall_cons in H2 as [_ H2].
    destruct (IH _ _ _ H1 H2 Hc Heq) as [-> ->]. auto.
Qed.

Lemma email_tld_inv prev m rest :
  matches EMAIL_TLD prev m rest ->
  exists tld,
    m = "."%char :: tld /\ Forall (fun c => Chr.is_letter c = true) tld
    /\ 2 <= length tld /\ at_boundary (last tld) rest = true.
Proof.
  unfold EMAIL_TLD. intros H.
  apply matches_seq_inv in H as (dot & m1 & -> & Hdot & H).
  apply matches_cls_inv in Hdot as (c & -> & Hc).
  apply Ascii.eqb_eq in Hc. subst c.
  apply matches_seq_inv in H as (tld & m2 & -> & Htld & He).
  apply matches_rep_inv in Htld as (Htld & Htlen & _).
  apply matches_wordb_inv in He as [-> He].
  rewrite app_nil_r.
  exists tld. repeat split; try assumption.
  rewrite last_chr_nonempty in He; [exact He|].
  destruct tld; [simpl in Htlen; lia|discriminate].
Qed.

Lemma email_tld_intro prev tld rest :
  Forall (fun c => Chr.is_letter c = true) tld -> 2 <= length tld ->
  at_boundary (last tld) rest = true ->
  matches EMAIL_TLD prev ("."%char :: tld) rest.
Proof.
  intros Htld Hlen Hb. unfold EMAIL_TLD.
  apply (m_seq _ _ prev ["."%char] tld).
  { constructor. reflexivity. }
  rewrite <- (app_nil_r tld).
  apply (m_seq _ _ _ tld []).
  { constructor; [exact Htld|exact Hlen|exact I]. }
  constructor. rewrite last_chr_nonempty; [exact Hb|].
  destruct tld; [simpl in Hlen; lia|discriminate].
Qed.

Lemma letter_run_end tld rest a l :
  Forall (fun c => Chr.is_letter c = true) tld -> 2 <= length tld ->
  at_boundary (last tld) rest = true ->
  rest = a :: l -> Chr.is_letter a = false.
Proof.
  intros Htld Hlen Hb ->.
  destruct (Chr.is_letter a) eqn:Ha; [|reflexivity]. exfalso.
  destruct (last tld) as [c|] eqn:E.
  - assert (Hc : Chr.is_letter c = true).
    { apply last_Some in E as [t ->].
      apply Forall_app in Htld as [_ Hc]. apply Forall_cons in Hc as [Hc _].
      exact Hc. }
    unfold at_boundary in Hb. cbn [word_opt head] in Hb.
    rewrite (chr_letter_word _ Hc), (chr_letter_word _ Ha) in Hb.
    discriminate.
  - apply last_None in E. subst tld. simpl in Hlen. lia.
Qed.

(** The domain of a match is the longest the end of the pattern allows, so
    no match from the same "@" ends further on. *)
Lemma email_domain_longest prev s rest :
  rep domain_chr 1 None prev s
    (fun prev' s' => bt EMAIL_TLD prev' s' (fun _ r => Some r)) = Some rest ->
  forall dom' tld' rest',
    s = dom' ++ "."%char :: tld' ++ rest' ->
    Forall (fun c => domain_chr c = true) dom' ->
    Forall (fun c => Chr.is_letter c = true) tld' -> 2 <= length tld' ->
    at_boundary (last tld') rest' = true ->
    length rest <= length rest'.
Proof.
  intros Hrep dom' tld' rest' Hs Hdom' Htld' Hlen' Hb'.
  apply rep_greedy in Hrep as (dom & rest2 & Hs2 & Hdom & _ & Hk & Hmax).
  apply bt_sound in Hk as (m2 & rest0 & -> & Hm2 & [= ->]).
  apply email_tld_inv in Hm2 as (tld & -> & Htld & Hlen & Hb).
  assert (Hsame : tld' ++ rest' = tld ++ rest -> length rest <= length rest').
  { intros Heq. destruct (app_eq_app _ _ _ _ Heq) as [l [[Ht Hr]|[Ht Hr]]].
    - destruct l as [|a l]; [subst rest; simpl; lia|].
      pose proof (letter_run_end _ _ a (l ++ rest') Htld Hlen Hb Hr) as Ha.
      rewrite Ht in Htld'. apply Forall_app in Htld' as [_ Htld'].
      apply Forall_cons in Htld' as [Ha' _]. congruence.
    - rewrite Hr, length_app. lia. }
  rewrite Hs in Hs2.
  destruct (app_eq_app _ _ _ _ Hs2) as [l [[Hd Hr]|[Hd Hr]]].
  - (* the other domain goes further *)
    destruct l as [|a l].
    + rewrite app_nil_r in Hd. cbn [app] in Hr. injection Hr as Hr.
      apply Hsame. symmetry. exact Hr.
    + exfalso.
      assert (Hnone : bt EMAIL_TLD (last_chr prev dom')
                        ("."%char :: tld' ++ rest') (fun _ r => Some r) = None).
      { apply Hmax; [exact Hs|exact Hdom'|].
        rewrite Hd, length_app. simpl. lia. }
      destruct (bt_complete EMAIL_TLD (last_chr prev dom') ("."%char :: tld')
                  rest' (email_tld_intro _ _ _ Htld' Hlen' Hb')
                  (fun _ r => Some r)) as [y Hy]; [eauto|].
      cbn [app] in Hy. congruence.
  - (* the other domain stops earlier, at a "." of this one *)
    destruct l as [|a l].
    + cbn [app] in Hr. injection Hr as Hr. apply Hsame. exact Hr.
    + cbn [app] in Hr. injection Hr as <- Hr.
      destruct (app_eq_app _ _ _ _ Hr) as [l2 [[Ht Hr2]|[Ht Hr2]]].
      * destruct l2 as [|b l2].
        -- cbn [app] in Hr2. rewrite <- Hr2. cbn [length].
           rewrite length_app. lia.
        -- cbn [app] in Hr2. injection Hr2 as <- _.
           rewrite Ht in Htld'. apply Forall_app in Htld' as [_ Htld'].
           apply Forall_cons in Htld' as [Hdot _]. discriminate Hdot.
      * rewrite Hr2, length_app. cbn [length]. rewrite length_app. lia.
Qed.

Lemma email_picks_longest : picks_longest EMAIL_REGEX.
Proof.
  intros prev m rest Hmh m' rest' Heq Hm'.
  assert (Hrest : length rest <= length rest').
  2: { apply (f_equal length) in Heq. rewrite !length_app in Heq. lia. }
  apply email_match_inv in Hm'
    as ((loc' & dom' & tld' & -> & _ & Hloc' & _ & Hdom' & Hlen' & Htld') & _ & Hb').
  unfold match_here, EMAIL_REGEX, plus in Hmh. cbn [bt] in Hmh.
  destruct (at_boundary prev (m ++ rest)); [|discriminate].
  apply rep_sound in Hmh as (loc & s1 & Hs & Hloc & Hk).
  apply matches_rep_inv in Hloc as (Hloc & _).
  destruct s1 as [|c s2]; [discriminate|].
  destruct (Chr.eqb "@" c) eqn:Hc; [|discriminate].
  apply Ascii.eqb_eq in Hc. subst c.
  rewrite Heq in Hs. rewrite <- !app_assoc in Hs. cbn [str list_ascii_of_string app] in Hs.
  apply (run_unique local_chr) in Hs as [<- Hs]; [|assumption..|reflexivity].
  eapply email_domain_longest; [exact Hk|symmetry; exact Hs|assumption..|].
  assert (Hne : tld' <> []) by (destruct tld'; [simpl in Hlen'; lia|discriminate]).
  rewrite !app_assoc, last_app in Hb'.
  destruct (last tld') eqn:E; [exact Hb'|].
  apply last_None in E. contradiction.
Qed.

(** *** Image names *)

Lemma startswith_prefix p s :
  Py.startswith p s = true <-> exists t, s = p ++ t.
Proof.
  revert s. induction p as [|a p IH]; intros s; cbn [Py.startswith].
  - split; [eauto|reflexivity].
  - destruct s as [|b s].
    + split; [discriminate|]. intros [t [=]].
    + unfold Chr.eqb. rewrite andb_true_iff, Ascii.eqb_eq, IH.
      split.
      * intros [-> [t ->]]. eauto.
      * intros [t [= -> ->]]. eauto.
Qed.


Lemma endswith_suffix p s :
  Py.endswith p s = true <-> exists stem, s = stem ++ p.
Proof.
  unfold Py.endswith. rewrite startswith_prefix. split.
  - intros [t Ht]. exists (rev t).
    rewrite <- (rev_involutive s), Ht, rev_app_distr, rev_involutive.
    reflexivity.
  - intros [stem ->]. exists (rev stem). apply rev_app_distr.
Qed.

Lemma image_suffix_name e : image_suffix e = true <-> image_name e.
Proof.
  unfold image_suffix, image_name, IMAGE_EXTENSIONS.
  rewrite !orb_true_iff, !endswith_suffix. split.
  - intros [[[[stem ->]|[stem ->]]|[stem ->]]|[stem ->]];
      eexists _, _; (split; [|reflexivity]); set_solver.
  - intros (stem & ext & Hext & ->).
    repeat (apply elem_of_cons in Hext as [->|Hext]); eauto 6.
    apply elem_of_nil in Hext. contradiction.
Qed.

Lemma image_suffix_not_name e : image_suffix e = false <-> ~ image_name e.
Proof.
  rewrite <- image_suffix_name. destruct (image_suffix e); split; congruence.
Qed.

(** What [findall] gives for the email pattern is the scan of the text. *)
Lemma email_scan text : scan EMAIL_REGEX None text (findall EMAIL_REGEX text).
Proof.
  apply (findall_scan _ email_never_empty email_picks_longest (length text)).
  reflexivity.
Qed.

Lemma scan_scanned r prev s ms : scan r prev s ms -> scanned r prev s ms.
Proof. induction 1; constructor; assumption. Qed.

(** C9, as the code has it.  [extract_first_valid_email] goes through the
    matches of the email pattern that a scan of the text from left to right
    finds: each match starts at the first position, from the end of the
    match before, where the pattern matches, and is the longest match
    there, so that no two overlap.  There is one such list of matches for
    a text.  Every match in it has a local part, "@", a domain, "." and at
    least two letters, and stands between word boundaries.  The value
    returned is the first match of the list whose lower-case form does
    not end in ".png", ".jpg", ".jpeg" or ".svg", in lower case; it is
    [None] when every match of the list ends so.  On "contact us at
    info@example.com or see logo.png@x.com" it is "info@example.com"; on
    "see Logo@2x.PNG or write to Bob@Example.COM" the first match is left
    out and the result is "bob@example.com"; on "see a@b.cc.png" the one
    match of the scan is "a@b.cc.png" and the result is [None]. *)
Theorem extract_first_valid_email_spec :
  forall text : list ascii,
    exists found : list (list ascii),
      scan EMAIL_REGEX None text found
      /\ (forall found', scan EMAIL_REGEX None text found' -> found' = found)
      /\ Forall (fun m => email_shape m /\ occurs_between_boundaries text m)
           found
      /\ match extract_first_valid_email text with
         | Some e =>
             exists skipped m later,
               found = skipped ++ m :: later
               /\ Forall (fun x => image_name (Py.lower x)) skipped
               /\ ~ image_name (Py.lower m)
               /\ e = Py.lower m
         | None => Forall (fun x => image_name (Py.lower x)) found
         end
      /\ extract_first_valid_email
           (str "contact us at info@example.com or see logo.png@x.com")
         = Some (str "info@example.com")
      /\ extract_first_valid_email
           (str "see Logo@2x.PNG or write to Bob@Example.COM")
         = Some (str "bob@example.com")
      /\ extract_first_valid_email (str "see a@b.cc.png") = None.
Proof.
  intros text. exists (findall EMAIL_REGEX text).
  pose proof (email_scan text) as Hscan.
  split; [exact Hscan|]. split; [|split; [|split]].
  - intros found' H'. apply (scan_unique _ _ _ _ H' _ Hscan).
  - apply Forall_forall. intros m Hm.
    destruct (scanned_occurrences _ _ _ _ (scan_scanned _ _ _ _ Hscan) m Hm)
      as (before & after & -> & Hmatch).
    apply email_match_inv in Hmatch as (Hshape & Hb & He).
    split; [exact Hshape|]. exists before, after.
    rewrite last_chr_none in Hb. auto.
  - unfold extract_first_valid_email.
    destruct text as [|c text]; [constructor|].
    cbn [Py.truthy negb].
    pose proof (first_valid_cases (findall EMAIL_REGEX (c :: text))) as Hc.
    destruct (first_valid _) as [e|].
    + destruct Hc as (skipped & m & later & Hf & Hsk & Hm & He).
      exists skipped, m, later. split; [exact Hf|]. split; [|split].
      * eapply Forall_impl; [exact Hsk|]. intros x. apply image_suffix_name.
      * apply image_suffix_not_name, Hm.
      * exact He.
    + eapply Forall_impl; [exact Hc|]. intros x. apply image_suffix_name.
  - repeat split; vm_compute; reflexivity.
Qed.

(** C9, as it is worded, fails on "see a@b.cc.png": the substring "a@b.cc"
    is a match of the email pattern between "see " and ".png" and does not
    end as an image name, but it lies inside the match "a@b.cc.png" of the
    scan, which is left out; nothing is returned. *)
Lemma extract_first_valid_email_not_first_kept_substring :
  extract_first_valid_email (str "see a@b.cc.png") = None
  /\ email_at (str "see a@b.cc.png") (str "see ") (str "a@b.cc") (str ".png")
  /\ ~ image_name (Py.lower (str "a@b.cc"))
  /\ ~ first_kept_substring (str "see a@b.cc.png")
         (extract_first_valid_email (str "see a@b.cc.png")).
Proof.
  assert (Hat : email_at (str "see a@b.cc.png") (str "see ") (str "a@b.cc")
                  (str ".png")).
  { split; [reflexivity|].
    assert (Hbt : bt EMAIL_REGEX (Some " "%char) (str "a@b.cc.png")
                    (fun _ rest =>
                       if bool_decide (rest = str ".png") then Some rest
                       else None)
                  = Some (str ".png")) by (vm_compute; reflexivity).
    apply bt_sound in Hbt as (m & rest & Heq & Hm & Hk).
    destruct (bool_decide (rest = str ".png")) eqn:E; [|discriminate].
    apply bool_decide_eq_true in E. subst rest.
    change (str "a@b.cc.png") with (str "a@b.cc" ++ str ".png") in Heq.
    apply app_inv_tail in Heq. subst m. exact Hm. }
  assert (Hkept : ~ image_name (Py.lower (str "a@b.cc"))).
  { apply image_suffix_not_name. vm_compute. reflexivity. }
  assert (Hnone : extract_first_valid_email (str "see a@b.cc.png") = None)
    by (vm_compute; reflexivity).
  repeat split; try assumption; try apply Hat.
  rewrite Hnone. intros H. apply Hkept. eapply H, Hat.
Qed.

(** ** [_parse_city_state] *)

Import MapsScraper.

(** C3, as the code has it.  The address "PO Box 5, TX" has two segments, so
    the city is taken from the last one: city and state are both "TX". *)
Theorem parse_city_state_po_box :
  _parse_city_state (str "PO Box 5, TX") = (str "TX", str "TX").
Proof. vm_compute. reflexivity. Qed.

Lemma parse_city_state_po_box_not_first_segment :
  _parse_city_state (str "PO Box 5, TX") <> (str "PO Box", str "TX").
Proof. vm_compute. discriminate. Qed.

(** ** The contact crawler *)

Import EmailFinder CrawlSemantics.

Section CrawlerProofs.
Context {W : Type} {web : Web W}.
Variable max_pages : Z.
Variable base_netloc : list ascii.

Lemma exec_continue_eq st w st' ev w' r r' :
  loop_condition max_pages st = true ->
  crawl_step base_netloc st w = (Continue st', ev, w') ->
  exec max_pages base_netloc st' w' r ->
  r' = Run (returned r) (log_of ev ++ fetched r) (world r) ->
  exec max_pages base_netloc st w r'.
Proof. intros Hc Hs Hr ->. eapply exec_continue; eassumption. Qed.

Lemma drain_exec next pages (queue : list (list ascii)) :
  (pages <? max_pages)%Z = true ->
  (forall visited' queue' w',
      exec max_pages base_netloc
        (CrawlState visited' queue' (pages + 1)) w'
        (next visited' queue' w')) ->
  forall visited w,
    exec max_pages base_netloc (CrawlState visited queue pages) w
      (drain base_netloc next queue visited w).
Proof.
  intros Hlt Hnext. induction queue as [|url queue' IH]; intros visited w.
  - apply exec_exit. reflexivity.
  - assert (Hc : forall v, loop_condition max_pages
              (CrawlState v (url :: queue') pages) = true).
    { intros v. unfold loop_condition. simpl. exact Hlt. }
    cbn [drain].
    destruct (bool_decide (url ∈ visited)) eqn:Hv.
    + eapply exec_continue_eq; [apply Hc| |apply IH|].
      * unfold crawl_step. simpl. rewrite Hv. reflexivity.
      * destruct (drain _ _ _ _ _). reflexivity.
    + destruct (session_get url w) as [resp w'] eqn:Hget.
      destruct (html_of resp) as [[|c html]|] eqn:Hhtml.
      * eapply exec_continue_eq; [apply Hc| |apply IH|].
        -- unfold crawl_step. simpl. rewrite Hv, Hget, Hhtml. reflexivity.
        -- reflexivity.
      * destruct (scan_page base_netloc url (c :: html) queue')
          as [email|queue''] eqn:Hscan.
        -- apply (exec_return max_pages base_netloc _ w (Some email)
                    (Some (url, resp)) w' (Hc visited)).
           unfold crawl_step. simpl. rewrite Hv, Hget, Hhtml, Hscan.
           reflexivity.
        -- eapply exec_continue_eq; [apply Hc| |apply Hnext|].
           ++ unfold crawl_step. simpl. rewrite Hv, Hget, Hhtml, Hscan.
              reflexivity.
           ++ reflexivity.
      * eapply exec_continue_eq; [apply Hc| |apply IH|].
        -- unfold crawl_step. simpl. rewrite Hv, Hget, Hhtml. reflexivity.
        -- reflexivity.
Qed.

(** The recursive [crawl_loop] is a run of the [while] loop, whenever its
    budget covers what remains of [max_pages]. *)
Lemma crawl_loop_exec budget :
  forall visited queue pages w,
    Z.to_nat (max_pages - pages) <= budget ->
    exec max_pages base_netloc (CrawlState visited queue pages) w
      (crawl_loop max_pages base_netloc budget visited queue pages w).
Proof.
  assert (Hexit : forall visited queue pages w,
            (pages <? max_pages)%Z = false ->
            exec max_pages base_netloc (CrawlState visited queue pages) w
              (Run None [] w)).
  { intros visited queue pages w Hge. apply exec_exit.
    unfold loop_condition. cbn [pages_visited]. rewrite Hge.
    apply andb_false_r. }
  induction budget as [|b IH]; intros visited queue pages w Hb;
    cbn [crawl_loop]; destruct (pages <? max_pages)%Z eqn:Hlt; cbn [negb];
    try (apply Hexit; exact Hlt).
  - apply Z.ltb_lt in Hlt. lia.
  - apply drain_exec; [exact Hlt|].
    intros v q w'. apply IH. apply Z.ltb_lt in Hlt. lia.
Qed.

(** The loop body is a function, so a state has one run. *)
Lemma exec_functional st w r1 :
  exec max_pages base_netloc st w r1 ->
  forall r2, exec max_pages base_netloc st w r2 -> r1 = r2.
Proof.
  induction 1 as [st w Hc|st w email ev w' Hc Hs|st w st' ev w' r Hc Hs Hr IH];
    intros r2 H2; inversion H2; subst; try congruence.
  match goal with
  | H : crawl_step _ _ _ = (Continue ?s, ?e, ?v) |- _ =>
      rewrite Hs in H; injection H as <- <- <-
  end.
  match goal with
  | H : exec _ _ st' w' ?r0 |- _ => rewrite (IH r0 H)
  end.
  reflexivity.
Qed.

(** The budget is only what makes the recursion end: any budget that
    covers the pages left gives the same run. *)
Lemma crawl_loop_budget budget1 budget2 visited queue pages (w : W) :
  Z.to_nat (max_pages - pages) <= budget1 ->
  Z.to_nat (max_pages - pages) <= budget2 ->
  crawl_loop max_pages base_netloc budget1 visited queue pages w
  = crawl_loop max_pages base_netloc budget2 visited queue pages w.
Proof.
  intros H1 H2. eapply exec_functional; apply crawl_loop_exec; assumption.
Qed.
End CrawlerProofs.

(** *** Lower case *)

Lemma chr_lower_idempotent c : Chr.lower (Chr.lower c) = Chr.lower c.
Proof. destruct c as [[] [] [] [] [] [] [] []]; vm_compute; reflexivity. Qed.

Lemma lower_idempotent s : Py.lower (Py.lower s) = Py.lower s.
Proof.
  unfold Py.lower. induction s as [|c s IH]; simpl; [reflexivity|].
  rewrite chr_lower_idempotent. f_equal. exact IH.
Qed.

Lemma first_valid_lower matches e :
  first_valid matches = Some e -> Py.lower e = e.
Proof.
  induction matches as [|m ms IH]; simpl; [discriminate|].
  destruct (image_suffix (Py.lower m)); [exact IH|].
  intros [= <-]. apply lower_idempotent.
Qed.

Lemma extract_first_valid_email_lower text e :
  extract_first_valid_email text = Some e -> Py.lower e = e.
Proof.
  unfold extract_first_valid_email.
  destruct (negb (Py.truthy text)); [discriminate|].
  apply first_valid_lower.
Qed.

(** *** One page *)

Section PageProofs.
Context {W : Type} {web : Web W}.
Variable base_netloc : list ascii.

Lemma scan_links_inl url links queue mail :
  scan_links base_netloc url links queue = inl mail -> email_ok mail.
Proof.
  revert queue. induction links as [|link links IH]; intros queue;
    cbn [scan_links]; [discriminate|].
  destruct (negb (Py.truthy (Py.strip (href link)))); [apply IH|].
  destruct (Py.startswith (str "mailto:") (Py.lower (Py.strip (href link))));
    cbn [andb].
  - destruct (is_valid_email (mailto_address (Py.strip (href link)))) eqn:Hv.
    + intros [= <-]. split; [|exact Hv].
      unfold mailto_address. apply lower_idempotent.
    + destruct (negb _); [apply IH|].
      destruct (has_keyword _); apply IH.
  - destruct (negb _); [apply IH|].
    destruct (has_keyword _); apply IH.
Qed.

(** What the link loop appends to the queue has the netloc of the base. *)
Lemma scan_links_inr url links queue queue'' :
  scan_links base_netloc url links queue = inr queue'' ->
  exists added,
    queue'' = queue ++ added
    /\ Forall (fun u => netloc u = base_netloc) added.
Proof.
  revert queue. induction links as [|link links IH]; intros queue;
    cbn [scan_links].
  - intros [= <-]. exists []. split; [symmetry; apply app_nil_r|constructor].
  - destruct (negb (Py.truthy (Py.strip (href link)))); [apply IH|].
    destruct (_ && _); [discriminate|].
    destruct (bool_decide _) eqn:Hn; cbn [negb]; [|apply IH].
    destruct (has_keyword _); [|apply IH].
    intros Hs. apply IH in Hs as (added & -> & Hadd).
    exists (urljoin url (Py.strip (href link)) :: added). split.
    + rewrite <- app_assoc. reflexivity.
    + constructor; [|exact Hadd]. apply bool_decide_eq_true in Hn. exact Hn.
Qed.

Lemma scan_page_inl url html queue e :
  scan_page base_netloc url html queue = inl e -> email_ok e.
Proof.
  unfold scan_page.
  destruct (extract_first_valid_email html) as [email|] eqn:He.
  - destruct (Py.truthy email && is_valid_email email) eqn:Hv.
    + intros [= <-]. apply andb_true_iff in Hv as [_ Hv].
      split; [|exact Hv]. eapply extract_first_valid_email_lower, He.
    + apply scan_links_inl.
  - apply scan_links_inl.
Qed.

Lemma scan_page_inr url html queue queue'' :
  scan_page base_netloc url html queue = inr queue'' ->
  exists added,
    queue'' = queue ++ added
    /\ Forall (fun u => netloc u = base_netloc) added.
Proof.
  unfold scan_page.
  destruct (extract_first_valid_email html) as [email|].
  - destruct (_ && _); [discriminate|]. apply scan_links_inr.
  - apply scan_links_inr.
Qed.

(** The cases of one pass through the loop body. *)
Lemma crawl_step_cases st w o ev w' :
  crawl_step base_netloc st w = (o, ev, w') ->
  match queue st with
  | [] => o = Continue st /\ ev = None /\ w' = w
  | url :: rest =>
      (url ∈ visited st /\ ev = None /\ w' = w
       /\ o = Continue (CrawlState (visited st) rest (pages_visited st)))
      \/ ((url ∉ visited st) /\ exists resp,
            session_get url w = (resp, w') /\ ev = Some (url, resp)
            /\ ((counted (url, resp) = false
                 /\ o = Continue (CrawlState ({[url]} ∪ visited st) rest
                                    (pages_visited st)))
                \/ (counted (url, resp) = true /\ exists html,
                      html_of resp = Some html
                      /\ ((exists e, scan_page base_netloc url html rest = inl e
                                     /\ o = Return (Some e))
                          \/ (exists queue'',
                                scan_page base_netloc url html rest = inr queue''
                                /\ o = Continue
                                         (CrawlState ({[url]} ∪ visited st)
                                            queue'' (pages_visited st + 1)))))))
  end.
Proof.
  unfold crawl_step. destruct (queue st) as [|url rest].
  - intros [= <- <- <-]. auto.
  - destruct (bool_decide (url ∈ visited st)) eqn:Hv.
    + intros [= <- <- <-]. left. apply bool_decide_eq_true in Hv. auto.
    + apply bool_decide_eq_false in Hv.
      destruct (session_get url w) as [resp w1].
      unfold counted. cbn [snd].
      destruct (html_of resp) as [[|c html]|] eqn:Hh.
      * intros [= <- <- <-]. right. split; [exact Hv|].
        exists resp. rewrite Hh. auto.
      * destruct (scan_page base_netloc url (c :: html) rest) as [e|q] eqn:Hs;
          intros [= <- <- <-]; right; (split; [exact Hv|]);
          exists resp; rewrite Hh;
          (split; [reflexivity|split; [reflexivity|right]]);
          (split; [reflexivity|]); exists (c :: html);
          (split; [reflexivity|]); eauto.
      * intros [= <- <- <-]. right. split; [exact Hv|].
        exists resp. rewrite Hh. auto.
Qed.
End PageProofs.

(** *** Whole runs of the loop *)

Section RunProofs.
Context {W : Type} {web : Web W}.
Variable max_pages : Z.
Variable base_netloc : list ascii.

(** A pass made under the loop condition. *)
Lemma pass_inv st w o ev w' :
  loop_condition max_pages st = true ->
  crawl_step base_netloc st w = (o, ev, w') ->
  exists url rest,
    queue st = url :: rest /\ (pages_visited st < max_pages)%Z
    /\ ((url ∈ visited st /\ ev = None /\ w' = w
         /\ o = Continue (CrawlState (visited st) rest (pages_visited st)))
        \/ ((url ∉ visited st) /\ exists resp,
              session_get url w = (resp, w') /\ ev = Some (url, resp)
              /\ ((counted (url, resp) = false
                   /\ o = Continue (CrawlState ({[url]} ∪ visited st) rest
                                      (pages_visited st)))
                  \/ (counted (url, resp) = true /\ exists html,
                        html_of resp = Some html
                        /\ ((exists e,
                               scan_page base_netloc url html rest = inl e
                               /\ o = Return (Some e))
                            \/ (exists queue'',
                                  scan_page base_netloc url html rest
                                    = inr queue''
                                  /\ o = Continue
                                           (CrawlState ({[url]} ∪ visited st)
                                              queue''
                                              (pages_visited st + 1)))))))).
Proof.
  intros Hc Hs. apply crawl_step_cases in Hs.
  apply andb_true_iff in Hc as [Hq Hlt]. apply Z.ltb_lt in Hlt.
  destruct (queue st) as [|url rest] eqn:E; [discriminate|].
  exists url, rest. repeat split; [exact Hlt|exact Hs].
Qed.

Ltac pass_inversion Hc Hs :=
  let url := fresh "url" in
  let rest := fresh "rest" in
  let Hq := fresh "Hqueue" in
  let Hlt := fresh "Hlt" in
  apply (pass_inv _ _ _ _ _ Hc) in Hs;
  destruct Hs as (url & rest & Hq & Hlt & Hs).

Lemma exec_returned_ok st w r :
  exec max_pages base_netloc st w r ->
  forall e, returned r = Some e -> email_ok e.
Proof.
  induction 1 as [st w Hc|st w email ev w' Hc Hs|st w st' ev w' r Hc Hs Hr IH];
    intros e; cbn [returned]; [discriminate| |apply IH].
  intros ->. pass_inversion Hc Hs.
  destruct Hs as [(_ & _ & _ & [=])|(_ & resp & _ & _ & Hs)].
  destruct Hs as [(_ & [=])|(_ & html & _ & Hs)].
  destruct Hs as [(e' & Hscan & [= ->])|(q & _ & [=])].
  eapply scan_page_inl, Hscan.
Qed.

Lemma exec_fetched_netloc st w r :
  exec max_pages base_netloc st w r ->
  Forall (fun u => netloc u = base_netloc) (queue st) ->
  Forall (fun e => netloc (fst e) = base_netloc) (fetched r).
Proof.
  induction 1 as [st w Hc|st w email ev w' Hc Hs|st w st' ev w' r Hc Hs Hr IH];
    intros Hq; cbn [fetched]; [constructor| |].
  - pass_inversion Hc Hs. rewrite Hqueue in Hq.
    apply Forall_cons in Hq as [Hu _].
    destruct Hs as [(_ & -> & _)|(_ & resp & _ & -> & _)];
      repeat constructor. exact Hu.
  - pass_inversion Hc Hs. rewrite Hqueue in Hq.
    apply Forall_cons in Hq as [Hu Hrest].
    destruct Hs as [(_ & -> & _ & [= ->])|(_ & resp & _ & -> & Hs)].
    + apply IH. exact Hrest.
    + cbn [log_of app]. constructor; [exact Hu|]. apply IH.
      destruct Hs as [(_ & [= ->])|(_ & html & _ & Hs)]; [exact Hrest|].
      destruct Hs as [(e' & _ & [=])|(q & Hscan & [= ->])].
      apply scan_page_inr in Hscan as (added & -> & Hadd).
      cbn [queue]. apply Forall_app. split; assumption.
Qed.


Lemma exec_fetched_fresh st w r :
  exec max_pages base_netloc st w r ->
  Forall (fun e => fst e ∉ visited st) (fetched r)
  /\ NoDup (map fst (fetched r)).
Proof.
  induction 1 as [st w Hc|st w email ev w' Hc Hs|st w st' ev w' r Hc Hs Hr IH];
    cbn [fetched].
  - split; constructor.
  - pass_inversion Hc Hs.
    destruct Hs as [(_ & -> & _)|(Hv & resp & _ & -> & _)];
      cbn [log_of map fst].
    + split; constructor.
    + split; [repeat constructor; exact Hv|].
      apply NoDup_singleton.
  - destruct IH as [IHv IHn]. pass_inversion Hc Hs.
    destruct Hs as [(_ & -> & _ & [= ->])|(Hv & resp & _ & -> & Hs)];
      [split; assumption|].
    assert (Hvis : visited st' = {[url]} ∪ visited st).
    { destruct Hs as [(_ & [= ->])|(_ & html & _ & Hs)]; [reflexivity|].
      destruct Hs as [(e' & _ & [=])|(q & _ & [= ->])]. reflexivity. }
    rewrite Hvis in IHv. cbn [log_of app map fst]. split.
    + constructor; [exact Hv|].
      eapply Forall_impl; [exact IHv|]. cbn. intros e He Hin.
      apply He, elem_of_union. right. exact Hin.
    + apply NoDup_cons. split; [|exact IHn].
      intros Hin. apply list_elem_of_fmap in Hin as (e & He & Hin).
      rewrite Forall_forall in IHv. specialize (IHv e Hin).
      cbn in IHv. apply IHv, elem_of_union. left.
      apply elem_of_singleton. symmetry. exact He.
Qed.
End RunProofs.

(** *** [find_email] *)

Section FindEmail.
Context {W : Type} {web : Web W}.

Lemma crawl_run_exec max_pages base_url (w : W) :
  exec max_pages (netloc base_url) (CrawlState ∅ [base_url] 0) w
    (crawl_run max_pages base_url w).
Proof. apply crawl_loop_exec. reflexivity. Qed.

(** [find_email] either makes no request or runs the loop on the
    normalized URL. *)
Lemma find_email_cases max_pages website_url (w : W) :
  (find_email max_pages website_url w = (None, w)
   /\ find_email_log max_pages website_url w = [])
  \/ exists url base_url,
       website_url = Some url /\ _normalize_url url = Some base_url
       /\ find_email max_pages website_url w
          = (returned (crawl_run max_pages base_url w),
             world (crawl_run max_pages base_url w))
       /\ find_email_log max_pages website_url w
          = fetched (crawl_run max_pages base_url w).
Proof.
  destruct website_url as [[|c url]|]; [left; auto| |left; auto].
  unfold find_email, find_email_log.
  destruct (_normalize_url (c :: url)) as [[|c' base]|] eqn:E;
    [left; auto| |left; auto].
  right. exists (c :: url), (c' :: base). auto.
Qed.
End FindEmail.




(** C6.  Every URL a crawl fetches has the netloc of the normalized base
    URL, whatever the links on the pages and whether or not they carry a
    keyword: [find_email] fetches nothing when the URL is empty, and
    otherwise only URLs on the netloc of the normalized URL. *)
Theorem crawl_stays_on_netloc :
  forall (W : Type) (web : Web W) (B : Z) (w : W),
    (forall base_url,
        Forall (fun e => netloc (fst e) = netloc base_url)
          (fetched (crawl_run B base_url w)))
    /\ (forall website_url,
          match website_url ≫= _normalize_url with
          | Some base_url =>
              Forall (fun e => netloc (fst e) = netloc base_url)
                (find_email_log B website_url w)
          | None => find_email_log B website_url w = []
          end).
Proof.
  intros W web B w.
  assert (Hrun : forall base_url,
            Forall (fun e => netloc (fst e) = netloc base_url)
              (fetched (crawl_run B base_url w))).
  { intros base_url.
    apply (exec_fetched_netloc _ _ _ _ _ (crawl_run_exec B base_url w)).
    cbn [queue]. repeat constructor. }
  split; [exact Hrun|].
  intros [[|c url]|]; cbn; [constructor|..]; [|reflexivity].
  unfold find_email_log.
  destruct (_normalize_url (c :: url)) as [[|c' base]|];
    [constructor|apply Hrun|reflexivity].
Qed.

(** C8, as the code has it.  A link is appended to the queue without a look
    at the queue or at the visited set; the visited set is consulted when a
    URL is taken from the queue, so that no URL is fetched twice in a
    crawl. *)
Theorem crawl_fetches_each_url_once :
  forall (W : Type) (web : Web W) (B : Z)
         (website_url : option (list ascii)) (w : W),
    NoDup (map fst (find_email_log B website_url w)).
Proof.
  intros W web B website_url w.
  destruct (find_email_cases B website_url w)
    as [[_ ->]|(url & base & _ & _ & _ & ->)]; [constructor|].
  apply (exec_fetched_fresh _ _ _ _ _ (crawl_run_exec B base w)).
Qed.

(** On the home page of the example site the contact link stands twice, and
    it is appended twice. *)
Lemma enqueue_appends_duplicates :
  ~ enqueues_only_fresh (netloc ExampleSite.home) ExampleSite.start [].
Proof.
  intros H.
  destruct (H (CrawlState {[ExampleSite.home]}
                 [str "https://x.com/contact"; str "https://x.com/about";
                  str "https://x.com/contact"] 1)
              (Some (ExampleSite.home, Response 200 ExampleSite.home_html))
              [ExampleSite.home]
              [str "https://x.com/contact"; str "https://x.com/about";
               str "https://x.com/contact"]) as [Hnd _].
  - vm_compute. reflexivity.
  - reflexivity.
  - apply NoDup_cons in Hnd as [Hnotin _]. apply Hnotin.
    apply list_elem_of_In. right. left. reflexivity.
Qed.

(** C10.  An email [find_email] returns, from the text of a page or from a
    mailto link, is in lower case and [is_valid_email] accepts it. *)
Theorem find_email_lowercase_valid :
  forall (W : Type) (web : Web W) (B : Z)
         (website_url : option (list ascii)) (w : W) (e : list ascii),
    fst (find_email B website_url w) = Some e ->
    Py.lower e = e /\ is_valid_email e = true.
Proof.
  intros W web B website_url w e.
  destruct (find_email_cases B website_url w)
    as [[-> _]|(url & base & _ & _ & -> & _)]; cbn [fst]; [discriminate|].
  apply (exec_returned_ok _ _ _ _ _ (crawl_run_exec B base w)).
Qed.

Lemma find_email_lowercase_valid_witness :
  Py.lower (str "office@x.com") = str "office@x.com"
  /\ is_valid_email (str "office@x.com") = true.
Proof.
  apply (find_email_lowercase_valid _ ExampleSite.site 6
           (Some (str "x.com/")) []).
  vm_compute. reflexivity.
Defined.

(** ** The scraper *)

Section MonadProofs.
Context {W : Type}.

Lemma bind_ok {A B} (c : M W A) (k : A -> M W B) w b w' :
  (c ≫= k) w = (Ok b, w') ->
  exists a w1, c w = (Ok a, w1) /\ k a w1 = (Ok b, w').
Proof.
  unfold mbind, M_bind, bind.
  destruct (c w) as [[a|e] w1]; [eauto|discriminate].
Qed.

Lemma ret_ok {A} (a b : A) (w w' : W) :
  MapsScraper.ret a w = (Ok b, w') -> a = b /\ w = w'.
Proof. unfold MapsScraper.ret. intros [= -> ->]. auto. Qed.
End MonadProofs.

Ltac bind_inversion H :=
  let a := fresh "a" in
  let w := fresh "w" in
  let Ha := fresh "Hrun" in
  apply bind_ok in H; destruct H as (a & w & Ha & H).

Lemma slice_to_length {A} (n : Z) (l : list A) :
  (0 < n)%Z -> length (Py.slice_to n l) <= Z.to_nat n.
Proof.
  intros Hn. unfold Py.slice_to.
  destruct (0 <=? n)%Z eqn:E; [|lia].
  rewrite length_take. lia.
Qed.

(** C7.  For [max_items = N > 0], what [_collect_place_urls] returns has at
    most [N] elements. *)
Theorem collect_place_urls_at_most_max_items :
  forall (W : Type) (browser : Browser W) (query : list ascii) (N : Z)
         (w w' : W) (place_urls : list (list ascii)),
    (0 < N)%Z ->
    _collect_place_urls query N w = (Ok place_urls, w') ->
    (Z.of_nat (length place_urls) <= N)%Z.
Proof.
  intros W browser query N w w' place_urls HN Hrun.
  unfold _collect_place_urls in Hrun.
  do 3 bind_inversion Hrun.
  destruct a1 as [search_input|].
  - do 6 bind_inversion Hrun.
    apply ret_ok in Hrun as [<- _].
    match goal with
    | |- context [Py.slice_to N ?l] => pose proof (slice_to_length N l HN)
    end.
    lia.
  - do 2 bind_inversion Hrun.
    apply ret_ok in Hrun as [<- _]. simpl. lia.
Qed.

Lemma collect_place_urls_at_most_max_items_witness :
  (Z.of_nat (length [ExampleMaps.place2]) <= 1)%Z.
Proof.
  apply (collect_place_urls_at_most_max_items _ ExampleMaps.browser
           (str "Churches in California") 1 ExampleMaps.start
           (ExampleMaps.World (str "https://www.google.com/maps") [])).
  - lia.
  - vm_compute. reflexivity.
Defined.

Lemma lift_ok {W A} (f : W -> A * W) w a w' :
  lift f w = (Ok a, w') -> f w = (a, w').
Proof. unfold lift. destruct (f w) as [a0 w0]. intros [= -> ->]. reflexivity. Qed.

Lemma truthy_nonempty s : Py.truthy s = true <-> s <> [].
Proof. destruct s; simpl; split; congruence. Qed.



(** *** Deduplication *)





Section ScrapeProofs.
Context {W : Type} {browser : Browser W} {web : Web W}.



End ScrapeProofs.



(** * Further properties *)

(** ** [str.strip] *)

Lemma lstrip_app_chr s c :
  Py.lstrip (s ++ [c]) =
  match Py.lstrip s with
  | [] => if Chr.is_space c then [] else [c]
  | t => t ++ [c]
  end.
Proof.
  induction s as [|a s IH]; cbn [app Py.lstrip]; [reflexivity|].
  destruct (Chr.is_space a); [exact IH|reflexivity].
Qed.

Lemma rstrip_cons c s :
  Py.rstrip (c :: s) =
  match Py.rstrip s with
  | [] => if Chr.is_space c then [] else [c]
  | t => c :: t
  end.
Proof.
  unfold Py.rstrip. cbn [rev]. rewrite lstrip_app_chr.
  destruct (Py.lstrip (rev s)) as [|a t] eqn:E; [destruct (Chr.is_space c); reflexivity|].
  rewrite rev_app_distr. cbn [rev app].
  destruct (rev t ++ [a]) eqn:E2; [|reflexivity].
  destruct (rev t); discriminate.
Qed.

Lemma rstrip_nil : Py.rstrip [] = [].
Proof. reflexivity. Qed.

Lemma lstrip_head s :
  match Py.lstrip s with [] => True | c :: _ => Chr.is_space c = false end.
Proof.
  induction s as [|a s IH]; cbn [Py.lstrip]; [exact I|].
  destruct (Chr.is_space a) eqn:E; [exact IH|exact E].
Qed.

Lemma rstrip_last s :
  match last (Py.rstrip s) with
  | Some c => Chr.is_space c = false
  | None => True
  end.
Proof.
  induction s as [|a s IH]; [exact I|]. rewrite rstrip_cons.
  destruct (Py.rstrip s) as [|b t].
  - destruct (Chr.is_space a) eqn:E; [exact I|exact E].
  - exact IH.
Qed.

Lemma rstrip_head c s :
  Chr.is_space c = false ->
  exists t, Py.rstrip (c :: s) = c :: t.
Proof.
  intros Hc. rewrite rstrip_cons, Hc. destruct (Py.rstrip s); eauto.
Qed.

Lemma strip_stripped s : stripped (Py.strip s).
Proof.
  unfold Py.strip, stripped. split; [|apply rstrip_last].
  pose proof (lstrip_head s) as Hh.
  destruct (Py.lstrip s) as [|c t]; [exact I|].
  destruct (rstrip_head c t Hh) as [t' ->]. exact Hh.
Qed.

Lemma rstrip_id s :
  match last s with Some c => Chr.is_space c = false | None => True end ->
  Py.rstrip s = s.
Proof.
  induction s as [|a s IH]; [reflexivity|]. intros Hl. rewrite rstrip_cons.
  destruct s as [|b s].
  - cbn in Hl |- *. rewrite Hl. reflexivity.
  - rewrite IH; [reflexivity|]. exact Hl.
Qed.

Lemma strip_id s : stripped s -> Py.strip s = s.
Proof.
  intros [Hh Hl]. unfold Py.strip.
  assert (Py.lstrip s = s) as ->.
  { destruct s as [|c s]; [reflexivity|]. cbn [Py.lstrip]. rewrite Hh. reflexivity. }
  apply rstrip_id, Hl.
Qed.

Lemma strip_idempotent s : Py.strip (Py.strip s) = Py.strip s.
Proof. apply strip_id, strip_stripped. Qed.

(** ** Phone numbers *)

Lemma filter_all {A} (p : A -> bool) l :
  forallb p l = true -> List.filter p l = l.
Proof.
  induction l as [|a l IH]; cbn [forallb List.filter]; [reflexivity|].
  intros [-> Hl]%andb_true_iff. f_equal. auto.
Qed.

Lemma normalize_us_phone_some value p :
  normalize_us_phone value = Some p ->
  exists d, p = str "+1" ++ d /\ length d = 10
            /\ forallb Chr.is_decimal d = true.
Proof.
  rewrite normalize_us_phone_eq. cbv zeta.
  set (rest := subscriber_digits _).
  destruct (length rest =? 10) eqn:E; [|discriminate].
  intros [= <-]. exists rest. split; [reflexivity|].
  split; [apply Nat.eqb_eq, E|].
  unfold rest, subscriber_digits.
  destruct (_ && _); [apply forallb_drop|]; apply forallb_filter_self.
Qed.

(** X1.  What [normalize_us_phone] returns is "+1" and ten decimal digits,
    [is_valid_us_phone] accepts it, and normalizing it again gives it
    back. *)
Theorem normalize_us_phone_output :
  forall value p : list ascii,
    normalize_us_phone value = Some p ->
    (exists d, p = str "+1" ++ d /\ length d = 10
               /\ forallb Chr.is_decimal d = true)
    /\ is_valid_us_phone p = true
    /\ normalize_us_phone p = Some p.
Proof.
  intros value p Hp.
  destruct (normalize_us_phone_some _ _ Hp) as (d & -> & Hlen & Hd).
  split; [eauto|]. split; [apply is_valid_us_phone_formatted; assumption|].
  rewrite normalize_us_phone_eq. cbv zeta.
  assert (List.filter Chr.is_decimal (str "+1" ++ d) = "1"%char :: d) as ->.
  { change (str "+1" ++ d) with ("+"%char :: "1"%char :: d).
    cbn [List.filter]. change (Chr.is_decimal "+") with false.
    change (Chr.is_decimal "1") with true. cbn match.
    rewrite filter_all by exact Hd. reflexivity. }
  unfold subscriber_digits. cbn [length]. rewrite Hlen.
  change ((11 =? 11) && Py.startswith (str "1") ("1"%char :: d)) with true.
  change (drop 1 ("1"%char :: d)) with d.
  cbv beta iota. rewrite Hlen. reflexivity.
Qed.

Lemma normalize_us_phone_output_witness :
  (exists d, str "+15551234567" = str "+1" ++ d /\ length d = 10
             /\ forallb Chr.is_decimal d = true)
  /\ is_valid_us_phone (str "+15551234567") = true
  /\ normalize_us_phone (str "+15551234567") = Some (str "+15551234567").
Proof.
  apply (normalize_us_phone_output (str "(555) 123-4567")).
  vm_compute. reflexivity.
Defined.

Import PhoneShape.

Lemma matches_alt_inv r1 r2 prev m rest :
  matches (Alt r1 r2) prev m rest ->
  matches r1 prev m rest \/ matches r2 prev m rest.
Proof. inversion 1; subst; auto. Qed.

Lemma matches_eps_inv prev m rest : matches Eps prev m rest -> m = [].
Proof. inversion 1; subst; auto. Qed.

Lemma matches_bol_inv prev m rest :
  matches Bol prev m rest -> m = [] /\ prev = None.
Proof. inversion 1; subst; auto. Qed.

Lemma matches_eol_inv prev m rest :
  matches Eol prev m rest -> m = [] /\ at_eol rest = true.
Proof. inversion 1; subst; auto. Qed.

Lemma matches_lit_inv s prev m rest :
  matches (lit s) prev m rest -> m = s.
Proof.
  revert prev m. induction s as [|c s IH]; intros prev m H; cbn [lit] in H.
  - eapply matches_eps_inv, H.
  - apply matches_seq_inv in H as (m1 & m2 & -> & H1 & H2).
    apply matches_cls_inv in H1 as (d & -> & Hd).
    apply Ascii.eqb_eq in Hd. subst d.
    apply IH in H2. subst m2. reflexivity.
Qed.

Lemma matches_lit s prev rest : matches (lit s) prev s rest.
Proof.
  revert prev. induction s as [|c s IH]; intros prev; cbn [lit].
  - constructor.
  - apply (m_seq _ _ prev [c] s); [|apply IH].
    constructor. apply Ascii.eqb_refl.
Qed.

Lemma matches_exactly_inv n p prev m rest :
  matches (exactly n p) prev m rest ->
  length m = n /\ Forall (fun c => p c = true) m.
Proof.
  unfold exactly. intros H.
  apply matches_rep_inv in H as (Hall & Hlo & Hhi). cbn in Hhi.
  split; [lia|exact Hall].
Qed.

Lemma matches_optional_sep_inv prev m rest :
  matches (Rep sep_chr 0 (Some 1)) prev m rest -> optional_sep m.
Proof.
  intros H. apply matches_rep_inv in H as (Hall & _ & Hhi). cbn in Hhi.
  destruct m as [|c [|d m]]; [left; reflexivity| |simpl in Hhi; lia].
  right. exists c. apply Forall_cons in Hall as [Hc _]. auto.
Qed.

Lemma matches_optional_sep prev m rest :
  optional_sep m -> matches (Rep sep_chr 0 (Some 1)) prev m rest.
Proof.
  intros [->|(c & -> & Hc)]; constructor; cbn; auto; lia.
Qed.

Lemma matches_digits n prev m rest :
  digits n m -> matches (exactly n Chr.is_decimal) prev m rest.
Proof. intros [Hlen Hall]. constructor; cbn; auto; lia. Qed.

Lemma at_eol_final rest : at_eol rest = true <-> final_newline rest.
Proof.
  unfold final_newline. destruct rest as [|c [|d rest]]; cbn; split;
    try tauto; try discriminate.
  - intros H. right. apply Nat.eqb_eq in H. f_equal.
    rewrite <- (ascii_nat_embedding c). unfold Chr.code in H. rewrite H.
    reflexivity.
  - intros [[=]|[= ->]]. reflexivity.
  - intros [[=]|[=]].
Qed.

Lemma us_phone_regex_matches prev' m rest :
  matches US_PHONE_REGEX prev' m rest ->
  prev' = None /\ us_phone_shape (m ++ rest).
Proof.
  unfold US_PHONE_REGEX, opt. intros H.
  apply matches_seq_inv in H as (m0 & m1 & -> & Hbol & H).
  apply matches_bol_inv in Hbol as [-> ->]. cbn [app] in *.
  rewrite last_chr_nil in H. split; [reflexivity|].
  apply matches_seq_inv in H as (cc & m2 & -> & Hcc & H).
  apply matches_seq_inv in H as (area & m3 & -> & Harea & H).
  apply matches_seq_inv in H as (sep1 & m4 & -> & Hsep1 & H).
  apply matches_seq_inv in H as (mid & m5 & -> & Hmid & H).
  apply matches_seq_inv in H as (sep2 & m6 & -> & Hsep2 & H).
  apply matches_seq_inv in H as (line & m7 & -> & Hline & H).
  apply matches_eol_inv in H as [-> Hend].
  exists cc, area, sep1, mid, sep2, line, rest.
  rewrite app_nil_r, <- !app_assoc. split; [reflexivity|].
  repeat split.
  - apply matches_alt_inv in Hcc as [Hcc|Hcc].
    + apply matches_seq_inv in Hcc as (p1 & sp & -> & Hp1 & Hsp).
      apply matches_lit_inv in Hp1. subst p1.
      right. exists sp. split; [reflexivity|].
      eapply matches_optional_sep_inv, Hsp.
    + left. eapply matches_eps_inv, Hcc.
  - apply matches_alt_inv in Harea as [Ha|Ha].
    + apply matches_seq_inv in Ha as (o & a1 & -> & Ho & Ha).
      apply matches_seq_inv in Ha as (a & c & -> & Ha & Hc).
      apply matches_cls_inv in Ho as (x & -> & Hx).
      apply matches_cls_inv in Hc as (y & -> & Hy).
      apply Ascii.eqb_eq in Hx, Hy. subst x y.
      exists a. split; [eapply matches_exactly_inv, Ha|]. right. reflexivity.
    + exists area. split; [eapply matches_exactly_inv, Ha|]. left. reflexivity.
  - eapply matches_optional_sep_inv, Hsep1.
  - eapply matches_exactly_inv, Hmid.
  - eapply matches_exactly_inv, Hmid.
  - eapply matches_optional_sep_inv, Hsep2.
  - eapply matches_exactly_inv, Hline.
  - eapply matches_exactly_inv, Hline.
  - apply at_eol_final, Hend.
Qed.

Lemma matches_seq_at r1 r2 prev m1 m2 rest :
  matches r1 prev m1 (m2 ++ rest) ->
  (forall p, matches r2 p m2 rest) ->
  matches (Seq r1 r2) prev (m1 ++ m2) rest.
Proof. intros H1 H2. constructor; [exact H1|apply H2]. Qed.

Lemma us_phone_shape_matches cc area sep1 mid sep2 line final :
  country_code cc -> area_code area -> optional_sep sep1 -> digits 3 mid ->
  optional_sep sep2 -> digits 4 line -> final_newline final ->
  matches US_PHONE_REGEX None
    (cc ++ area ++ sep1 ++ mid ++ sep2 ++ line) final.
Proof.
  intros Hcc Harea Hsep1 Hmid Hsep2 Hline Hfinal.
  unfold US_PHONE_REGEX, opt.
  apply (m_seq _ _ None []); [constructor|]. rewrite last_chr_nil.
  apply matches_seq_at.
  { destruct Hcc as [->|(sp & -> & Hsp)].
    - apply m_alt_r. constructor.
    - apply m_alt_l. apply matches_seq_at; [apply matches_lit|].
      intros p. apply matches_optional_sep, Hsp. }
  intros p1. apply matches_seq_at.
  { destruct Harea as (a & Ha & [->| ->]).
    - apply m_alt_r. apply matches_digits, Ha.
    - apply m_alt_l. apply (matches_seq_at _ _ _ [_]).
      + constructor. reflexivity.
      + intros p. apply matches_seq_at; [apply matches_digits, Ha|].
        intros p'. constructor. reflexivity. }
  intros p2. apply matches_seq_at; [apply matches_optional_sep, Hsep1|].
  intros p3. apply matches_seq_at; [apply matches_digits, Hmid|].
  intros p4. apply matches_seq_at; [apply matches_optional_sep, Hsep2|].
  intros p5. rewrite <- (app_nil_r line).
  apply matches_seq_at; [apply matches_digits, Hline|].
  intros p6. constructor. apply at_eol_final, Hfinal.
Qed.

(** [US_PHONE_REGEX.match(s)] succeeds exactly on the texts of the shape. *)
Lemma us_phone_match_shape s :
  is_Some (match_ US_PHONE_REGEX s) <-> us_phone_shape s.
Proof.
  unfold match_. rewrite fmap_is_Some. split.
  - intros [rest H]. apply match_here_sound in H as (m & -> & Hm).
    apply us_phone_regex_matches in Hm as [_ Hm]. exact Hm.
  - intros (cc & area & sep1 & mid & sep2 & line & final & -> & H).
    destruct H as (Hcc & Harea & Hsep1 & Hmid & Hsep2 & Hline & Hfinal).
    pose proof (us_phone_shape_matches _ _ _ _ _ _ _
                  Hcc Harea Hsep1 Hmid Hsep2 Hline Hfinal) as Hm.
    unfold match_here.
    replace (cc ++ area ++ sep1 ++ mid ++ sep2 ++ line ++ final)
      with ((cc ++ area ++ sep1 ++ mid ++ sep2 ++ line) ++ final)
      by (rewrite <- !app_assoc; reflexivity).
    apply (bt_complete _ _ _ _ Hm). eauto.
Qed.

Lemma chr_space_not_decimal c :
  Chr.is_space c = true -> Chr.is_decimal c = false.
Proof. destruct c as [[] [] [] [] [] [] [] []]; vm_compute; congruence. Qed.

Lemma chr_sep_not_decimal c :
  sep_chr c = true -> Chr.is_decimal c = false.
Proof. destruct c as [[] [] [] [] [] [] [] []]; vm_compute; congruence. Qed.

Lemma lstrip_decimal s :
  List.filter Chr.is_decimal (Py.lstrip s) = List.filter Chr.is_decimal s.
Proof.
  induction s as [|c s IH]; cbn [Py.lstrip]; [reflexivity|].
  destruct (Chr.is_space c) eqn:E; [|reflexivity].
  cbn [List.filter]. rewrite (chr_space_not_decimal _ E). exact IH.
Qed.

Lemma filter_rev_list {A} (p : A -> bool) l :
  List.filter p (rev l) = rev (List.filter p l).
Proof.
  induction l as [|a l IH]; [reflexivity|]. cbn [rev List.filter].
  rewrite List.filter_app, IH. cbn [List.filter].
  destruct (p a); cbn [rev]; [reflexivity|apply app_nil_r].
Qed.

Lemma strip_decimal s :
  List.filter Chr.is_decimal (Py.strip s) = List.filter Chr.is_decimal s.
Proof.
  unfold Py.strip, Py.rstrip.
  rewrite filter_rev_list, lstrip_decimal, filter_rev_list, rev_involutive.
  apply lstrip_decimal.
Qed.

Lemma Forall_forallb {A} (p : A -> bool) l :
  Forall (fun c => p c = true) l <-> forallb p l = true.
Proof.
  induction l as [|a l IH]; cbn [forallb].
  - split; [reflexivity|constructor].
  - rewrite Forall_cons, andb_true_iff, IH. reflexivity.
Qed.

Lemma digits_filter n s : digits n s -> List.filter Chr.is_decimal s = s.
Proof. intros [_ H]. apply filter_all, Forall_forallb, H. Qed.

Lemma optional_sep_filter s :
  optional_sep s -> List.filter Chr.is_decimal s = [].
Proof.
  intros [->|(c & -> & Hc)]; [reflexivity|].
  cbn [List.filter]. rewrite (chr_sep_not_decimal _ Hc). reflexivity.
Qed.

(** The decimal digits of a text of the shape: ten, after a 1 when the
    country code is there. *)
Lemma us_phone_shape_digits s :
  us_phone_shape s ->
  exists ten,
    length ten = 10
    /\ (List.filter Chr.is_decimal s = ten
        \/ List.filter Chr.is_decimal s = "1"%char :: ten).
Proof.
  intros (cc & area & sep1 & mid & sep2 & line & final & -> & H).
  destruct H as (Hcc & (a & Ha & Harea) & Hsep1 & Hmid & Hsep2 & Hline & Hfinal).
  exists (a ++ mid ++ line). split.
  { rewrite !length_app. destruct Ha as [-> _], Hmid as [-> _], Hline as [-> _].
    reflexivity. }
  rewrite !List.filter_app.
  rewrite (optional_sep_filter _ Hsep1), (optional_sep_filter _ Hsep2).
  rewrite (digits_filter _ _ Hmid), (digits_filter _ _ Hline).
  assert (List.filter Chr.is_decimal area = a) as ->.
  { destruct Harea as [->| ->]; [eapply digits_filter, Ha|].
    rewrite !List.filter_app, (digits_filter _ _ Ha). cbn. apply app_nil_r. }
  assert (List.filter Chr.is_decimal final = []) as ->.
  { destruct Hfinal as [->| ->]; reflexivity. }
  rewrite !app_nil_r. cbn [app].
  destruct Hcc as [->|(sp & -> & Hsp)]; [left; reflexivity|right].
  rewrite List.filter_app, (optional_sep_filter _ Hsp). reflexivity.
Qed.

Lemma us_phone_shape_nonempty s : us_phone_shape s -> s <> [].
Proof.
  intros H ->. apply us_phone_shape_digits in H as (ten & Hlen & [H|H]);
    cbn in H; subst; discriminate.
Qed.

Lemma is_valid_us_phone_iff value :
  is_valid_us_phone value = true
  <-> (exists d, value = str "+1" ++ d /\ length d = 10
                 /\ forallb Chr.is_digit d = true)
      \/ us_phone_shape (Py.strip value).
Proof.
  unfold is_valid_us_phone.
  destruct value as [|c v].
  { cbn. split; [discriminate|]. intros [(d & [=] & _)|H].
    exfalso. eapply us_phone_shape_nonempty; [exact H|reflexivity]. }
  cbn [Py.truthy negb].
  set (value := c :: v).
  destruct (Py.startswith (str "+1") value && (length value =? 12)
            && Py.isdigit (drop 2 value)) eqn:E.
  - split; [intros _|reflexivity]. left.
    apply andb_true_iff in E as [[Hs Hl]%andb_true_iff Hd].
    apply startswith_prefix in Hs as [d Hv]. exists d. rewrite Hv in *.
    change (drop 2 (str "+1" ++ d)) with d in Hd.
    apply Nat.eqb_eq in Hl. cbn in Hl.
    split; [reflexivity|]. split; [lia|].
    unfold Py.isdigit in Hd. destruct d; [discriminate|exact Hd].
  - rewrite bool_decide_eq_true, us_phone_match_shape.
    split; [auto|]. intros [(d & Hv & Hlen & Hd)|H]; [|exact H].
    exfalso. rewrite Hv in E.
    change (drop 2 (str "+1" ++ d)) with d in E.
    change (Py.startswith (str "+1") (str "+1" ++ d)) with true in E.
    cbn [length app str list_ascii_of_string] in E. rewrite Hlen in E.
    unfold Py.isdigit in E. rewrite Hd in E.
    destruct d; discriminate.
Qed.

(** X2.  [is_valid_us_phone] accepts exactly "+1" followed by ten
    characters that [str.isdigit] accepts, and the texts that, once
    stripped, have the shape of [US_PHONE_REGEX]. *)
Theorem is_valid_us_phone_accepts :
  forall value : list ascii,
    is_valid_us_phone value = true
    <-> (exists d, value = str "+1" ++ d /\ length d = 10
                   /\ forallb Chr.is_digit d = true)
        \/ us_phone_shape (Py.strip value).
Proof. exact is_valid_us_phone_iff. Qed.

(** X3.  A text [is_valid_us_phone] accepts, in which every character that
    [str.isdigit] accepts is a decimal digit, is one [normalize_us_phone]
    normalizes: to "+1" and its ten subscriber digits. *)
Theorem valid_us_phone_normalizes :
  forall value : list ascii,
    is_valid_us_phone value = true ->
    Forall (fun c => Chr.is_digit c = true -> Chr.is_decimal c = true) value ->
    exists ten,
      length ten = 10
      /\ normalize_us_phone value = Some (str "+1" ++ ten).
Proof.
  intros value Hvalid Hdec.
  assert (Hten : exists ten, length ten = 10
            /\ (List.filter Chr.is_decimal value = ten
                \/ List.filter Chr.is_decimal value = "1"%char :: ten)).
  { apply is_valid_us_phone_iff in Hvalid as [(d & -> & Hlen & Hd)|H].
    - exists d. split; [exact Hlen|right].
      change (str "+1" ++ d) with ("+"%char :: "1"%char :: d) in *.
      cbn [List.filter]. change (Chr.is_decimal "+") with false.
      change (Chr.is_decimal "1") with true. cbv iota. f_equal.
      apply filter_all, Forall_forallb.
      do 2 apply Forall_cons in Hdec as [_ Hdec].
      apply Forall_forallb in Hd.
      rewrite Forall_forall in Hdec, Hd |- *. auto.
    - apply us_phone_shape_digits in H. rewrite strip_decimal in H. exact H. }
  destruct Hten as (ten & Hlen & Hf). exists ten. split; [exact Hlen|].
  rewrite normalize_us_phone_eq. cbv zeta.
  assert (subscriber_digits (List.filter Chr.is_decimal value) = ten) as ->.
  { unfold subscriber_digits. destruct Hf as [-> | ->].
    - rewrite Hlen. reflexivity.
    - cbn [length]. rewrite Hlen. reflexivity. }
  rewrite Hlen. reflexivity.
Qed.

Lemma valid_us_phone_normalizes_witness :
  exists ten,
    length ten = 10
    /\ normalize_us_phone (str " +1 (555) 123-4567 ")
       = Some (str "+1" ++ ten).
Proof.
  apply valid_us_phone_normalizes.
  - vm_compute. reflexivity.
  - repeat constructor; vm_compute; congruence.
Defined.

(** The hypothesis on the digits is needed: a superscript two is a digit for
    [str.isdigit] and not for [\d]. *)
Example superscript_phone_valid_not_normalized :
  let value := str "+1" ++ repeat (ascii_of_nat 178) 10 in
  is_valid_us_phone value = true /\ normalize_us_phone value = None.
Proof. vm_compute. auto. Qed.

Lemma digits_head_last n s :
  digits (S n) s ->
  match s with [] => True | c :: _ => Chr.is_space c = false end
  /\ match last s with Some c => Chr.is_space c = false | None => False end.
Proof.
  intros [Hlen Hall].
  assert (Hns : forall c, c ∈ s -> Chr.is_space c = false).
  { intros c Hc. rewrite Forall_forall in Hall. specialize (Hall c Hc).
    destruct (Chr.is_space c) eqn:E; [|reflexivity].
    apply chr_space_not_decimal in E. congruence. }
  split.
  - destruct s as [|c s]; [exact I|]. apply Hns. left.
  - destruct (last s) as [c|] eqn:E.
    + apply Hns. apply last_Some in E as [s' ->].
      apply elem_of_app. right. left.
    + apply last_None in E. subst s. discriminate.
Qed.

(** A text of the shape without the final newline is valid as it is. *)
Lemma us_phone_shape_valid cc area sep1 mid sep2 line :
  country_code cc -> area_code area -> optional_sep sep1 -> digits 3 mid ->
  optional_sep sep2 -> digits 4 line ->
  is_valid_us_phone (cc ++ area ++ sep1 ++ mid ++ sep2 ++ line) = true.
Proof.
  intros Hcc Harea Hsep1 Hmid Hsep2 Hline.
  apply is_valid_us_phone_iff. right.
  rewrite strip_id.
  - exists cc, area, sep1, mid, sep2, line, [].
    rewrite app_nil_r. repeat split; try assumption; try apply Hmid;
      try apply Hline. left. reflexivity.
  - split.
    + destruct Hcc as [->|(sp & -> & _)]; [|reflexivity]. cbn [app].
      destruct Harea as (a & Ha & [->| ->]); [|reflexivity].
      destruct (digits_head_last _ _ Ha) as [Hh _].
      destruct a; [destruct Ha; discriminate|exact Hh].
    + destruct (digits_head_last _ _ Hline) as [_ Hl].
      rewrite !app_assoc, last_app.
      destruct (last line); [exact Hl|contradiction].
Qed.

(** X4.  [is_valid_us_phone] accepts the four formats the comment on
    [US_PHONE_REGEX] lists, whatever the digits: "(DDD) DDD-DDDD",
    "DDD-DDD-DDDD", "DDDDDDDDDD" and "+1 DDD-DDD-DDDD". *)
Theorem is_valid_us_phone_documented_formats :
  forall a b c : list ascii,
    digits 3 a -> digits 3 b -> digits 4 c ->
    is_valid_us_phone (str "(" ++ a ++ str ") " ++ b ++ str "-" ++ c) = true
    /\ is_valid_us_phone (a ++ str "-" ++ b ++ str "-" ++ c) = true
    /\ is_valid_us_phone (a ++ b ++ c) = true
    /\ is_valid_us_phone (str "+1 " ++ a ++ str "-" ++ b ++ str "-" ++ c)
       = true.
Proof.
  intros a b c Ha Hb Hc.
  assert (Hsp : optional_sep (str " ")) by (right; exists " "%char; auto).
  assert (Hda : optional_sep (str "-")) by (right; exists "-"%char; auto).
  assert (Hno : optional_sep []) by (left; reflexivity).
  assert (Hbare : area_code a) by (exists a; auto).
  assert (Hpar : area_code (str "(" ++ a ++ str ")")) by (exists a; auto).
  assert (Hcc0 : country_code []) by (left; reflexivity).
  assert (Hcc1 : country_code (str "+1" ++ str " "))
    by (right; exists (str " "); auto).
  repeat split.
  - pose proof (us_phone_shape_valid _ _ _ _ _ _ Hcc0 Hpar Hsp Hb Hda Hc) as H.
    rewrite <- !app_assoc in H. exact H.
  - exact (us_phone_shape_valid _ _ _ _ _ _ Hcc0 Hbare Hda Hb Hda Hc).
  - exact (us_phone_shape_valid _ _ _ _ _ _ Hcc0 Hbare Hno Hb Hno Hc).
  - pose proof (us_phone_shape_valid _ _ _ _ _ _ Hcc1 Hbare Hda Hb Hda Hc) as H.
    rewrite <- !app_assoc in H. exact H.
Qed.

Lemma is_valid_us_phone_documented_formats_witness :
  is_valid_us_phone (str "(123) 456-7890") = true
  /\ is_valid_us_phone (str "123-456-7890") = true
  /\ is_valid_us_phone (str "1234567890") = true
  /\ is_valid_us_phone (str "+1 123-456-7890") = true.
Proof.
  apply (is_valid_us_phone_documented_formats
           (str "123") (str "456") (str "7890"));
    (split; [reflexivity|repeat constructor]).
Defined.

(** ** Emails *)

Lemma fullmatch_matches r s :
  fullmatch r s = true <-> matches r None s [].
Proof.
  unfold fullmatch. split.
  - destruct (bt r None s _) as [u|] eqn:E; [intros _|discriminate].
    apply bt_sound in E as (m & rest & -> & Hm & Hk).
    destruct rest; [|discriminate]. rewrite app_nil_r. exact Hm.
  - intros Hm.
    destruct (bt_complete r None s [] Hm
                (fun _ rest => match rest with [] => Some () | _ => None end))
      as [u Hu]; [eauto|].
    rewrite app_nil_r in Hu. rewrite Hu. reflexivity.
Qed.

Lemma chr_word_not_space c : Chr.is_word c = true -> Chr.is_space c = false.
Proof. destruct c as [[] [] [] [] [] [] [] []]; vm_compute; congruence. Qed.

(** A text of the shape whose first character is a word character is a
    match of the email pattern on its own. *)
Lemma email_shape_matches m :
  email_shape m -> word_opt (head m) = true ->
  matches EMAIL_REGEX None m [] /\ stripped m.
Proof.
  intros (loc & dom & tld & -> & Hloc & Hlocs & Hdom & Hdoms & Htlen & Htld) Hw.
  assert (Hlast : exists t c, tld = t ++ [c] /\ Chr.is_letter c = true).
  { destruct (last tld) as [c|] eqn:E.
    - apply last_Some in E as [t ->]. exists t, c. split; [reflexivity|].
      apply Forall_app in Htld as [_ Hc]. apply Forall_cons in Hc as [Hc _].
      exact Hc.
    - apply last_None in E. subst tld. simpl in Htlen. lia. }
  destruct Hlast as (t & c & Htl & Hc).
  assert (Hl : last (loc ++ str "@" ++ dom ++ str "." ++ tld) = Some c).
  { rewrite Htl, !app_assoc. apply last_snoc. }
  split.
  - unfold EMAIL_REGEX, plus.
    apply (m_seq _ _ None []).
    { constructor. unfold at_boundary. cbn [word_opt xorb].
      rewrite app_nil_r. destruct (word_opt (head _)); [reflexivity|discriminate]. }
    rewrite last_chr_nil.
    apply matches_seq_at.
    { constructor; [exact Hlocs| |exact I].
      destruct loc; [contradiction|simpl; lia]. }
    intros p1. apply (matches_seq_at _ _ _ [_]).
    { constructor. reflexivity. }
    intros p2. apply matches_seq_at.
    { constructor; [exact Hdoms| |exact I].
      destruct dom; [contradiction|simpl; lia]. }
    intros p3. apply (matches_seq_at _ _ _ [_]).
    { constructor. reflexivity. }
    intros p4. rewrite <- (app_nil_r tld).
    apply (m_seq _ _ p4 tld []).
    { constructor; [exact Htld|exact Htlen|exact I]. }
    constructor. unfold at_boundary, last_chr.
    rewrite Htl, last_snoc. cbn. rewrite (chr_letter_word _ Hc). reflexivity.
  - split.
    + destruct loc as [|a loc]; [contradiction|]. cbn in Hw |- *.
      apply chr_word_not_space, Hw.
    + rewrite Hl. apply chr_word_not_space, chr_letter_word, Hc.
Qed.

(** X5.  Of the texts of code points below 256, [is_valid_email] accepts
    exactly those that, once stripped, are a local part, "@", a domain, "."
    and two letters or more, and begin with a word character. *)
Theorem is_valid_email_accepts :
  forall email : list ascii,
    is_valid_email email = true
    <-> email_shape (Py.strip email)
        /\ word_opt (head (Py.strip email)) = true.
Proof.
  intros email. unfold is_valid_email.
  rewrite andb_true_iff, fullmatch_matches. split.
  - intros [_ Hm]. apply email_match_inv in Hm as (Hshape & Hb & _).
    split; [exact Hshape|].
    unfold at_boundary in Hb. cbn [word_opt xorb] in Hb. exact Hb.
  - intros [Hshape Hw]. split.
    + destruct email; [|reflexivity]. cbn in Hw. discriminate.
    + apply email_shape_matches; assumption.
Qed.

Lemma chr_lower_local c :
  local_chr c = true -> local_chr (Chr.lower c) = true.
Proof. destruct c as [[] [] [] [] [] [] [] []]; vm_compute; congruence. Qed.

Lemma chr_lower_domain c :
  domain_chr c = true -> domain_chr (Chr.lower c) = true.
Proof. destruct c as [[] [] [] [] [] [] [] []]; vm_compute; congruence. Qed.

Lemma chr_lower_letter c :
  Chr.is_letter c = true -> Chr.is_letter (Chr.lower c) = true.
Proof. destruct c as [[] [] [] [] [] [] [] []]; vm_compute; congruence. Qed.

Lemma chr_lower_space c : Chr.is_space (Chr.lower c) = Chr.is_space c.
Proof. destruct c as [[] [] [] [] [] [] [] []]; vm_compute; congruence. Qed.

Lemma chr_local_plain c :
  local_chr c = true -> Chr.is_space c = false /\ c <> "@"%char.
Proof.
  destruct c as [[] [] [] [] [] [] [] []]; vm_compute; intros H;
    (discriminate H || (split; congruence)).
Qed.

Lemma chr_domain_local c : domain_chr c = true -> local_chr c = true.
Proof. destruct c as [[] [] [] [] [] [] [] []]; vm_compute; congruence. Qed.

Lemma chr_letter_local c : Chr.is_letter c = true -> local_chr c = true.
Proof. destruct c as [[] [] [] [] [] [] [] []]; vm_compute; congruence. Qed.

Lemma Forall_lower (p : ascii -> bool) s :
  (forall c, p c = true -> p (Chr.lower c) = true) ->
  Forall (fun c => p c = true) s ->
  Forall (fun c => p c = true) (Py.lower s).
Proof.
  intros Hp. unfold Py.lower. induction 1; cbn [map]; constructor; auto.
Qed.

Lemma lower_app s t : Py.lower (s ++ t) = Py.lower s ++ Py.lower t.
Proof. apply map_app. Qed.

Lemma lower_length s : length (Py.lower s) = length s.
Proof. apply length_map. Qed.

Lemma email_shape_lower m : email_shape m -> email_shape (Py.lower m).
Proof.
  intros (loc & dom & tld & -> & Hloc & Hlocs & Hdom & Hdoms & Htlen & Htld).
  exists (Py.lower loc), (Py.lower dom), (Py.lower tld).
  rewrite !lower_app, lower_length.
  repeat split; try assumption.
  - destruct loc; [contradiction|discriminate].
  - apply Forall_lower; [apply chr_lower_local|exact Hlocs].
  - destruct dom; [contradiction|discriminate].
  - apply Forall_lower; [apply chr_lower_domain|exact Hdoms].
  - apply Forall_lower; [apply chr_lower_letter|exact Htld].
Qed.

Lemma count_occ_none (x : ascii) s :
  Forall (fun c => c <> x) s -> count_occ ascii_dec s x = 0.
Proof.
  induction 1 as [|c s Hc Hs IH]; cbn [count_occ]; [reflexivity|].
  destruct (ascii_dec c x); [contradiction|exact IH].
Qed.

(** A text of the shape has one "@" and no space. *)
Lemma email_shape_plain m :
  email_shape m ->
  count_occ ascii_dec m "@"%char = 1
  /\ Forall (fun c => Chr.is_space c = false) m.
Proof.
  intros (loc & dom & tld & -> & _ & Hlocs & _ & Hdoms & _ & Htld).
  assert (Hd : Forall (fun c => local_chr c = true) dom).
  { eapply Forall_impl; [exact Hdoms|]. apply chr_domain_local. }
  assert (Ht : Forall (fun c => local_chr c = true) tld).
  { eapply Forall_impl; [exact Htld|]. apply chr_letter_local. }
  assert (Hplain : forall s, Forall (fun c => local_chr c = true) s ->
            count_occ ascii_dec s "@"%char = 0
            /\ Forall (fun c => Chr.is_space c = false) s).
  { intros s Hs. split.
    - apply count_occ_none. eapply Forall_impl; [exact Hs|].
      intros c Hc. apply chr_local_plain, Hc.
    - eapply Forall_impl; [exact Hs|]. intros c Hc. apply chr_local_plain, Hc. }
  destruct (Hplain _ Hlocs) as [C1 S1], (Hplain _ Hd) as [C2 S2],
    (Hplain _ Ht) as [C3 S3].
  split.
  - rewrite !count_occ_app, C1, C2, C3. reflexivity.
  - repeat (apply Forall_app; split); try assumption; repeat constructor.
Qed.

(** X6.  In a text of code points below 256, an address
    [extract_first_valid_email] returns stands in the text, in some letter
    case; it is in lower case, has the shape of an email with one "@" and
    no space, and does not end in ".png", ".jpg", ".jpeg" or ".svg". *)
Theorem extract_first_valid_email_result :
  forall text e : list ascii,
    extract_first_valid_email text = Some e ->
    (exists before m after, text = before ++ m ++ after /\ e = Py.lower m)
    /\ Py.lower e = e
    /\ email_shape e
    /\ count_occ ascii_dec e "@"%char = 1
    /\ Forall (fun c => Chr.is_space c = false) e
    /\ image_suffix e = false.
Proof.
  intros text e He.
  pose proof (extract_first_valid_email_lower _ _ He) as Hlow.
  unfold extract_first_valid_email in He.
  destruct (negb (Py.truthy text)); [discriminate|].
  pose proof (first_valid_cases (findall EMAIL_REGEX text)) as Hc.
  rewrite He in Hc. destruct Hc as (skipped & m & later & Hf & _ & Him & ->).
  assert (Hscan : scanned EMAIL_REGEX None text (findall EMAIL_REGEX text)).
  { apply (findall_scanned _ email_never_empty (length text)). reflexivity. }
  destruct (scanned_occurrences _ _ _ _ Hscan m)
    as (before & after & Htext & Hm).
  { rewrite Hf. apply elem_of_app. right. left. }
  apply email_match_inv in Hm as (Hshape & _).
  apply email_shape_lower in Hshape.
  destruct (email_shape_plain _ Hshape) as [Hat Hsp].
  repeat split; eauto.
Qed.

Lemma extract_first_valid_email_result_witness :
  (exists before m after,
      str "Mail Bob@Example.COM now" = before ++ m ++ after
      /\ str "bob@example.com" = Py.lower m)
  /\ Py.lower (str "bob@example.com") = str "bob@example.com"
  /\ email_shape (str "bob@example.com")
  /\ count_occ ascii_dec (str "bob@example.com") "@"%char = 1
  /\ Forall (fun c => Chr.is_space c = false) (str "bob@example.com")
  /\ image_suffix (str "bob@example.com") = false.
Proof.
  apply (extract_first_valid_email_result (str "Mail Bob@Example.COM now")).
  vm_compute. reflexivity.
Defined.

(** ** The contact crawler: the URL and the requests *)

Import CrawlProps.

Lemma truthy_false s : Py.truthy s = false <-> s = [].
Proof. destruct s; simpl; split; congruence. Qed.

Lemma stripped_https s : s <> [] -> stripped s -> stripped (str "https://" ++ s).
Proof.
  intros Hs [_ Hl]. split; [reflexivity|].
  rewrite last_app. destruct (last s) eqn:E; [exact Hl|].
  apply last_None in E. contradiction.
Qed.

Lemma normalize_url_cases url :
  match _normalize_url url with
  | None => Py.strip url = []
  | Some normalized =>
      Py.strip url <> []
      /\ (Py.startswith (str "http://") normalized
          || Py.startswith (str "https://") normalized) = true
      /\ (normalized = Py.strip url
          \/ normalized = str "https://" ++ Py.strip url)
      /\ _normalize_url normalized = Some normalized
  end.
Proof.
  unfold _normalize_url at 1.
  destruct (Py.truthy (Py.strip url)) eqn:Ht; cbn [negb].
  2: { apply truthy_false, Ht. }
  apply truthy_nonempty in Ht.
  pose proof (strip_stripped url) as Hs.
  assert (Hidem : forall r, stripped r -> r <> [] ->
            (Py.startswith (str "http://") r
             || Py.startswith (str "https://") r) = true ->
            _normalize_url r = Some r).
  { intros r Hr Hne Hstart. unfold _normalize_url.
    rewrite (strip_id _ Hr), Hstart.
    destruct r; [contradiction|reflexivity]. }
  destruct (Py.startswith (str "http://") (Py.strip url)
            || Py.startswith (str "https://") (Py.strip url)) eqn:Hp;
    cbn [negb].
  - repeat split; auto.
  - repeat split; auto.
    apply Hidem; [apply stripped_https; assumption|discriminate|reflexivity].
Qed.

(** X7.  [_normalize_url] gives nothing for a URL that is blank once
    stripped; the stripped URL itself when that starts with "http://" or
    with "https://"; and "https://" followed by the stripped URL in every
    other case.  What it gives is not empty, starts with one of the two,
    and normalizing it again leaves it as it is. *)
Theorem normalize_url_spec :
  forall url : list ascii,
    let candidate := Py.strip url in
    ((candidate = [] /\ _normalize_url url = None)
     \/ (candidate <> [] /\ has_scheme candidate
         /\ _normalize_url url = Some candidate)
     \/ (candidate <> [] /\ ~ has_scheme candidate
         /\ _normalize_url url = Some (str "https://" ++ candidate)))
    /\ match _normalize_url url with
       | Some normalized =>
           normalized <> [] /\ has_scheme normalized
           /\ _normalize_url normalized = Some normalized
       | None => True
       end.
Proof.
  intros url candidate.
  assert (Hscheme : forall s,
            (Py.startswith (str "http://") s
             || Py.startswith (str "https://") s) = true <-> has_scheme s).
  { intros s. unfold has_scheme.
    rewrite orb_true_iff, !startswith_prefix. reflexivity. }
  pose proof (normalize_url_cases url) as Hc. split.
  - unfold _normalize_url. fold candidate.
    destruct (Py.truthy candidate) eqn:Ht; cbn [negb].
    + apply truthy_nonempty in Ht. right.
      destruct (Py.startswith (str "http://") candidate
                || Py.startswith (str "https://") candidate) eqn:Hp;
        cbn [negb].
      * left. split; [exact Ht|]. split; [|reflexivity].
        apply Hscheme, Hp.
      * right. split; [exact Ht|]. split; [|reflexivity].
        intros Hs. apply Hscheme in Hs. congruence.
    + left. split; [|reflexivity]. apply truthy_false, Ht.
  - destruct (_normalize_url url) as [normalized|]; [|exact I].
    destruct Hc as (Hne & Hstart & Hor & Hidem).
    split; [|split; [apply Hscheme, Hstart|exact Hidem]].
    destruct Hor as [->| ->]; [exact Hne|discriminate].
Qed.

Section NoRequest.
Context {W : Type} {web : Web W}.

Lemma crawl_run_no_budget B base_url (w : W) :
  (B <= 0)%Z -> crawl_run B base_url w = Run None [] w.
Proof.
  intros HB. unfold crawl_run.
  destruct (Z.to_nat (B - 0)); cbn [crawl_loop];
    (destruct (0 <? B)%Z eqn:E; [lia|reflexivity]).
Qed.
End NoRequest.

(** X8.  [find_email] returns [None] without a request, the world as it
    was, when there is no website, when its URL is blank, and when the page
    budget is zero or less. *)
Theorem find_email_without_request :
  forall (W : Type) (web : Web W) (B : Z)
         (website_url : option (list ascii)) (w : W),
    (website_url = None
     \/ (exists url, website_url = Some url /\ Py.strip url = [])
     \/ (B <= 0)%Z) ->
    find_email B website_url w = (None, w)
    /\ find_email_log B website_url w = [].
Proof.
  intros W web B website_url w H.
  destruct (find_email_cases B website_url w)
    as [?|(url & base & -> & Hn & -> & ->)]; [assumption|].
  destruct H as [[=]|[(u & [= <-] & Hblank)|HB]].
  - pose proof (normalize_url_cases url) as Hs. rewrite Hn in Hs.
    destruct Hs as [Hne _]. contradiction.
  - rewrite (crawl_run_no_budget B base w HB). auto.
Qed.

Lemma find_email_without_request_witness :
  find_email (W:=list (list ascii)) 6 (Some (str "   ")) [] = (None, [])
  /\ find_email_log (W:=list (list ascii)) 6 (Some (str "   ")) [] = [].
Proof.
  apply find_email_without_request.
  right. left. exists (str "   "). split; reflexivity.
Defined.

Section CrawlRequests.
Context {W : Type} {web : Web W}.
Variable max_pages : Z.
Variable base_netloc : list ascii.

Ltac pass_inversion Hc Hs :=
  let url := fresh "url" in
  let rest := fresh "rest" in
  let Hq := fresh "Hqueue" in
  let Hlt := fresh "Hlt" in
  apply (pass_inv _ _ _ _ _ _ _ Hc) in Hs;
  destruct Hs as (url & rest & Hq & Hlt & Hs).

Lemma exec_replays st (w : W) r :
  exec max_pages base_netloc st w r -> replays w (fetched r) (world r).
Proof.
  induction 1 as [st w Hc|st w email ev w' Hc Hs|st w st' ev w' r Hc Hs Hr IH];
    cbn [fetched world].
  - reflexivity.
  - pass_inversion Hc Hs.
    destruct Hs as [(_ & -> & -> & _)|(_ & resp & Hget & -> & _)];
      cbn [log_of replays]; eauto.
  - pass_inversion Hc Hs.
    destruct Hs as [(_ & -> & -> & _)|(_ & resp & Hget & -> & _)];
      cbn [log_of app replays]; eauto.
Qed.
End CrawlRequests.

Section FindEmailRequests.
Context {W : Type} {web : Web W}.

End FindEmailRequests.

(** X9.  The world [find_email] leaves is the one its requests lead to:
    the requests of the log, made in order, give the logged responses, and
    nothing else acts on the world. *)
Theorem find_email_replays_log :
  forall (W : Type) (web : Web W) (B : Z)
         (website_url : option (list ascii)) (w : W),
    replays w (find_email_log B website_url w)
      (snd (find_email B website_url w)).
Proof.
  intros W web B website_url w.
  destruct (find_email_cases B website_url w)
    as [[-> ->]|(url & base & _ & _ & -> & ->)]; [reflexivity|].
  apply (exec_replays _ _ _ _ _ (crawl_run_exec B base w)).
Qed.

Lemma contains_infix p s :
  Py.contains p s = true <-> exists before after, s = before ++ p ++ after.
Proof.
  induction s as [|c s IH]; cbn [Py.contains];
    rewrite orb_true_iff, startswith_prefix.
  - split.
    + intros [[t Ht]|H]; [|discriminate]. exists [], t. exact Ht.
    + intros (b & a & Heq). left. destruct b; [eauto|discriminate].
  - rewrite IH. split.
    + intros [[t Ht]|(b & a & ->)]; [exists [], t; exact Ht|].
      exists (c :: b), a. reflexivity.
    + intros ([|c' b] & a & Heq); cbn [app] in Heq; [left; eauto|].
      injection Heq as <- ->. right. eauto.
Qed.

Section Keywords.
Context {W : Type} {web : Web W}.

Lemma has_keyword_names target :
  has_keyword target = true <-> names_keyword target.
Proof.
  unfold has_keyword, names_keyword. rewrite existsb_exists. split.
  - intros (kw & Hin & Hc). apply contains_infix in Hc as (b & a & ->).
    exists kw, b, a. split; [|reflexivity]. apply list_elem_of_In, Hin.
  - intros (kw & b & a & Hin & ->). exists kw.
    split; [apply list_elem_of_In, Hin|]. apply contains_infix. eauto.
Qed.
End Keywords.

Section CrawlLinks.
Context {W : Type} {web : Web W}.
Variable max_pages : Z.
Variable base_netloc : list ascii.

Ltac pass_inversion Hc Hs :=
  let url := fresh "url" in
  let rest := fresh "rest" in
  let Hq := fresh "Hqueue" in
  let Hlt := fresh "Hlt" in
  apply (pass_inv _ _ _ _ _ _ _ Hc) in Hs;
  destruct Hs as (url & rest & Hq & Hlt & Hs).

(** What is fetched was in the queue at the start or was appended by a
    page fetched before it. *)
Lemma exec_fetched_from (Q : list fetch_event -> list ascii -> Prop) :
  (forall l l' u, Q l u -> Q (l ++ l') u) ->
  (forall url resp html q q'' earlier,
      counted (url, resp) = true -> html_of resp = Some html ->
      scan_page base_netloc url html q = inr q'' ->
      exists added,
        q'' = q ++ added /\ Forall (Q (earlier ++ [(url, resp)])) added) ->
  forall st (w : W) r,
    exec max_pages base_netloc st w r ->
    forall earlier,
      Forall (Q earlier) (queue st) ->
      forall before u resp after,
        fetched r = before ++ (u, resp) :: after ->
        Q (earlier ++ before) u.
Proof.
  intros Hmono HQ.
  induction 1 as [st w Hc|st w email ev w' Hc Hs|st w st' ev w' r Hc Hs Hr IH];
    intros earlier Hq before u resp after Hlog; cbn [fetched] in Hlog.
  - destruct before; discriminate.
  - pass_inversion Hc Hs. rewrite Hqueue in Hq.
    apply Forall_cons in Hq as [Hu _].
    destruct Hs as [(_ & -> & _)|(_ & resp' & _ & -> & _)];
      cbn [log_of] in Hlog.
    + destruct before; discriminate.
    + destruct before as [|e before]; cbn [app] in Hlog.
      * injection Hlog as <- _ _. rewrite app_nil_r. exact Hu.
      * injection Hlog as _ Hlog. destruct before; discriminate.
  - pass_inversion Hc Hs. rewrite Hqueue in Hq.
    apply Forall_cons in Hq as [Hu Hrest].
    destruct Hs as [(_ & -> & _ & [= ->])|(_ & resp' & _ & -> & Hs)];
      cbn [log_of app] in Hlog.
    + eapply IH; [exact Hrest|exact Hlog].
    + destruct before as [|e before]; cbn [app] in Hlog.
      * injection Hlog as <- _ _. rewrite app_nil_r. exact Hu.
      * injection Hlog as <- Hlog.
        replace (earlier ++ (url, resp') :: before)
          with ((earlier ++ [(url, resp')]) ++ before)
          by (rewrite <- app_assoc; reflexivity).
        eapply IH; [|exact Hlog].
        destruct Hs as [(_ & [= ->])|(Hcount & html & Hhtml & Hs)].
        -- cbn [queue]. eapply Forall_impl; [exact Hrest|].
           intros v. apply Hmono.
        -- destruct Hs as [(e' & _ & [=])|(q & Hscan & [= ->])].
           destruct (HQ _ _ _ _ _ earlier Hcount Hhtml Hscan)
             as (added & -> & Hadd).
           cbn [queue]. apply Forall_app. split; [|exact Hadd].
           eapply Forall_impl; [exact Hrest|]. intros v. apply Hmono.
Qed.

Lemma scan_links_keyword url html links queue queue'' :
  (forall link, link ∈ links -> link ∈ select_a_href html) ->
  scan_links base_netloc url links queue = inr queue'' ->
  exists added,
    queue'' = queue ++ added
    /\ Forall (keyword_link base_netloc url html) added.
Proof.
  revert queue. induction links as [|link links IH]; intros queue Hin;
    cbn [scan_links].
  - intros [= <-]. exists []. split; [symmetry; apply app_nil_r|constructor].
  - assert (Hin' : forall l, l ∈ links -> l ∈ select_a_href html).
    { intros l Hl. apply Hin. right. exact Hl. }
    destruct (Py.truthy (Py.strip (href link))) eqn:Ht; cbn [negb];
      [|apply IH, Hin'].
    destruct (_ && _); [discriminate|].
    destruct (bool_decide _) eqn:Hn; cbn [negb]; [|apply IH, Hin'].
    destruct (has_keyword _) eqn:Hk; [|apply IH, Hin'].
    intros Hs. apply IH in Hs as (added & -> & Hadd); [|exact Hin'].
    exists (urljoin url (Py.strip (href link)) :: added). split.
    + rewrite <- app_assoc. reflexivity.
    + constructor; [|exact Hadd]. apply bool_decide_eq_true in Hn.
      exists link. split; [apply Hin; left|].
      split; [apply truthy_nonempty, Ht|].
      split; [reflexivity|]. split; [exact Hn|].
      apply has_keyword_names, Hk.
Qed.

Lemma scan_page_keyword url html queue queue'' :
  scan_page base_netloc url html queue = inr queue'' ->
  exists added,
    queue'' = queue ++ added
    /\ Forall (keyword_link base_netloc url html) added.
Proof.
  unfold scan_page.
  destruct (extract_first_valid_email html) as [email|].
  - destruct (_ && _); [discriminate|]. apply scan_links_keyword. auto.
  - apply scan_links_keyword. auto.
Qed.

Lemma link_of_fetched_later l l' u :
  link_of_fetched base_netloc l u -> link_of_fetched base_netloc (l ++ l') u.
Proof.
  intros (page & resp & html & Hin & H). exists page, resp, html.
  split; [|exact H]. apply elem_of_app. left. exact Hin.
Qed.

Lemma counted_text url resp html :
  counted (url, resp) = true -> html_of resp = Some html -> html <> [].
Proof.
  unfold counted. cbn [snd]. intros Hc Hh. rewrite Hh in Hc.
  destruct html; discriminate.
Qed.

Lemma exec_fetched_links st (w : W) r earlier :
  exec max_pages base_netloc st w r ->
  Forall (link_of_fetched base_netloc earlier) (queue st) ->
  forall before u resp after,
    fetched r = before ++ (u, resp) :: after ->
    link_of_fetched base_netloc (earlier ++ before) u.
Proof.
  intros Hexec.
  apply (exec_fetched_from (link_of_fetched base_netloc)) with (w := w) (r := r);
    [apply link_of_fetched_later| |exact Hexec].
  intros url resp html q q'' l Hcount Hhtml Hscan.
  apply scan_page_keyword in Hscan as (added & -> & Hadd).
  exists added. split; [reflexivity|].
  eapply Forall_impl; [exact Hadd|]. intros u Hu.
  exists url, resp, html. split; [apply elem_of_app; right; left|].
  split; [exact Hhtml|]. split; [|exact Hu].
  eapply counted_text; eassumption.
Qed.
(** A run that starts with one URL in the queue and nothing visited
    fetches that URL first, and after it only links of the pages it
    fetched. *)
Lemma exec_seed_links st (w : W) r seed :
  exec max_pages base_netloc st w r ->
  queue st = [seed] -> visited st = ∅ ->
  forall before u resp after,
    fetched r = before ++ (u, resp) :: after ->
    (before = [] /\ u = seed)
    \/ (before <> [] /\ link_of_fetched base_netloc before u).
Proof.
  destruct 1 as [st w Hc|st w email ev w' Hc Hs|st w st' ev w' r Hc Hs Hr];
    intros Hq Hv before u resp after Hlog; cbn [fetched] in Hlog.
  - destruct before; discriminate.
  - pass_inversion Hc Hs. rewrite Hq in Hqueue. injection Hqueue as <- <-.
    destruct Hs as [(Hin & _)|(_ & resp' & _ & -> & _)].
    { rewrite Hv in Hin. exfalso. revert Hin. apply not_elem_of_empty. }
    cbn [log_of] in Hlog. destruct before as [|e before]; cbn [app] in Hlog.
    + injection Hlog as <- _ _. left. auto.
    + injection Hlog as _ Hlog. destruct before; discriminate.
  - pass_inversion Hc Hs. rewrite Hq in Hqueue. injection Hqueue as <- <-.
    destruct Hs as [(Hin & _)|(_ & resp' & _ & -> & Hs)].
    { rewrite Hv in Hin. exfalso. revert Hin. apply not_elem_of_empty. }
    cbn [log_of app] in Hlog.
    destruct before as [|e before]; cbn [app] in Hlog.
    + injection Hlog as <- _ _. left. auto.
    + injection Hlog as <- Hlog. right. split; [discriminate|].
      change ((seed, resp') :: before) with ([(seed, resp')] ++ before).
      eapply exec_fetched_links; [exact Hr| |exact Hlog].
      destruct Hs as [(_ & [= ->])|(Hcount & html & Hhtml & Hs)];
        [constructor|].
      destruct Hs as [(e' & _ & [=])|(q & Hscan & [= ->])].
      apply scan_page_keyword in Hscan as (added & -> & Hadd).
      cbn [queue app]. eapply Forall_impl; [exact Hadd|]. intros v Hlink.
      exists seed, resp', html. split; [left|].
      split; [exact Hhtml|]. split; [|exact Hlink].
      eapply counted_text; eassumption.
Qed.
End CrawlLinks.

(** X10.  The first URL the crawl fetches is the normalized URL.  Every
    URL it fetches after that is a link of a page it fetched before, one
    that answered with a text: the link is among the anchors of that page,
    its address is not blank, the URL is the address resolved against the
    URL of the page, it is on the netloc of the normalized URL, and a
    contact keyword stands in its path or in the text of the link, letter
    case apart. *)
Theorem crawl_follows_keyword_links :
  forall (W : Type) (web : Web W) (B : Z) (base_url : list ascii) (w : W)
         (before after : list fetch_event) (u : list ascii) (resp : response),
    fetched (crawl_run B base_url w) = before ++ (u, resp) :: after ->
    (before = [] /\ u = base_url)
    \/ (before <> [] /\ link_of_fetched (netloc base_url) before u).
Proof.
  intros W web B base_url w before after u resp Hlog.
  eapply exec_seed_links;
    [apply crawl_run_exec|reflexivity|reflexivity|exact Hlog].
Qed.

Lemma crawl_follows_keyword_links_witness :
  fetched (crawl_run 6 ExampleSite.home [])
  = [(ExampleSite.home, Response 200 ExampleSite.home_html);
     (str "https://x.com/contact", Response 200 [])]
    ++ [(str "https://x.com/about", Response 200 ExampleSite.about_html)]
  /\ (([(ExampleSite.home, Response 200 ExampleSite.home_html);
        (str "https://x.com/contact", Response 200 [])] = []
       /\ str "https://x.com/about" = ExampleSite.home)
      \/ ([(ExampleSite.home, Response 200 ExampleSite.home_html);
           (str "https://x.com/contact", Response 200 [])] <> []
          /\ link_of_fetched (netloc ExampleSite.home)
               [(ExampleSite.home, Response 200 ExampleSite.home_html);
                (str "https://x.com/contact", Response 200 [])]
               (str "https://x.com/about"))).
Proof.
  split; [vm_compute; reflexivity|].
  apply (crawl_follows_keyword_links _ ExampleSite.site 6 ExampleSite.home []
           [(ExampleSite.home, Response 200 ExampleSite.home_html);
            (str "https://x.com/contact", Response 200 [])]
           [] (str "https://x.com/about")
           (Response 200 ExampleSite.about_html)).
  vm_compute. reflexivity.
Defined.

Section SeedPage.
Context {W : Type} {web : Web W}.


End SeedPage.





(** ** The scraper: text and URL helpers *)

Lemma split1_cases sep s :
  (Forall (fun c => c <> sep) s /\ Py.split1 sep s = [s])
  \/ exists before after,
       s = before ++ sep :: after
       /\ Forall (fun c => c <> sep) before
       /\ Py.split1 sep s = [before; after].
Proof.
  induction s as [|c s IH]; [left; split; [constructor|reflexivity]|].
  cbn [Py.split1]. unfold Chr.eqb.
  destruct (Ascii.eqb_spec c sep) as [->|Hne].
  - right. exists [], s. repeat split. constructor.
  - destruct IH as [[Hall ->]|(before & after & -> & Hall & ->)].
    + left. split; [constructor; assumption|reflexivity].
    + right. exists (c :: before), after.
      repeat split. constructor; assumption.
Qed.

Lemma split_no_sep sep s :
  Forall (fun c => c <> sep) s -> Py.split sep s = [s].
Proof.
  induction 1 as [|c s Hc Hs IH]; [reflexivity|].
  cbn [Py.split]. unfold Chr.eqb.
  destruct (Ascii.eqb_spec c sep); [contradiction|]. rewrite IH. reflexivity.
Qed.

Lemma normalize_maps_url_cases url :
  (Forall (fun c => c <> "&"%char) url /\ _normalize_maps_url url = url)
  \/ exists before after,
       url = before ++ "&"%char :: after
       /\ Forall (fun c => c <> "&"%char) before
       /\ _normalize_maps_url url = before.
Proof.
  unfold _normalize_maps_url.
  destruct (split1_cases "&"%char url)
    as [[Hall ->]|(before & after & -> & Hall & ->)]; [left|right]; eauto.
Qed.

(** X13.  [_normalize_maps_url] keeps the URL up to its first "&": the
    result has no "&", the URL goes on after it with "&" or not at all, and
    normalizing the result changes nothing. *)
Theorem normalize_maps_url_spec :
  forall url : list ascii,
    let normalized := _normalize_maps_url url in
    Forall (fun c => c <> "&"%char) normalized
    /\ (url = normalized
        \/ exists after, url = normalized ++ "&"%char :: after)
    /\ _normalize_maps_url normalized = normalized.
Proof.
  intros url normalized. subst normalized.
  assert (Hfix : forall u, Forall (fun c => c <> "&"%char) u ->
            _normalize_maps_url u = u).
  { intros u Hu. unfold _normalize_maps_url.
    destruct (split1_cases "&"%char u) as [[_ ->]|(b & a & -> & _ & _)];
      [reflexivity|].
    apply Forall_app in Hu as [_ Hu]. apply Forall_cons in Hu as [Hu _].
    contradiction. }
  destruct (normalize_maps_url_cases url)
    as [[Hall ->]|(before & after & -> & Hall & ->)].
  - auto.
  - repeat split; [exact Hall|right; eauto|apply Hfix, Hall].
Qed.

Lemma search_from_sound r s :
  forall prev m,
    search_from r prev s = Some m ->
    exists before after,
      s = before ++ m ++ after
      /\ matches r (last_chr prev before) m after.
Proof.
  induction s as [|c s IH]; intros prev m; cbn [search_from].
  - destruct (match_here r prev []) as [rest|] eqn:E; [|discriminate].
    intros [= <-]. apply match_here_sound in E as (m & Heq & Hm).
    rewrite Heq, matched_app. exists [], rest. auto.
  - destruct (match_here r prev (c :: s)) as [rest|] eqn:E.
    + intros [= <-]. apply match_here_sound in E as (m & Heq & Hm).
      rewrite Heq, matched_app. exists [], rest. auto.
    + intros H. apply IH in H as (before & after & -> & Hm).
      exists (c :: before), after. rewrite last_chr_cons. auto.
Qed.

Lemma state_regex_match prev m rest :
  matches STATE_REGEX prev m rest ->
  length m = 2 /\ Forall (fun c => Chr.is_upper_az c = true) m.
Proof.
  unfold STATE_REGEX. intros H.
  apply matches_seq_inv in H as (m0 & m1 & -> & Hb & H).
  apply matches_wordb_inv in Hb as [-> _].
  apply matches_seq_inv in H as (m2 & m3 & -> & H & He).
  apply matches_wordb_inv in He as [-> _].
  apply matches_exactly_inv in H. rewrite app_nil_r. exact H.
Qed.

(** *** Removing the runs of digits *)

Lemma rep_unbounded_greedy p (s : list ascii) :
  forall lo prev,
    rep p lo None prev s (fun _ rest => Some rest) =
    if lo <=? length s - length (after_run p s)
    then Some (after_run p s) else None.
Proof.
  induction s as [|c s IH]; intros lo prev; cbn [rep after_run length].
  - destruct lo; reflexivity.
  - cbn [may_repeat fmap option_fmap option_map andb].
    destruct (p c) eqn:Hp; cbn [andb].
    + rewrite IH.
      assert (Hle : length (after_run p s) <= length s).
      { clear. induction s as [|a s IHs]; cbn [after_run]; [lia|].
        destruct (p a); simpl; lia. }
      destruct lo as [|lo]; cbn [pred].
      * destruct (0 <=? _) eqn:E; [reflexivity|].
        apply Nat.leb_gt in E. lia.
      * replace (S (length s) - length (after_run p s))
          with (S (length s - length (after_run p s))) by lia.
        cbn [Nat.leb].
        destruct (lo <=? _); [reflexivity|]. reflexivity.
    + cbn [length]. rewrite Nat.sub_diag. destruct lo; reflexivity.
Qed.

Lemma after_run_length p s : length (after_run p s) <= length s.
Proof.
  induction s as [|a s IH]; cbn [after_run]; [lia|].
  destruct (p a); simpl; lia.
Qed.

Lemma after_run_drop p s :
  drop (length s - length (after_run p s)) s = after_run p s.
Proof.
  induction s as [|a s IH]; [reflexivity|]. cbn [after_run].
  destruct (p a).
  - pose proof (after_run_length p s).
    cbn [length].
    replace (S (length s) - length (after_run p s))
      with (S (length s - length (after_run p s))) by lia.
    exact IH.
  - rewrite Nat.sub_diag. reflexivity.
Qed.

Lemma after_run_filter p s :
  List.filter (fun c => negb (p c)) (after_run p s)
  = List.filter (fun c => negb (p c)) s.
Proof.
  induction s as [|a s IH]; [reflexivity|]. cbn [after_run].
  destruct (p a) eqn:E; [|reflexivity].
  cbn [List.filter]. rewrite E. exact IH.
Qed.

Lemma sub_from_skip r repl s :
  forall prev skip,
    skip <= length s ->
    sub_from r repl prev skip s
    = sub_from r repl (last_chr prev (take skip s)) 0 (drop skip s).
Proof.
  induction s as [|c s IH]; intros prev [|n] Hlen; try reflexivity.
  - simpl in Hlen. lia.
  - cbn [sub_from take drop]. rewrite last_chr_cons.
    apply IH. simpl in Hlen. lia.
Qed.

(** [re.sub] of the runs of a class by nothing removes the characters of
    the class. *)
Lemma sub_plus_filter p :
  forall n s prev,
    length s <= n ->
    sub_from (plus p) [] prev 0 s = List.filter (fun c => negb (p c)) s.
Proof.
  induction n as [|n IH]; intros s prev Hlen.
  - destruct s; [reflexivity|simpl in Hlen; lia].
  - destruct s as [|c s]; [reflexivity|].
    cbn [sub_from List.filter]. unfold match_here, plus. cbn [bt].
    rewrite rep_unbounded_greedy. cbn [after_run].
    destruct (p c) eqn:Hp; cbn [negb].
    + pose proof (after_run_length p s) as Hle. cbn [length].
      rewrite !Nat.sub_succ_l by exact Hle.
      cbn [Nat.leb app length].
      rewrite !Nat.sub_succ_l by exact Hle.
      rewrite sub_from_skip by lia.
      rewrite after_run_drop, <- after_run_filter.
      apply IH. simpl in Hlen. lia.
    + cbn [length]. rewrite Nat.sub_diag. cbn [Nat.leb].
      f_equal. apply IH. simpl in Hlen. lia.
Qed.

Lemma sub_digits s :
  Re.sub DIGITS_REGEX [] s
  = List.filter (fun c => negb (Chr.is_decimal c)) s.
Proof. apply (sub_plus_filter _ (length s)). reflexivity. Qed.

Lemma Forall_lstrip (P : ascii -> Prop) s :
  Forall P s -> Forall P (Py.lstrip s).
Proof.
  induction 1 as [|c s Hc Hs IH]; cbn [Py.lstrip]; [constructor|].
  destruct (Chr.is_space c); [exact IH|constructor; assumption].
Qed.

Lemma Forall_strip (P : ascii -> Prop) s :
  Forall P s -> Forall P (Py.strip s).
Proof.
  intros H. unfold Py.strip, Py.rstrip.
  apply Forall_rev, Forall_lstrip, Forall_rev, Forall_lstrip, H.
Qed.

Lemma parse_city_state_cases address city state :
  _parse_city_state address = (city, state) ->
  (state = [] \/ (length state = 2
                  /\ Forall (fun c => Chr.is_upper_az c = true) state))
  /\ Forall (fun c => Chr.is_decimal c = false) city
  /\ stripped city.
Proof.
  unfold _parse_city_state.
  set (parts := flat_map _ _).
  destruct (length parts <? 2).
  { intros [= <- <-]. repeat split; auto. }
  intros [= <- <-]. split; [|split].
  - destruct (search STATE_REGEX (default [] (last parts))) as [m|] eqn:E;
      [|left; reflexivity].
    right. apply search_from_sound in E as (b & a & _ & Hm).
    eapply state_regex_match, Hm.
  - apply Forall_strip. rewrite sub_digits.
    apply Forall_forall. intros c Hc.
    apply list_elem_of_In, filter_In in Hc as [_ Hc].
    apply negb_true_iff, Hc.
  - apply strip_stripped.
Qed.

(** X14.  Whatever the address, the state [_parse_city_state] gives is
    empty or two capital letters, and the city has no decimal digit and no
    space at either end; an address without a comma gives an empty city
    and an empty state. *)
Theorem parse_city_state_result :
  forall address : list ascii,
    let (city, state) := _parse_city_state address in
    (state = [] \/ (length state = 2
                    /\ Forall (fun c => Chr.is_upper_az c = true) state))
    /\ Forall (fun c => Chr.is_decimal c = false) city
    /\ stripped city
    /\ (Forall (fun c => c <> ","%char) address -> city = [] /\ state = []).
Proof.
  intros address.
  destruct (_parse_city_state address) as [city state] eqn:E.
  destruct (parse_city_state_cases _ _ _ E) as (Hs & Hd & Hc).
  split; [exact Hs|]. split; [exact Hd|]. split; [exact Hc|].
  intros Hno. unfold _parse_city_state in E.
  rewrite (split_no_sep _ _ Hno) in E. cbn [flat_map] in E.
  destruct (Py.truthy (Py.strip address)); cbn in E;
    injection E as <- <-; auto.
Qed.

Lemma parse_city_state_result_witness :
  let (city, state) := _parse_city_state (str "Los Angeles") in
  (state = [] \/ (length state = 2
                  /\ Forall (fun c => Chr.is_upper_az c = true) state))
  /\ Forall (fun c => Chr.is_decimal c = false) city
  /\ stripped city
  /\ (Forall (fun c => c <> ","%char) (str "Los Angeles") ->
      city = [] /\ state = []).
Proof. apply (parse_city_state_result (str "Los Angeles")). Defined.

(** ** The scraper: reading the page *)

Import ScrapeProps.

Section Extractors.
Context {W : Type} {browser : Browser W}.

Lemma no_timeout_bind {A B} (P : A -> Prop) (Q : B -> Prop)
    (c : M W A) (k : A -> M W B) (w : W) :
  no_timeout P (c w) ->
  (forall a w1, P a -> no_timeout Q (k a w1)) ->
  no_timeout Q ((c ≫= k) w).
Proof.
  unfold no_timeout, mbind, M_bind, bind.
  destruct (c w) as [[a|e] w1]; cbn [fst].
  - intros Ha Hk. apply Hk, Ha.
  - intros He _. exact He.
Qed.

Lemma try_timeout_no_timeout {A} (P : A -> Prop) (c h : M W A) (w : W) :
  (forall a w1, c w = (Ok a, w1) -> P a) ->
  (forall w1, no_timeout P (h w1)) ->
  no_timeout P (try_timeout c h w).
Proof.
  unfold no_timeout, try_timeout. intros Hc Hh.
  destruct (c w) as [[a|[|]] w1] eqn:E; cbn [fst]; eauto.
  apply Hh.
Qed.

Lemma safe_text_no_timeout selector (w : W) :
  no_timeout stripped (_safe_text selector w).
Proof.
  unfold _safe_text. apply try_timeout_no_timeout.
  - intros a w1 H. bind_inversion H.
    destruct (a0 =? 0).
    + apply ret_ok in H as [<- _]. split; exact I.
    + bind_inversion H. apply ret_ok in H as [<- _]. apply strip_stripped.
  - intros w1. split; exact I.
Qed.

Lemma address_by_no_timeout selectors (w : W) :
  no_timeout stripped (address_by selectors w).
Proof.
  revert w. induction selectors as [|selector rest IH]; intros w;
    cbn [address_by].
  - split; exact I.
  - eapply no_timeout_bind; [apply safe_text_no_timeout|].
    intros text w1 _. destruct (Py.truthy text); [|apply IH].
    apply strip_stripped.
Qed.

Lemma phone_by_no_timeout selectors (w : W) :
  no_timeout stripped (phone_by selectors w).
Proof.
  revert w. induction selectors as [|selector rest IH]; intros w;
    cbn [phone_by].
  - split; exact I.
  - eapply no_timeout_bind; [apply safe_text_no_timeout|].
    intros text w1 _. destruct (Py.truthy text); [|apply IH].
    destruct (Py.truthy _); [|apply IH]. apply strip_stripped.
Qed.

Lemma website_by_no_timeout selectors (w : W) :
  no_timeout
    (fun found => forall href, found = Some href ->
                    href <> [] /\ http_scheme href = true)
    (website_by selectors w).
Proof.
  revert w. induction selectors as [|selector rest IH]; intros w;
    cbn [website_by].
  - intros href [=].
  - eapply (no_timeout_bind
              (fun found => forall href, found = Some href ->
                              href <> [] /\ http_scheme href = true)).
    + apply try_timeout_no_timeout.
      * intros a w1 H. bind_inversion H.
        destruct (a0 =? 0); [apply ret_ok in H as [<- _]; intros ? [=]|].
        bind_inversion H.
        destruct a1 as [[|c h]|].
        -- apply ret_ok in H as [<- _]. intros ? [=].
        -- destruct (http_scheme (c :: h)) eqn:Hs;
             apply ret_ok in H as [<- _].
           ++ intros href [= <-]. split; [discriminate|exact Hs].
           ++ intros href [=].
        -- apply ret_ok in H as [<- _]. intros ? [=].
      * intros w1 href [=].
    + intros found w1 Hfound. destruct found as [href|]; [|apply IH].
      intros h [= <-]. apply Hfound. reflexivity.
Qed.
End Extractors.

(** X15.  The readers of the page fields never let a
    [PlaywrightTimeoutError] out: [_safe_text], [_extract_address] and
    [_extract_phone] give a text without a space at either end (empty when
    nothing is found), and a website [_extract_website] gives is not empty
    and has the scheme http or https. *)
Theorem page_fields_no_timeout :
  forall (W : Type) (browser : Browser W) (selector : list ascii) (w : W),
    no_timeout stripped (_safe_text selector w)
    /\ no_timeout stripped (_extract_address w)
    /\ no_timeout stripped (_extract_phone w)
    /\ no_timeout
         (fun found => forall href, found = Some href ->
                         href <> [] /\ http_scheme href = true)
         (_extract_website w).
Proof.
  intros W browser selector w. split; [|split; [|split]].
  - apply safe_text_no_timeout.
  - apply address_by_no_timeout.
  - apply phone_by_no_timeout.
  - apply website_by_no_timeout.
Qed.

(** *** Leads *)

Section LeadProofs.
Context {W : Type} {browser : Browser W} {web : Web W}.

Lemma find_email_ok B website_url (w : W) e :
  fst (find_email B website_url w) = Some e -> email_ok e.
Proof.
  destruct (find_email_cases B website_url w)
    as [[-> _]|(url & base & _ & _ & -> & _)]; cbn [fst]; [discriminate|].
  apply (exec_returned_ok _ _ _ _ _ (crawl_run_exec B base w)).
Qed.

Lemma no_timeout_ok {A} (P : A -> Prop) (c : M W A) (w w1 : W) a :
  no_timeout P (c w) -> c w = (Ok a, w1) -> P a.
Proof. unfold no_timeout. intros H E. rewrite E in H. exact H. Qed.

Lemma parse_place_lead place_url org (w w' : W) lead :
  _parse_place place_url org w = (Ok (Some lead), w') ->
  lead_ok lead /\ org_type lead = org.
Proof.
  intros Hrun. unfold _parse_place in Hrun.
  do 2 bind_inversion Hrun.
  bind_inversion Hrun. rename a1 into nm.
  bind_inversion Hrun. rename a1 into addr.
  bind_inversion Hrun. rename a1 into raw_phone.
  bind_inversion Hrun. rename a1 into website.
  bind_inversion Hrun. rename a1 into mail.
  match goal with
  | H : lift _ _ = _ |- _ => apply lift_ok in H; rename H into Hmail
  end.
  match goal with
  | H : _safe_text _ _ = _ |- _ =>
      apply (no_timeout_ok _ _ _ _ _ (safe_text_no_timeout _ _)) in H;
      rename H into Hnm
  end.
  match goal with
  | H : _extract_address _ = _ |- _ =>
      apply (no_timeout_ok _ _ _ _ _ (address_by_no_timeout _ _)) in H;
      rename H into Haddr
  end.
  destruct (negb (Py.truthy nm)) eqn:Hn; cbn [orb] in Hrun;
    [apply ret_ok in Hrun as [[=] _]|].
  destruct (negb (Py.truthy addr)) eqn:Ha; cbn [orb] in Hrun;
    [apply ret_ok in Hrun as [[=] _]|].
  destruct (normalize_us_phone raw_phone) as [ph|] eqn:Hph;
    cbn [default from_option id] in Hrun;
    [|apply ret_ok in Hrun as [[=] _]].
  destruct (negb (Py.truthy ph)) eqn:Hp; cbn [orb] in Hrun;
    [apply ret_ok in Hrun as [[=] _]|].
  destruct mail as [mail|]; cbn [default from_option id] in Hrun;
    [|apply ret_ok in Hrun as [[=] _]].
  destruct (negb (Py.truthy mail)) eqn:Hm; cbn [orb] in Hrun;
    [apply ret_ok in Hrun as [[=] _]|].
  destruct (_parse_city_state addr) as [cty stt] eqn:Hcs.
  destruct (negb (Py.truthy cty)) eqn:Hc; cbn [orb] in Hrun;
    [apply ret_ok in Hrun as [[=] _]|].
  destruct (bool_decide (stt = REGION)) eqn:Hs; cbn [negb] in Hrun;
    [|apply ret_ok in Hrun as [[=] _]].
  apply ret_ok in Hrun as [[= <-] _].
  apply bool_decide_eq_true in Hs.
  apply negb_false_iff, truthy_nonempty in Hn, Ha, Hc.
  destruct (normalize_us_phone_some _ _ Hph) as (d & -> & Hlen & Hd).
  match type of Hmail with
  | find_email _ _ ?w0 = _ =>
      destruct (find_email_ok default_max_pages website w0 mail)
        as [Hlow Hvalid]; [rewrite Hmail; reflexivity|]
  end.
  split; [|reflexivity]. unfold lead_ok. cbn.
  repeat split; try assumption; try apply Hnm; try apply Haddr.
  - exists d. auto.
  - apply is_valid_us_phone_formatted; assumption.
Qed.

Lemma scrape_places_leads (P : Lead -> Prop) org place_urls :
  (forall place_url (w w' : W) lead,
      _parse_place place_url org w = (Ok (Some lead), w') -> P lead) ->
  forall st (w : W) st' w',
    scrape_places org place_urls st w = (Ok st', w') ->
    Forall P (all_leads st) -> Forall P (all_leads st').
Proof.
  intros HP. induction place_urls as [|place_url rest IH];
    intros st w st' w' Hrun Hall; cbn [scrape_places] in Hrun.
  - apply ret_ok in Hrun as [<- _]. exact Hall.
  - bind_inversion Hrun. destruct a as [lead|]; [|eapply IH; eassumption].
    assert (Hlead : P lead).
    { match goal with H : try_any _ _ _ = _ |- _ => rename H into Htry end.
      unfold try_any in Htry.
      destruct (_parse_place place_url org w) as [[[l|]|e] w1] eqn:E;
        try discriminate.
      injection Htry as -> ->. eapply HP, E. }
    destruct (bool_decide (dedup_key lead ∈ seen_keys st));
      apply IH in Hrun; cbn [all_leads]; auto.
    apply Forall_app. split; [exact Hall|]. repeat constructor. exact Hlead.
Qed.

Lemma scrape_targets_leads (P : Lead -> Prop) targets :
  (forall target place_url (w w' : W) lead,
      target ∈ targets ->
      _parse_place place_url (target_org_type target) w
      = (Ok (Some lead), w') -> P lead) ->
  forall st (w : W) st' w',
    scrape_targets targets st w = (Ok st', w') ->
    Forall P (all_leads st) -> Forall P (all_leads st').
Proof.
  induction targets as [|target rest IH]; intros HP st w st' w' Hrun Hall;
    cbn [scrape_targets] in Hrun.
  - apply ret_ok in Hrun as [<- _]. exact Hall.
  - do 2 bind_inversion Hrun.
    eapply IH; [|exact Hrun|].
    + intros t url w2 w3 lead Ht. apply HP. right. exact Ht.
    + eapply scrape_places_leads; [|eassumption|exact Hall].
      intros url w2 w3 lead. apply HP. left.
Qed.

(** The [try] around [_parse_place] keeps the loop over the places from
    raising. *)
Lemma scrape_places_returns org place_urls :
  forall st (w : W),
    exists st' w', scrape_places org place_urls st w = (Ok st', w').
Proof.
  induction place_urls as [|place_url rest IH]; intros st w;
    cbn [scrape_places].
  - eexists _, _. reflexivity.
  - unfold mbind, M_bind, bind, try_any.
    destruct (_parse_place place_url org w) as [[[lead|]|e] w1];
      cbn [MapsScraper.ret]; [|apply IH..].
    destruct (bool_decide _); apply IH.
Qed.
End LeadProofs.

(** X16.  Every lead [scrape] returns has a name and an address that are
    not empty and have no space at either end, a phone that is "+1" and ten
    decimal digits, an email in lower case that [is_valid_email] accepts, the
    city and state parsed from its address, a city that is not empty, the
    state "CA", and the type of one of the targets. *)
Theorem scrape_leads_are_complete :
  forall (W : Type) (browser : Browser W) (web : Web W)
         (targets : list SearchTarget) (w w' : W) (leads : list Lead),
    scrape targets w = (Ok leads, w') ->
    Forall (fun lead =>
              lead_ok lead
              /\ org_type lead ∈ map target_org_type targets) leads.
Proof.
  intros W browser web targets w w' leads Hrun.
  unfold scrape in Hrun. bind_inversion Hrun.
  apply ret_ok in Hrun as [<- _].
  match goal with H : scrape_run _ _ = _ |- _ => rename H into Hrun end.
  unfold scrape_run in Hrun. do 3 bind_inversion Hrun. bind_inversion Hrun.
  apply ret_ok in Hrun as [<- _].
  match goal with H : scrape_targets _ _ _ = _ |- _ => rename H into Ht end.
  eapply scrape_targets_leads in Ht; [exact Ht| |constructor].
  intros target url wa wb lead Hin Hp.
  apply parse_place_lead in Hp as [Hok Horg]. split; [exact Hok|].
  rewrite Horg. apply list_elem_of_fmap. eauto.
Qed.

Lemma scrape_leads_are_complete_witness :
  Forall (fun lead =>
            lead_ok lead
            /\ org_type lead ∈ map target_org_type [ExampleMaps.churches])
    [ExampleMaps.lead2].
Proof.
  apply (scrape_leads_are_complete _ ExampleMaps.browser ExampleMaps.web
           [ExampleMaps.churches] ExampleMaps.start
           (ExampleMaps.World ExampleMaps.place1
              [str "https://x.com/"; str "https://x.com/contact";
               str "https://x.com/about"; str "https://x.com/";
               str "https://x.com/contact"; str "https://x.com/about"])).
  vm_compute. reflexivity.
Defined.

(** X17.  An exception in [_parse_place] does not end the run: whatever the
    page does, the loop of [scrape] over the places of a target goes
    through them all and returns. *)
Theorem scrape_places_never_raises :
  forall (W : Type) (browser : Browser W) (web : Web W)
         (org : list ascii) (place_urls : list (list ascii))
         (st : scrape_state) (w : W),
    exists st' w', scrape_places org place_urls st w = (Ok st', w').
Proof. intros. apply scrape_places_returns. Qed.

(** ** The scraper: collecting the places *)

Section CollectProofs.
Context {W : Type} {browser : Browser W}.

Lemma read_cards_places n :
  forall idx (urls urls' : gset (list ascii)) (w w' : W),
    read_cards cards idx n urls w = (Ok urls', w') ->
    (forall u, u ∈ urls -> place_of_card u) ->
    forall u, u ∈ urls' -> place_of_card u.
Proof.
  induction n as [|n IH]; intros idx urls urls' w w' Hrun Hall;
    cbn [read_cards] in Hrun.
  - apply ret_ok in Hrun as [<- _]. exact Hall.
  - bind_inversion Hrun. destruct a as [h|]; [|eapply IH; eassumption].
    destruct (Py.truthy h && Py.contains (str "/maps/place/") h) eqn:E;
      [|eapply IH; eassumption].
    apply andb_true_iff in E as [_ E].
    eapply IH; [exact Hrun|]. intros u [Hu|Hu]%elem_of_union; [|auto].
    apply elem_of_singleton in Hu. subst u.
    exists h. split; [eexists _, _, _; eassumption|].
    split; [apply contains_infix, E|].
    destruct (normalize_maps_url_cases h)
      as [[Hno ->]|(b & a & -> & Hno & ->)]; split; eauto.
Qed.

Lemma collect_rounds_places max_items rounds :
  forall st (urls' : gset (list ascii)) (w w' : W),
    collect_rounds max_items rounds st w = (Ok urls', w') ->
    (forall u, u ∈ urls st -> place_of_card u) ->
    forall u, u ∈ urls' -> place_of_card u.
Proof.
  induction rounds as [|rounds IH]; intros st urls' w w' Hrun Hall;
    cbn [collect_rounds] in Hrun.
  - apply ret_ok in Hrun as [<- _]. exact Hall.
  - do 2 bind_inversion Hrun.
    match goal with
    | H : read_cards _ _ _ _ _ = _ |- _ =>
        pose proof (read_cards_places _ _ _ _ _ _ H Hall) as Hread
    end.
    destruct (Z.of_nat (size a0) >=? max_items)%Z;
      [apply ret_ok in Hrun as [<- _]; exact Hread|].
    destruct (7 <=? _); [apply ret_ok in Hrun as [<- _]; exact Hread|].
    do 3 bind_inversion Hrun.
    eapply IH; [exact Hrun|exact Hread].
Qed.

Lemma collect_place_urls_places query max_items (w w' : W) place_urls :
  _collect_place_urls query max_items w = (Ok place_urls, w') ->
  NoDup place_urls /\ Forall place_of_card place_urls
  /\ ((0 <= max_items)%Z ->
      (Z.of_nat (length place_urls) <= max_items)%Z).
Proof.
  intros Hrun. unfold _collect_place_urls in Hrun.
  do 3 bind_inversion Hrun.
  destruct a1 as [search_input|].
  - do 6 bind_inversion Hrun. apply ret_ok in Hrun as [<- _].
    match goal with
    | H : collect_rounds _ _ _ _ = _ |- _ =>
        pose proof (collect_rounds_places _ _ _ _ _ _ H) as Hinv
    end.
    cbn [urls] in Hinv.
    match goal with
    | |- context [Py.slice_to _ (elements ?s)] => set (found := s) in *
    end.
    assert (Htake : exists n,
              Py.slice_to max_items (elements found)
              = take n (elements found)).
    { unfold Py.slice_to. destruct (0 <=? max_items)%Z; eauto. }
    destruct Htake as [n Htake]. split; [|split].
    + rewrite Htake.
      apply (sublist_NoDup _ (elements found));
        [apply NoDup_elements|apply sublist_take].
    + rewrite Htake. apply Forall_take, Forall_forall.
      intros u Hu. apply elem_of_elements in Hu. apply Hinv; [|exact Hu].
      intros v Hv. exfalso. revert Hv. apply not_elem_of_empty.
    + intros HN. unfold Py.slice_to.
      assert ((0 <=? max_items)%Z = true) as -> by lia.
      rewrite length_take. lia.
  - do 2 bind_inversion Hrun. apply ret_ok in Hrun as [<- _].
    split; [constructor|]. split; [constructor|]. simpl. lia.
Qed.
End CollectProofs.

(** X18.  The places [_collect_place_urls] returns are distinct.  Each is
    the link of a card of the result list, as the page gave it in some
    state, with "/maps/place/" in it, up to its first "&".  For
    [max_items = N >= 0] there are at most [N] of them, so none for
    [N = 0]. *)
Theorem collect_place_urls_result :
  forall (W : Type) (browser : Browser W) (query : list ascii) (N : Z)
         (w w' : W) (place_urls : list (list ascii)),
    _collect_place_urls query N w = (Ok place_urls, w') ->
    NoDup place_urls
    /\ Forall place_of_card place_urls
    /\ ((0 <= N)%Z -> (Z.of_nat (length place_urls) <= N)%Z)
    /\ (N = 0%Z -> place_urls = []).
Proof.
  intros W browser query N w w' place_urls Hrun.
  apply collect_place_urls_places in Hrun as (Hnd & Hall & Hlen).
  split; [exact Hnd|]. split; [exact Hall|]. split; [exact Hlen|].
  intros ->. destruct place_urls; [reflexivity|].
  specialize (Hlen ltac:(lia)). simpl in Hlen. lia.
Qed.

Lemma collect_place_urls_result_witness :
  NoDup [ExampleMaps.place2; ExampleMaps.place1]
  /\ Forall (place_of_card (H:=ExampleMaps.browser))
       [ExampleMaps.place2; ExampleMaps.place1]
  /\ ((0 <= 5)%Z ->
      (Z.of_nat (length [ExampleMaps.place2; ExampleMaps.place1]) <= 5)%Z)
  /\ (5%Z = 0%Z -> [ExampleMaps.place2; ExampleMaps.place1] = []).
Proof.
  apply (collect_place_urls_result _ ExampleMaps.browser
           (str "Churches in California") 5 ExampleMaps.start
           (ExampleMaps.World (str "https://www.google.com/maps") [])).
  vm_compute. reflexivity.
Defined.

Section SearchBox.
Context {W : Type} {browser : Browser W}.

Lemma search_input_by_hidden selectors :
  (forall loc ms (w : W),
      fst (act (WaitForVisible loc ms) w) = Raise PlaywrightTimeoutError) ->
  forall (w w' : W) found,
    search_input_by selectors w = (Ok found, w') -> found = None.
Proof.
  intros Hhidden. induction selectors as [|selector rest IH];
    intros w w' found Hrun; cbn [search_input_by] in Hrun.
  - apply ret_ok in Hrun as [<- _]. reflexivity.
  - bind_inversion Hrun.
    match goal with H : try_timeout _ _ _ = _ |- _ => rename H into Htry end.
    unfold try_timeout, mbind, M_bind, bind in Htry.
    specialize (Hhidden (First (Locator selector)) 15000%Z w).
    destruct (act (WaitForVisible (First (Locator selector)) 15000) w)
      as [[u|e] w1]; cbn [fst] in Hhidden; [discriminate|].
    injection Hhidden as ->.
    unfold MapsScraper.ret in Htry. injection Htry as <- <-.
    eapply IH, Hrun.
Qed.
End SearchBox.

(** X19.  When the search box does not show for any of the selectors,
    [_collect_place_urls] returns an empty list. *)
Theorem collect_place_urls_without_search_box :
  forall (W : Type) (browser : Browser W) (query : list ascii) (N : Z)
         (w w' : W) (place_urls : list (list ascii)),
    (forall loc ms (w0 : W),
        fst (act (WaitForVisible loc ms) w0) = Raise PlaywrightTimeoutError) ->
    _collect_place_urls query N w = (Ok place_urls, w') ->
    place_urls = [].
Proof.
  intros W browser query N w w' place_urls Hhidden Hrun.
  unfold _collect_place_urls in Hrun. do 3 bind_inversion Hrun.
  match goal with
  | H : _get_search_input _ = _ |- _ =>
      apply (search_input_by_hidden _ Hhidden) in H; subst
  end.
  do 2 bind_inversion Hrun. apply ret_ok in Hrun as [<- _]. reflexivity.
Qed.

Lemma collect_place_urls_without_search_box_witness :
  @nil (list ascii) = [].
Proof.
  apply (collect_place_urls_without_search_box _ ExampleNoSearch.browser
           (str "Churches in California") 5 ExampleMaps.start
           (ExampleMaps.World (str "https://www.google.com/maps") [])
           []).
  - intros loc ms w0. reflexivity.
  - vm_compute. reflexivity.
Defined.

(** *** A page that shows the same cards however far it is scrolled *)

Section StaticPage.
Context {W : Type} {browser : Browser W}.
Variable n : nat.
Variable hrefs : nat -> option (list ascii).
Hypothesis static_count : forall w : W, count cards w = (Ok n, w).
Hypothesis static_href :
  forall idx (w : W),
    get_attribute (Nth cards idx) (str "href") w = (Ok (hrefs idx), w).






End StaticPage.



(** ** The targets and the export *)

Import Main Exporters.

(** X21.  [build_targets] gives the church target and then the hospital
    target; their [max_items] add up to the total, the hospitals having the
    odd one, so that both are positive from a total of 2 on, and the
    churches get nothing for a total of 1. *)
Theorem build_targets_split :
  forall total : Z,
    exists churches hospitals,
      build_targets total
      = [mkSearchTarget (str "Churches in California") (str "Church")
           churches;
         mkSearchTarget (str "Hospitals in California") (str "Hospital")
           hospitals]
      /\ (churches + hospitals = total)%Z
      /\ (hospitals = churches \/ hospitals = churches + 1)%Z
      /\ ((2 <= total)%Z -> (0 < churches /\ 0 < hospitals)%Z)
      /\ (total = 1%Z -> churches = 0%Z /\ hospitals = 1%Z).
Proof.
  intros total. exists (total / 2)%Z, (total - total / 2)%Z.
  pose proof (Z.div_mod total 2 ltac:(lia)) as Hdm.
  pose proof (Z.mod_pos_bound total 2 ltac:(lia)) as Hm.
  split; [reflexivity|]. repeat split; lia.
Qed.

Lemma build_targets_split_witness :
  exists churches hospitals,
    build_targets 100
    = [mkSearchTarget (str "Churches in California") (str "Church")
         churches;
       mkSearchTarget (str "Hospitals in California") (str "Hospital")
         hospitals]
    /\ (churches + hospitals = 100)%Z
    /\ (hospitals = churches \/ hospitals = churches + 1)%Z
    /\ ((2 <= 100)%Z -> (0 < churches /\ 0 < hospitals)%Z)
    /\ (100%Z = 1%Z -> churches = 0%Z /\ hospitals = 1%Z).
Proof. apply (build_targets_split 100). Defined.

Lemma to_dict_rows lead :
  exists row,
    to_dict lead = Some row
    /\ dict_to_list OUTPUT_COLUMNS row = Some (fields lead)
    /\ map (fun key => get key row) OUTPUT_COLUMNS = map Some (fields lead).
Proof.
  destruct lead as [n t p e a c s]. eexists. split; [reflexivity|].
  split; reflexivity.
Qed.

(** X22.  The exporters never fail on a key: [to_dict] has the seven
    columns and nothing else.  After its header the CSV has a row for each
    lead, in order, with name, type, phone, email, address, city and state
    in this order, and the Excel frame has the same cells. *)
Theorem export_rows :
  forall leads : list Lead,
    export_to_csv leads = Some (OUTPUT_COLUMNS :: map fields leads)
    /\ export_to_excel leads = Some (map (fun lead => map Some (fields lead)) leads).
Proof.
  intros leads. unfold export_to_csv.
  assert (csv_body leads = Some (map fields leads)
          /\ export_to_excel leads
             = Some (map (fun lead => map Some (fields lead)) leads))
    as [-> ->]; [|auto].
  induction leads as [|lead rest [IH1 IH2]]; [auto|].
  destruct (to_dict_rows lead) as (row & Hrow & Hcsv & Hxl).
  cbn [csv_body export_to_excel map].
  rewrite Hrow, Hcsv, Hxl, IH1, IH2. auto.
Qed.
